(** * fslock: a cross-process mutex based on file locks

    A shallow embedding of the package's three source files:
    - [fslock.go]         the sentinel [ErrTimeout] and its type [timeoutError];
    - [fslock_unix.go]    the flock(2) backend (module [Unix]);
    - [fslock_windows.go] the LockFileEx backend (module [Windows]).

    The package is a thin layer over kernel facilities.  Each backend is
    therefore embedded over an explicit kernel state ([OS]) that is threaded
    through every primitive the package invokes, and that logs each primitive
    call together with its reply. *)

From Stdlib Require Import ZArith Lia.
From stdpp Require Import gmap strings list fin_maps.

#[local] Open Scope Z_scope.

(** ** Go values shared by both backends *)

(** [type timeoutError string] with its two methods. *)
Definition timeoutError : Type := string.

Definition timeoutError_Error (t : timeoutError) : string := t.

Definition timeoutError_Timeout (_ : timeoutError) : bool := true.

(** The dynamic types an [error] interface value of this package can carry:
    [syscall.Errno] (an unsigned machine word) and [timeoutError]. *)
Inductive errval : Type :=
  | Errno (e : Z)
  | TimeoutError (t : timeoutError).

#[global] Instance errval_eq_dec : EqDecision errval.
Proof. solve_decision. Defined.

(** An interface value is either [nil] or a typed value. *)
Definition error : Type := option errval.

Definition nil : error := None.

(** Go's [==] on interface values: same dynamic type and equal values. *)
Definition error_eqb (a b : error) : bool := bool_decide (a = b).

(** The [Timeout() bool] capability, looked up on the dynamic type the way a
    caller's type assertion to [interface{ Timeout() bool }] does.  Only the
    method this package declares is modelled; [None] stands for "not declared
    here". *)
Definition Timeout (e : error) : option bool :=
  match e with
  | Some (TimeoutError t) => Some (timeoutError_Timeout t)
  | _ => None
  end.

(** [var ErrTimeout error = timeoutError("lock timeout exceeded")] *)
Definition ErrTimeout : error := Some (TimeoutError "lock timeout exceeded").

(** [time.Duration]: a signed 64-bit count of nanoseconds. *)
Definition Duration : Type := Z.

Definition Millisecond : Duration := 1000000.
Definition Second : Duration := 1000 * Millisecond.

Definition minDuration : Duration := - 2 ^ 63.
Definition maxDuration : Duration := 2 ^ 63 - 1.

(** [time.Time]: an instant, as nanoseconds after the zero [Time]. *)
Definition Time : Type := Z.

Definition IsZero (t : Time) : bool := t =? 0.

(** [Time.Sub] saturates at the ends of the [Duration] range. *)
Definition Sub (t u : Time) : Duration :=
  Z.max minDuration (Z.min maxDuration (t - u)).

(** ** Calls into the kernel *)

(** A computation over the kernel state [S] that yields an [A]; [None] is a
    call that never returns. *)
Definition Sys (S A : Type) : Type := S → option (A * S).

#[global] Instance Sys_ret {S} : MRet (Sys S) := λ A a os, Some (a, os).

#[global] Instance Sys_bind {S} : MBind (Sys S) := λ A B f m os,
  match m os with
  | Some (a, os') => f a os'
  | None => None
  end.

(** The state a computation ends in ([os] itself when it does not end). *)
Definition final {S A} (m : Sys S A) (os : S) : S :=
  match m os with
  | Some (_, os') => os'
  | None => os
  end.

(** ** The tests' vocabulary ([fslock_test.go]) *)

(** What a test function comes to; an assertion that fails ends the test
    at its line. *)
Inductive Verdict : Type :=
  | Passed
  | Failed (line : nat).

(** [shortWait = 50 * time.Millisecond] *)
Definition shortWait : Duration := 50 * Millisecond.

(** [filepath.Join] of a directory and a plain name. *)
Definition filepath_Join (dir name : string) : string :=
  String.append dir (String.append "/" name).

(** ** The flock backend ([fslock_unix.go]) *)

Module Unix.

(** Constants of package [syscall] whose value depends on the target the
    build tag selects. *)
Class Platform : Type := {
  O_CREAT : Z;
  EWOULDBLOCK : Z;
}.

(** Constants of package [syscall] that agree on every unix target. *)
Definition O_RDONLY : Z := 0.
Definition LOCK_EX : Z := 2.
Definition LOCK_NB : Z := 4.
Definition LOCK_UN : Z := 8.
Definition ENOENT : Z := 2.
Definition EBADF : Z := 9.
Definition EINVAL : Z := 22.

Definition linux : Platform := {| O_CREAT := 64; EWOULDBLOCK := 11 |}.
Definition darwin : Platform := {| O_CREAT := 512; EWOULDBLOCK := 35 |}.

(** *** The kernel, as seen by one process *)

(** One entry per primitive invoked, with the reply it got. *)
Inductive Call : Type :=
  | CallOpen (path : string) (flags perm : Z) (fd : Z) (err : error)
  | CallFlock (fd how : Z) (err : error)
  | CallNow (t : Time)
  | CallSince (t : Time) (d : Duration)
  | CallSleep (d : Duration).

(** The process's view of the system.  [fdtable] and [flocks] are the
    process's own descriptors and the exclusive locks held through them.
    The rest of the system is an environment the process cannot change:
    - [vacant path c] is the earliest instant at or after which no other
      process holds an exclusive lock on [path], asked at instant [c]
      ([None]: some other process holds it for ever);
    - [fault n] is the errno with which the kernel fails the process's
      [n]-th primitive call for a reason outside the model (EINTR, ENOLCK,
      EACCES, EMFILE, ...);
    - [lag n] is the time the [n]-th call spends before it takes effect. *)
Record OS : Type := mkOS {
  clock : Time;
  files : gset string;
  fdtable : gmap Z string;
  flocks : gmap string Z;
  vacant : string → Time → option Time;
  fault : nat → option Z;
  lag : nat → N;
  calls : list Call;
}.

(** Computations over this kernel state. *)
Abbreviation M := (Sys OS).

(** The instant at which the next call takes effect. *)
Definition tick (os : OS) : Time :=
  clock os + Z.of_N (lag os (length (calls os))).

(** The call [c] returns at instant [t]. *)
Definition returns (t : Time) (c : Call) (os : OS) : OS :=
  {| clock := t; files := files os; fdtable := fdtable os;
     flocks := flocks os; vacant := vacant os; fault := fault os;
     lag := lag os; calls := calls os ++ [c] |}.

Definition set_flocks (fl : gmap string Z) (os : OS) : OS :=
  {| clock := clock os; files := files os; fdtable := fdtable os;
     flocks := fl; vacant := vacant os; fault := fault os;
     lag := lag os; calls := calls os |}.

Definition set_files (fs : gset string) (tbl : gmap Z string) (os : OS) : OS :=
  {| clock := clock os; files := fs; fdtable := tbl;
     flocks := flocks os; vacant := vacant os; fault := fault os;
     lag := lag os; calls := calls os |}.

(** [time.Now] *)
Definition time_Now : M Time := λ os,
  let t := tick os in Some (t, returns t (CallNow t) os).

(** [time.Since(t)] is [time.Now().Sub(t)]; it is logged as one call. *)
Definition time_Since (t : Time) : M Duration := λ os,
  let d := Sub (tick os) t in
  Some (d, returns (tick os) (CallSince t d) os).

(** [time.Sleep]: a non-positive duration returns at once. *)
Definition time_Sleep (d : Duration) : M unit := λ os,
  Some (tt, returns (tick os + Z.max 0 d) (CallSleep d) os).

(** open(2) hands out the lowest descriptor not in use. *)
Definition lowest_free (tbl : gmap Z string) : Z :=
  let unused (fd : Z) := bool_decide (tbl !! fd = None) in
  default (Z.of_nat (size tbl))
          (find unused (seqZ 0 (Z.of_nat (size tbl)))).

(** [syscall.Open]: only the create-if-absent flag matters to the package. *)
Definition syscall_Open `{Platform} (path : string) (flags perm : Z)
  : M (Z * error) := λ os,
  let t := tick os in
  let reply (fd : Z) (e : error) (os1 : OS) :=
    Some ((fd, e), returns t (CallOpen path flags perm fd e) os1) in
  match fault os (length (calls os)) with
  | Some e => reply (-1) (Some (Errno e)) os
  | None =>
    if bool_decide (path ∈ files os) || negb (Z.land flags O_CREAT =? 0) then
      let fd := lowest_free (fdtable os) in
      reply fd nil
            (set_files ({[path]} ∪ files os) (<[fd := path]> (fdtable os)) os)
    else reply (-1) (Some (Errno ENOENT)) os
  end.

(** [syscall.Flock]: [LOCK_EX], with or without [LOCK_NB], and [LOCK_UN];
    shared locks, which the package never requests, are left out. *)
Definition syscall_Flock `{Platform} (fd how : Z) : M error := λ os,
  let t := tick os in
  let reply (e : error) (t' : Time) (os1 : OS) :=
    Some (e, returns t' (CallFlock fd how e) os1) in
  match fault os (length (calls os)) with
  | Some e => reply (Some (Errno e)) t os
  | None =>
    match fdtable os !! fd with
    | None => reply (Some (Errno EBADF)) t os
    | Some path =>
      let nb := negb (Z.land how LOCK_NB =? 0) in
      let op := Z.ldiff how LOCK_NB in
      let grant (t' : Time) := reply nil t' (set_flocks (<[path := fd]> (flocks os)) os) in
      let refuse := reply (Some (Errno EWOULDBLOCK)) t os in
      if op =? LOCK_UN then
        reply nil t
              (if bool_decide (flocks os !! path = Some fd)
               then set_flocks (delete path (flocks os)) os else os)
      else if op =? LOCK_EX then
        match flocks os !! path with
        | Some fd' =>
          (* held through a descriptor of this process *)
          if fd' =? fd then reply nil t os
          else if nb then refuse else None
        | None =>
          match vacant os path t with
          | Some t' =>
            if t' <=? t then grant t
            else if nb then refuse else grant t'
          | None => if nb then refuse else None
          end
        end
      else reply (Some (Errno EINVAL)) t os
    end
  end.

(** *** The package *)

Section Backend.
Context `{Platform}.

(** [type Lock int] *)
Definition Lock : Type := Z.

(** [func New(filename string) (Lock, error)] *)
Definition New (filename : string) : M (Lock * error) :=
  '(fd, err) ← syscall_Open filename (Z.lor O_CREAT O_RDONLY) 384 (* 0600 *);
  if negb (error_eqb err nil) then mret (0, err)
  else mret (fd, nil).

(** [func (l Lock) Lock() error] *)
Definition Lock_Lock (l : Lock) : M error :=
  syscall_Flock l LOCK_EX.

(** [func (l Lock) Unlock() error] *)
Definition Lock_Unlock (l : Lock) : M error :=
  syscall_Flock l LOCK_UN.

(** The [for] loop of [LockWithTimeout] is embedded one turn at a time.
    A turn is entered with the local variable [t]; [inl e] is [return e],
    and [inr t'] goes on with [t'] in the local variable. *)

(** The head of a turn: [if t.IsZero() { t = time.Now() } else if
    timeout > 0 && time.Since(t) > timeout { return ErrTimeout }].  The
    [&&] does not evaluate [time.Since] when [timeout > 0] is false. *)
Definition LockWithTimeout_check (timeout : Duration) (t : Time)
  : M (error + Time) :=
  if IsZero t then
    t' ← time_Now; mret (inr t')
  else if 0 <? timeout then
    d ← time_Since t;
    if timeout <? d then mret (inl ErrTimeout) else mret (inr t)
  else mret (inr t).

(** The rest of a turn: the non-blocking request, and the sleep when it
    would block. *)
Definition LockWithTimeout_attempt (l : Lock) (t : Time) : M (error + Time) :=
  err ← syscall_Flock l (Z.lor LOCK_EX LOCK_NB);
  if error_eqb err nil then mret (inl nil)
  else if negb (error_eqb err (Some (Errno EWOULDBLOCK))) then mret (inl err)
  else
    (* Wait for a bit and try again. *)
    _ ← time_Sleep (50 * Millisecond); mret (inr t).

Definition LockWithTimeout_body (l : Lock) (timeout : Duration) (t : Time)
  : M (error + Time) :=
  c ← LockWithTimeout_check timeout t;
  match c with
  | inl e => mret (inl e)
  | inr t => LockWithTimeout_attempt l t
  end.

(** At most [fuel] turns of the loop. [inr t]: still looping. *)
Fixpoint LockWithTimeout_loop (fuel : nat) (l : Lock) (timeout : Duration)
    (t : Time) : M (error + Time) :=
  match fuel with
  | O => mret (inr t)
  | S fuel' =>
    c ← LockWithTimeout_body l timeout t;
    match c with
    | inl e => mret (inl e)
    | inr t' => LockWithTimeout_loop fuel' l timeout t'
    end
  end.

(** [func (l Lock) LockWithTimeout(timeout time.Duration) error];
    [var t time.Time] starts as the zero [Time].  The result is [None] when
    the loop has not returned within [fuel] turns. *)
Definition Lock_LockWithTimeout (fuel : nat) (l : Lock) (timeout : Duration)
  : M error := λ os,
  match LockWithTimeout_loop fuel l timeout 0 os with
  | Some (inl e, os') => Some (e, os')
  | _ => None
  end.

End Backend.

(** *** Relations between states, and shapes of the call log *)

(** The request of [LockWithTimeout], and the reply that makes it poll. *)
Abbreviation EXNB := (Z.lor LOCK_EX LOCK_NB) (only parsing).
Abbreviation WouldBlock := (Some (Errno EWOULDBLOCK)) (only parsing).

(** [os'] differs from [os] by calls that open nothing: the environment,
    the files and the descriptor table are the same, and time has not run
    backwards. *)
Definition frame (os os' : OS) : Prop :=
  vacant os' = vacant os ∧ fault os' = fault os ∧ lag os' = lag os ∧
  fdtable os' = fdtable os ∧ files os' = files os ∧ clock os ≤ clock os'.

(** Some other process holds the exclusive lock on [path] at instant [c]. *)
Definition rival_holds (os : OS) (path : string) (c : Time) : bool :=
  match vacant os path c with
  | Some c' => c <? c'
  | None => true
  end.

(** No call from the next one on is failed for an outside reason. *)
Definition faultless (os : OS) : Prop :=
  ∀ n, (length (calls os) ≤ n)%nat → fault os n = None.

Section Logs.
Context `{Platform}.

(** What one turn of the loop of [LockWithTimeout] logs before its lock
    attempt: nothing, the first reading of the clock, or an elapsed-time
    check that does not fire. *)
Inductive prelude (timeout : Duration) : list Call → Prop :=
  | prelude_none : prelude timeout []
  | prelude_now t : prelude timeout [CallNow t]
  | prelude_since t d :
      0 < timeout → d ≤ timeout → prelude timeout [CallSince t d].

(** The calls [LockWithTimeout] on [l] logs, by how far it got: [inr _] is
    still looping and [inl e] has returned [e]. *)
Inductive run_log (l : Lock) (timeout : Duration)
  : error + Time → list Call → Prop :=
  | log_looping t : run_log l timeout (inr t) []
  | log_timeout t d :
      0 < timeout → timeout < d →
      run_log l timeout (inl ErrTimeout) [CallSince t d]
  | log_granted h :
      prelude timeout h →
      run_log l timeout (inl nil)
              (h ++ [CallFlock l (Z.lor LOCK_EX LOCK_NB) nil])
  | log_failed h n :
      prelude timeout h → n ≠ EWOULDBLOCK →
      run_log l timeout (inl (Some (Errno n)))
              (h ++ [CallFlock l (Z.lor LOCK_EX LOCK_NB) (Some (Errno n))])
  | log_retry h c cs :
      prelude timeout h → run_log l timeout c cs →
      run_log l timeout c
              (h ++ CallFlock l (Z.lor LOCK_EX LOCK_NB)
                              (Some (Errno EWOULDBLOCK))
                 :: CallSleep (50 * Millisecond) :: cs).

(** Every call of a run of [LockWithTimeout] is a clock reading, a sleep
    of 50ms, or a non-blocking exclusive request on the descriptor [l]. *)
Definition on_descriptor (l : Lock) (c : Call) : Prop :=
  match c with
  | CallOpen _ _ _ _ _ => False
  | CallFlock fd how _ => fd = l ∧ how = Z.lor LOCK_EX LOCK_NB
  | CallNow _ | CallSince _ _ => True
  | CallSleep d => d = 50 * Millisecond
  end.

(** The descriptor [l] is open on [path], this process holds no lock on
    [path], and no call will be failed for an outside reason: what an
    attempt on [l] reports is up to the other processes alone. *)
Definition ready (os : OS) (l : Lock) (path : string) : Prop :=
  fdtable os !! l = Some path ∧ flocks os !! path = None ∧ faultless os.

End Logs.

(** The setting of the package's tests, one second after the zero [Time]:
    the lock file "testing" is open on descriptor 3, and other processes
    hold its lock as [v] says. *)
Definition testing (v : Time → option Time) : OS :=
  {| clock := Second; files := {[ "testing" ]};
     fdtable := {[ 0 := "/dev/stdin"; 1 := "/dev/stdout"; 2 := "/dev/stderr";
                   3 := "testing" ]};
     flocks := ∅;
     vacant := λ _, v; fault := λ _, None; lag := λ _, 0%N; calls := [] |}.

(** The test directory before any [New]: no lock file yet, and the
    standard streams alone open. *)
Definition empty_dir : OS :=
  {| clock := Second; files := ∅;
     fdtable := {[ 0 := "/dev/stdin"; 1 := "/dev/stdout"; 2 := "/dev/stderr" ]};
     flocks := ∅;
     vacant := λ _ _, Some 0; fault := λ _, None; lag := λ _, 0%N;
     calls := [] |}.

(** [os], but the kernel fails its [n]-th call with the errno [e]. *)
Definition failing (n : nat) (e : Z) (os : OS) : OS :=
  {| clock := clock os; files := files os; fdtable := fdtable os;
     flocks := flocks os; vacant := vacant os;
     fault := λ k, if (k =? n)%nat then Some e else fault os k;
     lag := lag os; calls := calls os |}.

(** The number of lock requests in the log. *)
Definition attempts (os : OS) : nat :=
  length (List.filter (λ c, match c with
                            | CallFlock _ _ _ => true
                            | _ => false
                            end) (calls os)).

(** *** More shapes, and the package's tests *)

(** The setting of [TestLockWithTimeoutLocked] after its [Lock]: the lock
    file is open on descriptors 3 and 4, and locked through 3. *)
Definition opened_twice : OS :=
  {| clock := Second; files := {[ "testing" ]};
     fdtable := {[ 0 := "/dev/stdin"; 1 := "/dev/stdout"; 2 := "/dev/stderr";
                   3 := "testing"; 4 := "testing" ]};
     flocks := {[ "testing" := 3 ]};
     vacant := λ _ _, Some 0; fault := λ _, None; lag := λ _, 0%N;
     calls := [] |}.

(** The number of sleeps in the log. *)
Definition sleeps (os : OS) : nat :=
  length (List.filter (λ c, match c with
                            | CallSleep _ => true
                            | _ => false
                            end) (calls os)).

Section Tests.
Context `{Platform}.

(** Every non-blocking request on [l] is refused: the lock on the file of
    [l] is held through another descriptor of this process, or by some
    other process from now on; and no call fails for an outside reason. *)
Definition refused (os : OS) (l : Lock) : Prop :=
  faultless os ∧
  ∃ path, fdtable os !! l = Some path ∧
    ((∃ l1, flocks os !! path = Some l1 ∧ l1 ≠ l) ∨
     (flocks os !! path = None ∧
      ∀ c, clock os ≤ c → rival_holds os path c = true)).

(** [fslock_test.go], with this backend.
    [func (s *fslockSuite) TestLockWithTimeoutUnlocked(c *gc.C)], in the
    directory [dir] that [c.MkDir()] returned. *)
Definition TestLockWithTimeoutUnlocked (fuel : nat) (dir : string)
  : M Verdict :=
  '(lock, err) ← New (filepath_Join dir "testing");
  if negb (error_eqb err nil) then mret (Failed 87)
  else
    err ← Lock_LockWithTimeout fuel lock shortWait;
    if negb (error_eqb err nil) then mret (Failed 90)
    else mret Passed.

(** [func (s *fslockSuite) TestLockWithTimeoutLocked(c *gc.C)] *)
Definition TestLockWithTimeoutLocked (fuel : nat) (dir : string)
  : M Verdict :=
  '(lock1, err) ← New (filepath_Join dir "testing");
  if negb (error_eqb err nil) then mret (Failed 96)
  else
    '(lock2, err) ← New (filepath_Join dir "testing");
    if negb (error_eqb err nil) then mret (Failed 98)
    else
      err ← Lock_Lock lock1;
      if negb (error_eqb err nil) then mret (Failed 101)
      else
        err ← Lock_LockWithTimeout fuel lock2 shortWait;
        if negb (error_eqb err ErrTimeout) then mret (Failed 104)
        else mret Passed.

End Tests.

End Unix.

(** ** The LockFileEx backend ([fslock_windows.go]) *)

Module Windows.

(** Constants of package [syscall] that depend on the target: the all-ones
    handle, as wide as a pointer, and Go's invented errno for EINVAL. *)
Class Platform : Type := {
  InvalidHandle : Z;
  EINVAL : Z;
}.

Definition amd64 : Platform :=
  {| InvalidHandle := 2 ^ 64 - 1; EINVAL := 536870951 |}.
Definition i386 : Platform :=
  {| InvalidHandle := 2 ^ 32 - 1; EINVAL := 536870951 |}.

(** Win32 constants re-exported by package [syscall]. *)
Definition GENERIC_READ : Z := 2147483648.
Definition GENERIC_WRITE : Z := 1073741824.
Definition FILE_SHARE_READ : Z := 1.
Definition FILE_SHARE_WRITE : Z := 2.
Definition CREATE_NEW : Z := 1.
Definition CREATE_ALWAYS : Z := 2.
Definition OPEN_EXISTING : Z := 3.
Definition OPEN_ALWAYS : Z := 4.
Definition TRUNCATE_EXISTING : Z := 5.
Definition FILE_FLAG_OVERLAPPED : Z := 1073741824.
Definition INFINITE : Z := 4294967295.
Definition WAIT_OBJECT_0 : Z := 0.
Definition WAIT_TIMEOUT : Z := 258.
Definition WAIT_FAILED : Z := 4294967295.
Definition ERROR_FILE_NOT_FOUND : Z := 2.
Definition ERROR_INVALID_HANDLE : Z := 6.
Definition ERROR_FILE_EXISTS : Z := 80.
Definition ERROR_INVALID_PARAMETER : Z := 87.
Definition ERROR_PROC_NOT_FOUND : Z := 127.
Definition ERROR_IO_PENDING : Z := 997.

(** [syscall.Overlapped] *)
Record Overlapped : Type := mkOverlapped {
  Internal : Z;
  InternalHigh : Z;
  Offset : Z;
  OffsetHigh : Z;
  HEvent : Z;
}.

(** [syscall.SecurityAttributes] *)
Record SecurityAttributes : Type := mkSecurityAttributes {
  Length : Z;
  SecurityDescriptor : Z;
  InheritHandle : Z;
}.

(** What the pointers the package converts to [uintptr] point to. *)
Inductive Pointee : Type :=
  | ToOverlapped (ol : Overlapped)
  | ToSecurityAttributes (sa : SecurityAttributes)
  | ToUint16 (name : string).

(** A [uintptr] argument of [syscall.Syscall6]: a plain word, or the
    address of something. *)
Inductive Arg : Type :=
  | Word (z : Z)
  | Ptr (p : Pointee).

(** [uintptr(unsafe.Pointer(p))]: the nil pointer is the word 0. *)
Definition uintptr {T} (to : T → Pointee) (p : option T) : Arg :=
  match p with
  | Some x => Ptr (to x)
  | None => Word 0
  end.

(** [syscall.NewLazyDLL] and the [NewProc] method of its result *)
Record LazyProc : Type := mkLazyProc { dll : string; Name : string }.

Definition NewLazyDLL (name : string) : string := name.
Definition NewProc (d : string) (name : string) : LazyProc :=
  {| dll := d; Name := name |}.

(** The [Addr] method: the address stands for the procedure itself. *)
Definition Addr (p : LazyProc) : LazyProc := p.

Definition modkernel32 : string := NewLazyDLL "kernel32.dll".
Definition procLockFileEx : LazyProc := NewProc modkernel32 "LockFileEx".
Definition procUnlockFileEx : LazyProc := NewProc modkernel32 "UnlockFileEx".
Definition procCreateEventW : LazyProc := NewProc modkernel32 "CreateEventW".

Definition lockfileExclusiveLock : Z := 2.

(** *** The kernel, as seen by one process *)

Inductive Object : Type :=
  | FileObject (path : string)
  | EventObject.

(** One entry per primitive invoked, with the reply it got. *)
Inductive Call : Type :=
  | CallCreateFile (name : string) (access mode createmode attrs : Z)
                   (h : Z) (err : error)
  | CallSyscall6 (proc : LazyProc) (nargs : Z) (args : list Arg) (r1 e1 : Z)
  | CallWaitForSingleObject (h ms : Z) (r0 e1 : Z)
  | CallCloseHandle (h : Z) (err : error).

(** The process's view of the system: the files that exist and the
    process's handle table.  What the kernel answers to a lock, unlock or
    wait request depends on the other processes and on timing; it is left to
    the environment:
    - [reply n] is the raw result [(r1, e1)] of the process's [n]-th
      primitive call when that call is a lock, unlock or wait request
      ([None]: the call never returns);
    - [fault n] is the error code with which the kernel fails the [n]-th
      call when that call creates a file or an event, for a reason outside
      the model (sharing violation, access denied, quota, ...). *)
Record OS : Type := mkOS {
  files : gset string;
  handles : gmap Z Object;
  reply : nat → option (Z * Z);
  fault : nat → option Z;
  calls : list Call;
}.

(** Computations over this kernel state. *)
Abbreviation M := (Sys OS).

Definition returns (c : Call) (os : OS) : OS :=
  {| files := files os; handles := handles os; reply := reply os;
     fault := fault os; calls := calls os ++ [c] |}.

Definition set_objects (fs : gset string) (hs : gmap Z Object) (os : OS) : OS :=
  {| files := fs; handles := hs; reply := reply os;
     fault := fault os; calls := calls os |}.

(** A handle value not in use: above every handle in the table, and so
    never NULL. *)
Definition fresh_handle (hs : gmap Z Object) : Z :=
  1 + foldr Z.max 0 (elements (dom hs)).

(** [syscall.UTF16PtrFromString]: a string with a NUL byte has no UTF-16
    pointer; the pointer is modelled by the string it points to. *)
Definition syscall_UTF16PtrFromString `{Platform} (s : string)
  : option string * error :=
  if existsb (Ascii.eqb Ascii.zero) (String.list_ascii_of_string s)
  then (None, Some (Errno EINVAL))
  else (Some s, nil).

(** [syscall.CreateFile]: the creation disposition decides between opening
    and creating; on failure the handle is [InvalidHandle]. *)
Definition syscall_CreateFile `{Platform} (name : option string)
    (access mode : Z) (sa : option SecurityAttributes)
    (createmode attrs templatefile : Z) : M (Z * error) := λ os,
  let path := default "" name in
  let answer (h : Z) (e : error) (os1 : OS) :=
    Some ((h, e), returns (CallCreateFile path access mode createmode attrs h e) os1) in
  let fail (e : Z) := answer InvalidHandle (Some (Errno e)) os in
  let open :=
    let h := fresh_handle (handles os) in
    answer h nil (set_objects ({[path]} ∪ files os)
                              (<[h := FileObject path]> (handles os)) os) in
  let present := bool_decide (path ∈ files os) in
  match fault os (length (calls os)) with
  | Some e => fail e
  | None =>
    if createmode =? CREATE_NEW then
      if present then fail ERROR_FILE_EXISTS else open
    else if (createmode =? CREATE_ALWAYS) || (createmode =? OPEN_ALWAYS) then
      open
    else if (createmode =? OPEN_EXISTING) || (createmode =? TRUNCATE_EXISTING) then
      if present then open else fail ERROR_FILE_NOT_FOUND
    else fail ERROR_INVALID_PARAMETER
  end.

(** [syscall.CloseHandle]; NULL is never a valid handle. *)
Definition syscall_CloseHandle (h : Z) : M error := λ os,
  match (if h =? 0 then None else handles os !! h) with
  | Some _ =>
    Some (nil, returns (CallCloseHandle h nil)
                       (set_objects (files os) (delete h (handles os)) os))
  | None =>
    let e := Some (Errno ERROR_INVALID_HANDLE) in
    Some (e, returns (CallCloseHandle h e) os)
  end.

(** [syscall.Syscall6] on the three procedures the package resolves.  The
    result is [(r1, e1)]; the package discards [r2].  CreateEventW answers
    NULL when it fails. *)
Definition syscall_Syscall6 (trap : LazyProc) (nargs : Z) (args : list Arg)
  : M (Z * Z) := λ os,
  let answer (r : Z * Z) (os1 : OS) :=
    Some (r, returns (CallSyscall6 trap nargs args r.1 r.2) os1) in
  if String.eqb (Name trap) "CreateEventW" then
    match fault os (length (calls os)) with
    | Some e => answer (0, e) os
    | None =>
      let h := fresh_handle (handles os) in
      answer (h, 0) (set_objects (files os) (<[h := EventObject]> (handles os)) os)
    end
  else if String.eqb (Name trap) "LockFileEx"
          || String.eqb (Name trap) "UnlockFileEx" then
    match reply os (length (calls os)) with
    | Some r => answer r os
    | None => None
    end
  else answer (0, ERROR_PROC_NOT_FOUND) os.

(** [syscall.WaitForSingleObject]: the wrapper reports an error only when
    the wait itself failed, that is when the result is [WAIT_FAILED]. *)
Definition syscall_WaitForSingleObject `{Platform} (handle : Z)
    (waitMilliseconds : Z) : M (Z * error) := λ os,
  match reply os (length (calls os)) with
  | Some (r0, e1) =>
    let event := r0 `mod` 2 ^ 32 in
    let err := if event =? WAIT_FAILED
               then (if negb (e1 =? 0) then Some (Errno e1)
                     else Some (Errno EINVAL))
               else nil in
    Some ((event, err),
          returns (CallWaitForSingleObject handle waitMilliseconds r0 e1) os)
  | None => None
  end.

(** *** The package *)

Section Backend.
Context `{Platform}.

(** [type Lock syscall.Handle] *)
Definition Lock : Type := Z.

(** [func New(filename string) (Lock, error)] *)
Definition New (filename : string) : M (Lock * error) :=
  let '(name, err) := syscall_UTF16PtrFromString filename in
  if negb (error_eqb err nil) then mret (0, err)
  else
    (* Open for asynchronous I/O so that we can timeout waiting for the
       lock.  Also open shared so that other processes can open the file
       (but will still need to lock it). *)
    '(handle, err) ← syscall_CreateFile name
        (Z.lor GENERIC_READ GENERIC_WRITE)
        (Z.lor FILE_SHARE_READ FILE_SHARE_WRITE)
        None CREATE_NEW FILE_FLAG_OVERLAPPED 0;
    if negb (error_eqb err nil) then mret (0, err)
    else mret (handle, nil).

(** [func createEvent(sa, manualReset, initialState, name)] *)
Definition createEvent (sa : option SecurityAttributes) (manualReset : bool)
    (initialState : bool) (name : option string) : M (Z * error) :=
  let _p0 := if manualReset then 1 else 0 in
  let _p1 := if initialState then 1 else 0 in
  '(r0, e1) ← syscall_Syscall6 (Addr procCreateEventW) 4
      [uintptr ToSecurityAttributes sa; Word _p0; Word _p1;
       uintptr ToUint16 name; Word 0; Word 0];
  let handle := r0 in
  if handle =? InvalidHandle then
    if negb (e1 =? 0) then mret (handle, Some (Errno e1))
    else mret (handle, Some (Errno EINVAL))
  else mret (handle, nil).

(** [func newOverlapped()], returning a pointer to a [syscall.Overlapped]
    and an [error] *)
Definition newOverlapped : M (option Overlapped * error) :=
  '(event, err) ← createEvent None true true None;
  if negb (error_eqb err nil) then mret (None, err)
  else mret (Some (mkOverlapped 0 0 0 0 event), nil).

(** [func lockFileEx(h, flags, reserved, locklow, lockhigh, ol)] *)
Definition lockFileEx (h : Z) (flags reserved locklow lockhigh : Z)
    (ol : option Overlapped) : M error :=
  '(r1, e1) ← syscall_Syscall6 (Addr procLockFileEx) 6
      [Word h; Word flags; Word reserved; Word locklow; Word lockhigh;
       uintptr ToOverlapped ol];
  if r1 =? 0 then
    if negb (e1 =? 0) then mret (Some (Errno e1))
    else mret (Some (Errno EINVAL))
  else mret nil.

(** [func unlockFileEx(h, reserved, locklow, lockhigh, ol)] *)
Definition unlockFileEx (h : Z) (reserved locklow lockhigh : Z)
    (ol : option Overlapped) : M error :=
  '(r1, e1) ← syscall_Syscall6 (Addr procUnlockFileEx) 5
      [Word h; Word reserved; Word locklow; Word lockhigh;
       uintptr ToOverlapped ol; Word 0];
  if r1 =? 0 then
    if negb (e1 =? 0) then mret (Some (Errno e1))
    else mret (Some (Errno EINVAL))
  else mret nil.

(** [func (l Lock) Lock() error].  The deferred [CloseHandle] runs once the
    statements after the [defer] have produced the result. *)
Definition Lock_Lock (l : Lock) : M error :=
  '(ol, err) ← newOverlapped;
  if negb (error_eqb err nil) then mret err
  else
    match ol with
    | None => λ _, None (* nil dereference; not reached, [err] was nil *)
    | Some ol =>
      result ← (
        (* this is asynchronous because we opened the file for async I/O. *)
        err ← lockFileEx l lockfileExclusiveLock 0 1 0 (Some ol);
        if negb (error_eqb err nil) then mret err
        else
          '(_, err) ← syscall_WaitForSingleObject (HEvent ol) INFINITE;
          mret err) : M error;
      _ ← syscall_CloseHandle (HEvent ol);
      mret result
    end.

(** [func (l Lock) Unlock() error] *)
Definition Lock_Unlock (l : Lock) : M error :=
  unlockFileEx l 0 1 0 None.

(** [timeout.Nanoseconds()] is [int64(timeout)]. *)
Definition Nanoseconds (d : Duration) : Z := d.

(** The conversion [uint32(x)] of an [int64] keeps the low 32 bits. *)
Definition uint32 (z : Z) : Z := z `mod` 2 ^ 32.

(** [func (l Lock) LockWithTimeout(timeout time.Duration) error];
    [/] on [int64] truncates toward zero. *)
Definition Lock_LockWithTimeout (l : Lock) (timeout : Duration) : M error :=
  '(ol, err) ← newOverlapped;
  if negb (error_eqb err nil) then mret err
  else
    match ol with
    | None => λ _, None (* nil dereference; not reached, [err] was nil *)
    | Some ol =>
      result ← (
        (* this is asynchronous because we opened the file for async I/O. *)
        err ← lockFileEx l lockfileExclusiveLock 0 1 0 (Some ol);
        if negb (error_eqb err nil) then mret err
        else
          '(_, err) ← syscall_WaitForSingleObject (HEvent ol)
                        (uint32 (Nanoseconds timeout `quot` 1000));
          mret err) : M error;
      _ ← syscall_CloseHandle (HEvent ol);
      mret result
    end.

End Backend.

(** *** Shapes of the call log *)

(** The arguments of the one event the package creates. *)
Abbreviation event_args :=
  [Word 0; Word 1; Word 1; Word 0; Word 0; Word 0] (only parsing).

Section Logs.
Context `{Platform}.

(** [Lock] and [LockWithTimeout] are the same statements and differ in the
    wait argument alone. *)
Definition locked_wait (l : Lock) (waitMilliseconds : Z) : M error :=
  '(ol, err) ← newOverlapped;
  if negb (error_eqb err nil) then mret err
  else
    match ol with
    | None => λ _, None
    | Some ol =>
      result ← (
        err ← lockFileEx l lockfileExclusiveLock 0 1 0 (Some ol);
        if negb (error_eqb err nil) then mret err
        else
          '(_, err) ← syscall_WaitForSingleObject (HEvent ol) waitMilliseconds;
          mret err) : M error;
      _ ← syscall_CloseHandle (HEvent ol);
      mret result
    end.

(** A call that neither opens a file nor closes the handle [l], and that
    locks or unlocks through [l] if it locks or unlocks at all. *)
Definition on_handle (l : Lock) (c : Call) : Prop :=
  match c with
  | CallCreateFile _ _ _ _ _ _ _ => False
  | CallSyscall6 proc _ args _ _ =>
      proc = procCreateEventW ∨
      (proc = procLockFileEx ∨ proc = procUnlockFileEx) ∧
      head args = Some (Word l)
  | CallWaitForSingleObject h _ _ _ => h ≠ l
  | CallCloseHandle h _ => h ≠ l
  end.

(** [l] is an open handle on the file [path]; NULL is no handle. *)
Definition valid (os : OS) (l : Lock) (path : string) : Prop :=
  l ≠ 0 ∧ handles os !! l = Some (FileObject path).

(** The [error] the wrappers of this file, and that of
    [syscall.WaitForSingleObject], make of a raw result: [failed] tells
    whether the result stands for failure. *)
Definition raw_error (failed : bool) (e1 : Z) : error :=
  if failed then
    if negb (e1 =? 0) then Some (Errno e1) else Some (Errno EINVAL)
  else nil.

(** The calls of [Lock] and [LockWithTimeout] on [l] when the event [h] is
    created, the lock request answers [(r1, e1)] with [r1] not zero, and
    the wait for [ms] answers [(r0, e0)]. *)
Definition waited_log (l : Lock) (h ms r1 e1 r0 e0 : Z) : list Call :=
  [ CallSyscall6 procCreateEventW 4 event_args h 0;
    CallSyscall6 procLockFileEx 6
      [Word l; Word lockfileExclusiveLock; Word 0; Word 1; Word 0;
       Ptr (ToOverlapped (mkOverlapped 0 0 0 0 h))] r1 e1;
    CallWaitForSingleObject h ms r0 e0;
    CallCloseHandle h nil ].

End Logs.

(** The setting of the package's tests: the lock file "testing" is open
    on handle 4, and the environment answers the process's [n]-th call
    with the [n]-th of [answers] (an answer at the place of a call that
    creates or closes something is not looked at). *)
Definition testing (answers : list (Z * Z)) : OS :=
  {| files := {[ "testing" ]}; handles := {[ 4 := FileObject "testing" ]};
     reply := λ n, answers !! n;
     fault := λ _, None; calls := [] |}.

(** The test directory before any [New]: no lock file yet, no handle. *)
Definition empty_dir : OS :=
  {| files := ∅; handles := ∅; reply := λ _, None;
     fault := λ _, None; calls := [] |}.

(** [os], but the kernel fails its [n]-th call with the error number
    [e]. *)
Definition failing (n : nat) (e : Z) (os : OS) : OS :=
  {| files := files os; handles := handles os; reply := reply os;
     fault := λ k, if (k =? n)%nat then Some e else fault os k;
     calls := calls os |}.

(** [os], but the lock requests and the waits are answered as [answers]
    says, by the position of the call. *)
Definition answering (answers : list (Z * Z)) (os : OS) : OS :=
  {| files := files os; handles := handles os;
     reply := λ n, answers !! n;
     fault := fault os; calls := calls os |}.

(** *** The package's tests, with this backend *)

Section Tests.
Context `{Platform}.

(** [func (s *fslockSuite) TestLockWithTimeoutUnlocked(c *gc.C)], in the
    directory [dir] that [c.MkDir()] returned. *)
Definition TestLockWithTimeoutUnlocked (dir : string) : M Verdict :=
  '(lock, err) ← New (filepath_Join dir "testing");
  if negb (error_eqb err nil) then mret (Failed 87)
  else
    err ← Lock_LockWithTimeout lock shortWait;
    if negb (error_eqb err nil) then mret (Failed 90)
    else mret Passed.

(** [func (s *fslockSuite) TestLockWithTimeoutLocked(c *gc.C)] *)
Definition TestLockWithTimeoutLocked (dir : string) : M Verdict :=
  '(lock1, err) ← New (filepath_Join dir "testing");
  if negb (error_eqb err nil) then mret (Failed 96)
  else
    '(lock2, err) ← New (filepath_Join dir "testing");
    if negb (error_eqb err nil) then mret (Failed 98)
    else
      err ← Lock_Lock lock1;
      if negb (error_eqb err nil) then mret (Failed 101)
      else
        err ← Lock_LockWithTimeout lock2 shortWait;
        if negb (error_eqb err ErrTimeout) then mret (Failed 104)
        else mret Passed.

(** The calls of [Lock] and [LockWithTimeout] on [l] when the event [h] is
    created and the lock request answers failure, [(0, e1)]. *)
Definition refused_log (l : Lock) (h e1 : Z) : list Call :=
  [ CallSyscall6 procCreateEventW 4 event_args h 0;
    CallSyscall6 procLockFileEx 6
      [Word l; Word lockfileExclusiveLock; Word 0; Word 1; Word 0;
       Ptr (ToOverlapped (mkOverlapped 0 0 0 0 h))] 0 e1;
    CallCloseHandle h nil ].

(** The calls of [Lock] and [LockWithTimeout] on [l] when the kernel fails
    the creation of the event with [e], and then accepts the lock
    request. *)
Definition eventless_log (l : Lock) (e ms r1 e1 r0 e0 : Z) : list Call :=
  [ CallSyscall6 procCreateEventW 4 event_args 0 e;
    CallSyscall6 procLockFileEx 6
      [Word l; Word lockfileExclusiveLock; Word 0; Word 1; Word 0;
       Ptr (ToOverlapped (mkOverlapped 0 0 0 0 0))] r1 e1;
    CallWaitForSingleObject 0 ms r0 e0;
    CallCloseHandle 0 (Some (Errno ERROR_INVALID_HANDLE)) ].

End Tests.

End Windows.



(** ** Facts about calls *)

Lemma bind_Some {S A B} (m : Sys S A) (f : A → Sys S B) os b os' :
  (m ≫= f) os = Some (b, os') ↔
  ∃ a os1, m os = Some (a, os1) ∧ f a os1 = Some (b, os').
Proof.
  unfold mbind, Sys_bind. split.
  - destruct (m os) as [[a os1]|]; [eauto | discriminate].
  - intros (a & os1 & -> & Hf). exact Hf.
Qed.

Lemma ret_Some {S A} (a b : A) (os os' : S) :
  (mret a : Sys S A) os = Some (b, os') ↔ a = b ∧ os = os'.
Proof.
  unfold mret, Sys_ret. split; [intros [= -> ->] | intros [-> ->]]; done.
Qed.

(** ** Facts about the flock backend *)

Module UnixFacts.
Import Unix.

Section Facts.
Context `{Platform}.

Implicit Types (os : OS) (l fd : Z) (timeout : Duration) (t : Time).

Lemma frame_refl os : frame os os.
Proof. unfold frame. repeat split; lia. Qed.

Lemma frame_trans os1 os2 os3 : frame os1 os2 → frame os2 os3 → frame os1 os3.
Proof.
  unfold frame.
  intros (-> & -> & -> & -> & -> & ?) (-> & -> & -> & -> & -> & ?).
  repeat split; lia.
Qed.

Lemma tick_ge os : clock os ≤ tick os.
Proof. unfold tick. lia. Qed.

Lemma frame_returns t' c os : clock os ≤ t' → frame os (returns t' c os).
Proof. unfold frame. simpl. intros. repeat split; lia. Qed.

Lemma frame_set_flocks fl os : frame os (set_flocks fl os).
Proof. unfold frame. simpl. repeat split; lia. Qed.

(** Every reply of flock(2) is [nil] or an errno, the call is logged, and
    nothing but the lock table and the clock changes. *)
Lemma flock_inv fd how os e os' :
  syscall_Flock fd how os = Some (e, os') →
  ∃ t' fl, tick os ≤ t' ∧
    os' = returns t' (CallFlock fd how e) (set_flocks fl os) ∧
    (e = nil ∨ ∃ n, e = Some (Errno n)).
Proof.
  unfold syscall_Flock. intros Hf.
  assert (Hid : set_flocks (flocks os) os = os) by (by destruct os).
  repeat (match type of Hf with
          | context [match ?x with _ => _ end] => destruct x eqn:?
          end; simpl in Hf); try discriminate;
  injection Hf as <- <-;
  first [ by (eexists _, _; split; [|split; [reflexivity | eauto]]; lia)
        | by (eexists _, (flocks os); rewrite Hid;
              split; [|split; [reflexivity | eauto]]; lia) ].
Qed.

(** A reply other than [nil] leaves the lock table alone and takes no
    longer than the call's own lag. *)
Lemma flock_error fd how os e os' :
  syscall_Flock fd how os = Some (e, os') → e ≠ nil →
  os' = returns (tick os) (CallFlock fd how e) os.
Proof.
  unfold syscall_Flock. intros Hf Hne.
  repeat (match type of Hf with
          | context [match ?x with _ => _ end] => destruct x eqn:?
          end; simpl in Hf); try discriminate;
  injection Hf as <- <-; done.
Qed.

(** A non-blocking request always returns. *)
Lemma flock_nb_returns fd os :
  ∃ e os', syscall_Flock fd (Z.lor LOCK_EX LOCK_NB) os = Some (e, os').
Proof.
  unfold syscall_Flock. simpl.
  repeat (match goal with
          | |- context [match ?x with _ => _ end] => destruct x eqn:?
          end; simpl); eauto.
Qed.

Lemma flock_frame fd how os e os' :
  syscall_Flock fd how os = Some (e, os') → frame os os'.
Proof.
  intros (t' & fl & Ht & -> & _)%flock_inv.
  eapply frame_trans; [apply (frame_set_flocks fl)|].
  apply frame_returns. simpl. pose proof (tick_ge os). unfold tick in *. simpl. lia.
Qed.

Lemma flock_calls fd how os e os' :
  syscall_Flock fd how os = Some (e, os') →
  calls os' = calls os ++ [CallFlock fd how e].
Proof. by intros (t' & fl & Ht & -> & _)%flock_inv. Qed.

#[local] Arguments syscall_Flock : simpl never.


(** One turn of the loop, by the way it ends. *)
Lemma body_spec l timeout t os c os' :
  LockWithTimeout_body l timeout t os = Some (c, os') →
  frame os os' ∧
  ( (∃ d, c = inl ErrTimeout ∧ t ≠ 0 ∧ 0 < timeout ∧ timeout < d ∧
          d = Sub (tick os) t ∧ os' = returns (tick os) (CallSince t d) os)
  ∨ (∃ h e, c = inl e ∧ prelude timeout h ∧
          calls os' = calls os ++ h ++ [CallFlock l EXNB e] ∧
          e ≠ WouldBlock ∧ (e = nil ∨ ∃ n, e = Some (Errno n)))
  ∨ (∃ h t', c = inr t' ∧ prelude timeout h ∧
          calls os' = calls os ++ h ++
                      [CallFlock l EXNB WouldBlock; CallSleep (50 * Millisecond)] ∧
          (t ≠ 0 ∧ t' = t ∨ t = 0 ∧ clock os ≤ t') ∧
          clock os + 50 * Millisecond ≤ clock os') ).
Proof.
  unfold LockWithTimeout_body. intros Hb.
  apply bind_Some in Hb as (c1 & os1 & Hhead & Hrest).
  (* the head of the loop *)
  assert (Hh : frame os os1 ∧
    ( (∃ d, c1 = inl ErrTimeout ∧ t ≠ 0 ∧ 0 < timeout ∧ timeout < d ∧
            d = Sub (tick os) t ∧ os1 = returns (tick os) (CallSince t d) os)
    ∨ (∃ h t', c1 = inr t' ∧ prelude timeout h ∧ calls os1 = calls os ++ h ∧
            (t ≠ 0 ∧ t' = t ∨ t = 0 ∧ clock os ≤ t')) )).
  { unfold LockWithTimeout_check, IsZero in Hhead. destruct (Z.eqb_spec t 0) as [->|Hnz].
    - apply bind_Some in Hhead as (t' & os2 & [= <- <-] & [<- <-]%ret_Some).
      split; [apply frame_returns, tick_ge|].
      right. exists [CallNow (tick os)], (tick os).
      split_and!; [done | constructor | done |]. right. split; [done|apply tick_ge].
    - destruct (Z.ltb_spec 0 timeout) as [Hpos|Hnp].
      + apply bind_Some in Hhead as (d & os2 & [= <- <-] & Hcmp).
        destruct (Z.ltb_spec timeout (Sub (tick os) t)) as [Hlt|Hge];
          apply ret_Some in Hcmp as [<- <-];
          (split; [apply frame_returns, tick_ge|]).
        * left. eexists. split_and!; done.
        * right. exists [CallSince t (Sub (tick os) t)], t.
          split_and!; [done | by constructor | done | by left].
      + apply ret_Some in Hhead as [<- <-]. split; [apply frame_refl|].
        right. exists [], t. split_and!; [done | constructor | by rewrite app_nil_r | by left]. }
  destruct Hh as [Hfr [(d & -> & ?)|(h & t' & -> & Hpre & Hcalls & Ht')]].
  { apply ret_Some in Hrest as [<- <-]. split; [done|]. left. eauto. }
  (* the attempt *)
  unfold LockWithTimeout_attempt in Hrest.
  apply bind_Some in Hrest as (e & os2 & Hflock & Hrest).
  pose proof (flock_frame _ _ _ _ _ Hflock) as Hfr2.
  pose proof (flock_calls _ _ _ _ _ Hflock) as Hc2.
  pose proof (flock_inv _ _ _ _ _ Hflock) as (? & ? & _ & _ & Hshape).
  unfold error_eqb in Hrest.
  destruct (decide (e = nil)) as [->|Hnn].
  { rewrite bool_decide_eq_true_2 in Hrest by done.
    apply ret_Some in Hrest as [<- <-].
    split; [by eapply frame_trans|]. right; left. exists h, nil.
    split_and!; [done | done | by rewrite Hc2, Hcalls, <- app_assoc | done | by left]. }
  rewrite bool_decide_eq_false_2 in Hrest by done.
  destruct (decide (e = WouldBlock)) as [->|Hnw].
  - rewrite bool_decide_eq_true_2 in Hrest by done. simpl in Hrest.
    apply bind_Some in Hrest as ([] & os3 & [= <-] & [<- <-]%ret_Some).
    assert (clock os2 ≤ tick os2) by apply tick_ge.
    split.
    + eapply frame_trans; [done|]. eapply frame_trans; [done|].
      apply frame_returns. lia.
    + right; right. exists h, t'. split_and!; [done | done | | done |].
      * simpl. rewrite Hc2, Hcalls, <- !app_assoc. done.
      * simpl. destruct Hfr as (_ & _ & _ & _ & _ & ?).
        destruct Hfr2 as (_ & _ & _ & _ & _ & ?). unfold Millisecond. lia.
  - rewrite bool_decide_eq_false_2 in Hrest by done. simpl in Hrest.
    apply ret_Some in Hrest as [<- <-].
    split; [by eapply frame_trans|]. right; left. exists h, e.
    split_and!; [done | done | by rewrite Hc2, Hcalls, <- app_assoc | done | done].
Qed.

Lemma attempt_returns l t os :
  ∃ c os', LockWithTimeout_attempt l t os = Some (c, os').
Proof.
  unfold LockWithTimeout_attempt, mbind, Sys_bind, mret, Sys_ret.
  destruct (flock_nb_returns l os) as (e & os2 & ->).
  destruct (error_eqb e nil); [eauto|].
  destruct (negb (error_eqb e WouldBlock)); [eauto|].
  unfold time_Sleep. eauto.
Qed.

Lemma body_returns l timeout t os :
  ∃ c os', LockWithTimeout_body l timeout t os = Some (c, os').
Proof.
  unfold LockWithTimeout_body, LockWithTimeout_check, mbind, Sys_bind, mret, Sys_ret.
  destruct (IsZero t); [apply attempt_returns|].
  destruct (0 <? timeout); [|apply attempt_returns].
  unfold time_Since.
  destruct (timeout <? Sub (tick os) t); [eauto | apply attempt_returns].
Qed.

(** The loop is total: after any number of turns it has either returned or
    is still looping. *)
Lemma loop_returns k l timeout t os :
  ∃ c os', LockWithTimeout_loop k l timeout t os = Some (c, os').
Proof.
  revert t os. induction k as [|k IH]; intros t os; simpl.
  - unfold mret, Sys_ret. eauto.
  - destruct (body_returns l timeout t os) as ([e|t'] & os1 & Hb);
      unfold mbind, Sys_bind; rewrite Hb; [unfold mret, Sys_ret; eauto | apply IH].
Qed.

(** More fuel does not change a result. *)
Lemma loop_more_fuel k j l timeout t os e os' :
  LockWithTimeout_loop k l timeout t os = Some (inl e, os') →
  LockWithTimeout_loop (k + j) l timeout t os = Some (inl e, os').
Proof.
  revert t os. induction k as [|k IH]; intros t os; simpl.
  - intros [? _]%ret_Some. discriminate.
  - intros (c & os1 & Hb & Hrest)%bind_Some.
    apply bind_Some. exists c, os1. split; [done|].
    destruct c as [e1|t1]; [done | by apply IH].
Qed.

Lemma LockWithTimeout_more_fuel k j l timeout os e os' :
  Lock_LockWithTimeout k l timeout os = Some (e, os') →
  Lock_LockWithTimeout (k + j) l timeout os = Some (e, os').
Proof.
  unfold Lock_LockWithTimeout. intros Hk.
  destruct (LockWithTimeout_loop k l timeout 0 os) as [[[e1|t1] os1]|] eqn:Hl;
    try discriminate.
  injection Hk as -> ->.
  by rewrite (loop_more_fuel _ j _ _ _ _ _ _ Hl).
Qed.

Lemma LockWithTimeout_loop_inl k l timeout os e os' :
  Lock_LockWithTimeout k l timeout os = Some (e, os') ↔
  LockWithTimeout_loop k l timeout 0 os = Some (inl e, os').
Proof.
  unfold Lock_LockWithTimeout.
  destruct (LockWithTimeout_loop k l timeout 0 os) as [[[e1|t1] os1]|];
    split; intros; simplify_eq; done.
Qed.

(** The calls a run logs, whatever the environment does. *)
Lemma loop_log k l timeout t os c os' :
  LockWithTimeout_loop k l timeout t os = Some (c, os') →
  frame os os' ∧ ∃ cs, calls os' = calls os ++ cs ∧ run_log l timeout c cs.
Proof.
  revert t os. induction k as [|k IH]; intros t os; simpl.
  - intros [<- <-]%ret_Some. split; [apply frame_refl|].
    exists []. split; [by rewrite app_nil_r | constructor].
  - intros (c1 & os1 & Hb & Hrest)%bind_Some.
    apply body_spec in Hb as
      [Hfr [(d & -> & _ & ? & ? & _ & ->)
           |[(h & e & -> & Hpre & Hcalls & Hnw & [->|[n ->]])
            |(h & t' & -> & Hpre & Hcalls & _)]]].
    + apply ret_Some in Hrest as [<- <-]. split; [done|].
      eexists. split; [reflexivity | by constructor].
    + apply ret_Some in Hrest as [<- <-]. split; [done|].
      eexists. split; [done | by constructor].
    + apply ret_Some in Hrest as [<- <-]. split; [done|].
      eexists. split; [done | constructor; [done | congruence]].
    + apply IH in Hrest as [Hfr2 (cs & Hcs & Hlog)].
      split; [by eapply frame_trans|].
      exists (h ++ CallFlock l EXNB WouldBlock
                :: CallSleep (50 * Millisecond) :: cs).
      split; [|by constructor].
      rewrite Hcs, Hcalls, <- !app_assoc. done.
Qed.

(** The sentinel is returned by the elapsed-time check alone, and that
    check measures from a clock reading of this very call. *)
Lemma loop_timeout k l timeout t os os' :
  LockWithTimeout_loop k l timeout t os = Some (inl ErrTimeout, os') →
  0 < timeout ∧
  ∀ c0, c0 ≤ clock os → t = 0 ∨ c0 ≤ t → timeout < clock os' - c0.
Proof.
  revert t os. induction k as [|k IH]; intros t os; simpl.
  - intros [? _]%ret_Some. discriminate.
  - intros (c1 & os1 & Hb & Hrest)%bind_Some.
    apply body_spec in Hb as
      [Hfr [(d & -> & Hnz & Hpos & Hlt & Hd & ->)
           |[(h & e & -> & Hpre & Hcalls & Hnw & Hshape)
            |(h & t' & -> & Hpre & Hcalls & Ht' & Hclk)]]].
    + apply ret_Some in Hrest as [_ <-]. split; [done|].
      intros c0 Hc0 [?|Hle]; [done|]. simpl.
      subst d. unfold Sub, minDuration, maxDuration in Hlt. lia.
    + apply ret_Some in Hrest as [[= ->] _].
      destruct Hshape as [?|[n ?]]; discriminate.
    + apply IH in Hrest as [Hpos Hrest]. split; [done|].
      intros c0 Hc0 Hinv. apply Hrest.
      * destruct Hfr as (_ & _ & _ & _ & _ & ?). lia.
      * right. destruct Ht' as [[? ->]|[-> ?]]; [|lia].
        by destruct Hinv.
Qed.

(** *** What an attempt does in a given state *)

Lemma flock_nb_granted l path os :
  fault os (length (calls os)) = None →
  fdtable os !! l = Some path →
  flocks os !! path = None →
  rival_holds os path (tick os) = false →
  syscall_Flock l EXNB os =
    Some (nil, returns (tick os) (CallFlock l EXNB nil)
                       (set_flocks (<[path := l]> (flocks os)) os)).
Proof.
  unfold syscall_Flock, rival_holds. intros -> -> -> Hv. simpl.
  destruct (vacant os path (tick os)) as [c'|]; [|done].
  destruct (Z.leb_spec c' (tick os)); [done | lia].
Qed.

Lemma flock_nb_refused l path os :
  fault os (length (calls os)) = None →
  fdtable os !! l = Some path →
  flocks os !! path = None →
  rival_holds os path (tick os) = true →
  syscall_Flock l EXNB os =
    Some (WouldBlock, returns (tick os) (CallFlock l EXNB WouldBlock) os).
Proof.
  unfold syscall_Flock, rival_holds. intros -> -> -> Hv. simpl.
  destruct (vacant os path (tick os)) as [c'|]; [|done].
  destruct (Z.leb_spec c' (tick os)); [lia | done].
Qed.

Lemma flock_faulted fd how n os :
  fault os (length (calls os)) = Some n →
  syscall_Flock fd how os =
    Some (Some (Errno n), returns (tick os) (CallFlock fd how (Some (Errno n))) os).
Proof. unfold syscall_Flock. by intros ->. Qed.

Lemma attempt_granted l t os os2 :
  syscall_Flock l EXNB os = Some (nil, os2) →
  LockWithTimeout_attempt l t os = Some (inl nil, os2).
Proof. unfold LockWithTimeout_attempt, mbind, Sys_bind. by intros ->. Qed.

Lemma attempt_refused l t os os2 :
  syscall_Flock l EXNB os = Some (WouldBlock, os2) →
  LockWithTimeout_attempt l t os =
    Some (inr t, returns (tick os2 + 50 * Millisecond)
                         (CallSleep (50 * Millisecond)) os2).
Proof.
  unfold LockWithTimeout_attempt, mbind, Sys_bind. intros ->.
  unfold error_eqb. rewrite bool_decide_eq_false_2 by done.
  by rewrite bool_decide_eq_true_2 by done.
Qed.

Lemma attempt_failed l t os os2 n :
  syscall_Flock l EXNB os = Some (Some (Errno n), os2) →
  n ≠ EWOULDBLOCK →
  LockWithTimeout_attempt l t os = Some (inl (Some (Errno n)), os2).
Proof.
  unfold LockWithTimeout_attempt, mbind, Sys_bind. intros -> Hn.
  unfold error_eqb. rewrite bool_decide_eq_false_2 by done.
  rewrite bool_decide_eq_false_2 by congruence. done.
Qed.

(** The first turn reads the clock and goes straight to the attempt. *)
Lemma body_first l timeout os :
  LockWithTimeout_body l timeout 0 os =
  LockWithTimeout_attempt l (tick os) (returns (tick os) (CallNow (tick os)) os).
Proof. reflexivity. Qed.

(** With a timeout that is not positive, a later turn is its attempt. *)
Lemma body_unbounded l timeout t os :
  t ≠ 0 → timeout ≤ 0 →
  LockWithTimeout_body l timeout t os = LockWithTimeout_attempt l t os.
Proof.
  intros Ht Hto. unfold LockWithTimeout_body, LockWithTimeout_check, IsZero.
  destruct (Z.eqb_spec t 0); [done|].
  destruct (Z.ltb_spec 0 timeout); [lia | done].
Qed.

(** With a positive timeout, a later turn checks the elapsed time first. *)
Lemma body_bounded l timeout t os :
  t ≠ 0 → 0 < timeout →
  LockWithTimeout_body l timeout t os =
  let os1 := returns (tick os) (CallSince t (Sub (tick os) t)) os in
  if timeout <? Sub (tick os) t then Some (inl ErrTimeout, os1)
  else LockWithTimeout_attempt l t os1.
Proof.
  intros Ht Hto. unfold LockWithTimeout_body, LockWithTimeout_check, IsZero.
  destruct (Z.eqb_spec t 0); [done|].
  destruct (Z.ltb_spec 0 timeout); [|lia].
  unfold mbind, Sys_bind, time_Since. simpl.
  by destruct (timeout <? Sub (tick os) t).
Qed.

Lemma faultless_now os : faultless os → fault os (length (calls os)) = None.
Proof. intros Hf. by apply Hf. Qed.

Lemma faultless_frame os os' cs :
  faultless os → fault os' = fault os → calls os' = calls os ++ cs →
  faultless os'.
Proof.
  unfold faultless. intros Hf -> -> n. rewrite length_app. intros ?.
  apply Hf. lia.
Qed.

(** *** Consequences of the shape of the log *)

Lemma run_log_result l timeout e cs :
  run_log l timeout (inl e) cs →
  e = ErrTimeout ∧ 0 < timeout
  ∨ e = nil
  ∨ ∃ n, e = Some (Errno n) ∧ n ≠ EWOULDBLOCK.
Proof.
  intros Hlog. remember (inl e) as c eqn:Hc. revert e Hc.
  induction Hlog; intros e' Hc; simplify_eq; eauto.
Qed.

Lemma prelude_not_flock timeout h i fd how e :
  prelude timeout h → h !! i ≠ Some (CallFlock fd how e).
Proof. intros [] ; destruct i as [|[|i]]; done. Qed.

(** An attempt that reported an errno other than [EWOULDBLOCK] is the last
    call of its run, and its errno is the result of the run. *)
Lemma run_log_failed l timeout c cs i fd how n :
  run_log l timeout c cs →
  cs !! i = Some (CallFlock fd how (Some (Errno n))) →
  n ≠ EWOULDBLOCK →
  c = inl (Some (Errno n)) ∧ length cs = S i.
Proof.
  intros Hlog. revert i.
  induction Hlog as [t|t d ? ?|h Hpre|h m Hpre Hm|h c cs Hpre Hlog IH];
    intros i Hi Hn.
  - done.
  - by destruct i.
  - apply lookup_app_Some in Hi as [Hi|[_ Hi]].
    + by apply (prelude_not_flock _ _ _ _ _ _ Hpre) in Hi.
    + by destruct (i - length h)%nat as [|[|?]].
  - apply lookup_app_Some in Hi as [Hi|[Hle Hi]].
    + by apply (prelude_not_flock _ _ _ _ _ _ Hpre) in Hi.
    + destruct (i - length h)%nat as [|[|?]] eqn:Hd; simplify_eq/=.
      split; [done|]. rewrite length_app. simpl. lia.
  - apply lookup_app_Some in Hi as [Hi|[Hle Hi]].
    + by apply (prelude_not_flock _ _ _ _ _ _ Hpre) in Hi.
    + destruct (i - length h)%nat as [|[|j]] eqn:Hd; simplify_eq/=.
      apply IH in Hi as [-> Hlen]; [|done].
      split; [done|]. rewrite length_app. simpl. lia.
Qed.

(** A run that returned the sentinel ended on an elapsed-time check that
    exceeded the timeout. *)
Lemma run_log_timeout l timeout cs :
  run_log l timeout (inl ErrTimeout) cs →
  ∃ t d, last cs = Some (CallSince t d) ∧ timeout < d.
Proof.
  intros Hlog. remember (inl ErrTimeout) as c eqn:Hc.
  induction Hlog as [t|t d ? ?|h Hpre|h m Hpre Hm|h c cs Hpre Hlog IH];
    simplify_eq.
  - eauto.
  - destruct (IH eq_refl) as (t & d & Hlast & Hd). exists t, d. split; [|done].
    rewrite last_app_cons, !last_cons, Hlast. done.
Qed.

Lemma run_log_on_descriptor l timeout c cs :
  run_log l timeout c cs → Forall (on_descriptor l) cs.
Proof.
  assert (Hpre : ∀ h, prelude timeout h → Forall (on_descriptor l) h).
  { intros h []; repeat constructor. }
  induction 1; rewrite ?Forall_app; repeat constructor; auto.
Qed.

(** *** Runs under contention *)

Lemma ready_frame os os' l path cs :
  ready os l path → frame os os' → flocks os' = flocks os →
  calls os' = calls os ++ cs → ready os' l path.
Proof.
  intros (Hfd & Hfl & Hf) (_ & Hfault & _ & Hfdt & _) Hfl' Hcs.
  split_and!; [congruence | congruence | by eapply faultless_frame].
Qed.

Lemma rival_frame os os' path c :
  frame os os' → rival_holds os' path c = rival_holds os path c.
Proof. unfold rival_holds. by intros (-> & _). Qed.

(** A refused attempt: the request is logged with [EWOULDBLOCK], then the
    sleep; the lock table is as before and 50ms at least have passed. *)
Lemma attempt_contended l path t os :
  ready os l path → rival_holds os path (tick os) = true →
  ∃ os', LockWithTimeout_attempt l t os = Some (inr t, os') ∧
    calls os' = calls os ++ [CallFlock l EXNB WouldBlock;
                             CallSleep (50 * Millisecond)] ∧
    frame os os' ∧ flocks os' = flocks os ∧
    clock os + 50 * Millisecond ≤ clock os'.
Proof.
  intros (Hfd & Hfl & Hf) Hr.
  pose proof (flock_nb_refused l path os (faultless_now _ Hf) Hfd Hfl Hr) as Hflock.
  eexists. split; [by apply attempt_refused|].
  pose proof (tick_ge os) as Ht.
  set (os2 := returns (tick os) (CallFlock l EXNB WouldBlock) os).
  pose proof (tick_ge os2) as Ht2. simpl in Ht2.
  split_and!; simpl.
  - by rewrite <- app_assoc.
  - unfold frame. simpl. split_and!; try done. unfold Millisecond. lia.
  - done.
  - unfold Millisecond. lia.
Qed.

(** A granted attempt returns [nil] at the instant of the request. *)
Lemma attempt_free l path t os :
  ready os l path → rival_holds os path (tick os) = false →
  ∃ os', LockWithTimeout_attempt l t os = Some (inl nil, os') ∧
    calls os' = calls os ++ [CallFlock l EXNB nil] ∧
    flocks os' !! path = Some l ∧ clock os' = tick os.
Proof.
  intros (Hfd & Hfl & Hf) Hr.
  pose proof (flock_nb_granted l path os (faultless_now _ Hf) Hfd Hfl Hr) as Hflock.
  eexists. split; [by apply attempt_granted|].
  split_and!; simpl; [done | by rewrite lookup_insert_eq | done].
Qed.

Lemma ready_now os l path :
  ready os l path →
  ready (returns (tick os) (CallNow (tick os)) os) l path.
Proof.
  intros Hr. eapply ready_frame; [done | | done | done].
  apply frame_returns, tick_ge.
Qed.

(** While some other process holds the lock, a run with a timeout that is
    not positive goes round and round: each later turn is one refused
    request and one sleep. *)
Lemma loop_contended k l path timeout t os :
  t ≠ 0 → timeout ≤ 0 → ready os l path →
  (∀ c, clock os ≤ c → rival_holds os path c = true) →
  ∃ os', LockWithTimeout_loop k l timeout t os = Some (inr t, os') ∧
    calls os' = calls os ++
      mjoin (replicate k [CallFlock l EXNB WouldBlock;
                         CallSleep (50 * Millisecond)]) ∧
    clock os + Z.of_nat k * (50 * Millisecond) ≤ clock os'.
Proof.
  intros Ht Hto. revert os. induction k as [|k IH]; intros os Hready Hheld.
  - exists os. simpl. split_and!; [done | by rewrite app_nil_r | lia].
  - destruct (attempt_contended l path t os Hready) as
      (os1 & Hatt & Hcalls & Hfr & Hfl & Hclk).
    { apply Hheld, tick_ge. }
    destruct (IH os1) as (os' & Hloop & Hcalls' & Hclk').
    { by eapply ready_frame. }
    { intros c Hc. rewrite (rival_frame os os1) by done.
      apply Hheld. unfold Millisecond in *. lia. }
    exists os'. split_and!.
    + simpl. apply bind_Some. exists (inr t), os1.
      by rewrite body_unbounded.
    + rewrite Hcalls', Hcalls, <- app_assoc. done.
    + unfold Millisecond in *. lia.
Qed.

(** A turn of a run whose timeout is not positive is an attempt, perhaps
    after a first reading of the clock. *)
Lemma body_unbounded_attempt l timeout t os :
  timeout ≤ 0 →
  ∃ t1 os1, LockWithTimeout_body l timeout t os =
              LockWithTimeout_attempt l t1 os1 ∧
    frame os os1 ∧ flocks os1 = flocks os ∧
    (os1 = os ∨ calls os1 = calls os ++ [CallNow (tick os)]).
Proof.
  intros Hto. destruct (decide (t = 0)) as [->|Hnz].
  - eexists _, _. split; [apply body_first|].
    split_and!; [apply frame_returns, tick_ge | done | by right].
  - eexists t, os. split; [by apply body_unbounded|].
    split_and!; [apply frame_refl | done | by left].
Qed.

(** When the other process lets go at instant [T], a run with a timeout
    that is not positive returns [nil], and not before [T]. *)
Lemma loop_released m l path timeout T t os :
  timeout ≤ 0 → ready os l path →
  (∀ c, vacant os path c = Some T) →
  T - clock os ≤ Z.of_nat m →
  ∃ k os', LockWithTimeout_loop k l timeout t os = Some (inl nil, os') ∧
    T ≤ clock os' ∧ flocks os' !! path = Some l.
Proof.
  intros Hto. revert t os. induction m as [|m IH]; intros t os Hready HT Hm;
    destruct (body_unbounded_attempt l timeout t os Hto) as
      (t1 & os1 & Hbody & Hfr & Hfl & Hcs);
    assert (Hready1 : ready os1 l path)
      by (destruct Hcs as [->|Hcs]; [done | by eapply ready_frame]);
    assert (HT1 : ∀ c, vacant os1 path c = Some T)
      by (intros c; destruct Hfr as (-> & _); apply HT);
    assert (Hclk1 : clock os ≤ tick os1)
      by (destruct Hfr as (_ & _ & _ & _ & _ & ?); pose proof (tick_ge os1); lia);
    destruct (rival_holds os1 path (tick os1)) eqn:Hr.
  - unfold rival_holds in Hr. rewrite HT1 in Hr. lia.
  - destruct (attempt_free l path t1 os1 Hready1 Hr) as (os' & Hatt & _ & Hheld & Hclk).
    exists 1%nat, os'. split_and!; [|unfold rival_holds in Hr; rewrite HT1 in Hr; lia|done].
    simpl. apply bind_Some. exists (inl nil), os'. by rewrite Hbody.
  - destruct (attempt_contended l path t1 os1 Hready1 Hr) as
      (os2 & Hatt & Hcalls & Hfr2 & Hfl2 & Hclk2).
    destruct (IH t1 os2) as (k & os' & Hloop & Hdone).
    { by eapply ready_frame. }
    { intros c. destruct Hfr2 as (-> & _). apply HT1. }
    { destruct Hfr as (_ & _ & _ & _ & _ & ?). unfold Millisecond in *. lia. }
    exists (S k), os'. split; [|done].
    simpl. apply bind_Some. exists (inr t1), os2. by rewrite Hbody.
  - destruct (attempt_free l path t1 os1 Hready1 Hr) as (os' & Hatt & _ & Hheld & Hclk).
    exists 1%nat, os'. split_and!; [|unfold rival_holds in Hr; rewrite HT1 in Hr; lia|done].
    simpl. apply bind_Some. exists (inl nil), os'. by rewrite Hbody.
Qed.

(** While some other process holds the lock for good, no number of turns
    makes such a run return. *)
Lemma loop_never_returns k l path timeout t os :
  timeout ≤ 0 → ready os l path →
  (∀ c, clock os ≤ c → rival_holds os path c = true) →
  ∃ t' os', LockWithTimeout_loop k l timeout t os = Some (inr t', os').
Proof.
  intros Hto. revert t os. induction k as [|k IH]; intros t os Hready Hheld.
  - by exists t, os.
  - destruct (body_unbounded_attempt l timeout t os Hto) as
      (t1 & os1 & Hbody & Hfr & Hfl & Hcs).
    assert (Hready1 : ready os1 l path)
      by (destruct Hcs as [->|Hcs]; [done | by eapply ready_frame]).
    assert (Hclk1 : clock os ≤ clock os1)
      by (by destruct Hfr as (_ & _ & _ & _ & _ & ?)).
    destruct (attempt_contended l path t1 os1 Hready1) as
      (os2 & Hatt & Hcalls & Hfr2 & Hfl2 & Hclk2).
    { rewrite (rival_frame os os1) by done. apply Hheld.
      pose proof (tick_ge os1). lia. }
    destruct (IH t1 os2) as (t' & os' & Hloop).
    { by eapply ready_frame. }
    { intros c Hc. rewrite (rival_frame os1 os2), (rival_frame os os1) by done.
      apply Hheld. unfold Millisecond in *. lia. }
    exists t', os'. simpl. apply bind_Some. exists (inr t1), os2.
    by rewrite Hbody.
Qed.

(** Turns compose. *)
Lemma loop_app k j l timeout t os t1 os1 :
  LockWithTimeout_loop k l timeout t os = Some (inr t1, os1) →
  LockWithTimeout_loop (k + j) l timeout t os =
  LockWithTimeout_loop j l timeout t1 os1.
Proof.
  revert t os. induction k as [|k IH]; intros t os; simpl.
  - by intros [[= ->] ->]%ret_Some.
  - intros (c & os2 & Hb & Hrest)%bind_Some.
    unfold mbind, Sys_bind at 1. rewrite Hb.
    destruct c as [e|t2]; [by apply ret_Some in Hrest as [? _] | by apply IH].
Qed.

(** The attempt, by the reply it gets. *)
Lemma attempt_spec l t os c os' :
  LockWithTimeout_attempt l t os = Some (c, os') →
  ∃ e os1, syscall_Flock l EXNB os = Some (e, os1) ∧
    ( e = nil ∧ c = inl nil ∧ os' = os1
    ∨ (∃ n, e = Some (Errno n) ∧ n ≠ EWOULDBLOCK) ∧ c = inl e ∧ os' = os1
    ∨ e = WouldBlock ∧ c = inr t ∧
      os' = returns (tick os1 + 50 * Millisecond)
                    (CallSleep (50 * Millisecond)) os1 ).
Proof.
  unfold LockWithTimeout_attempt.
  intros (e & os1 & Hflock & Hrest)%bind_Some. exists e, os1. split; [done|].
  pose proof (flock_inv _ _ _ _ _ Hflock) as (_ & _ & _ & _ & [->|[n ->]]).
  - apply ret_Some in Hrest as [<- <-]. by left.
  - destruct (decide (n = EWOULDBLOCK)) as [->|Hn].
    + right; right. unfold error_eqb in Hrest.
      rewrite bool_decide_eq_false_2, bool_decide_eq_true_2 in Hrest by done.
      simpl in Hrest. unfold mbind, Sys_bind, time_Sleep in Hrest.
      apply ret_Some in Hrest as [<- <-]. done.
    + unfold error_eqb in Hrest.
      rewrite bool_decide_eq_false_2 in Hrest by done.
      rewrite bool_decide_eq_false_2 in Hrest by congruence.
      apply ret_Some in Hrest as [<- <-]. right; left. eauto.
Qed.

(** Under lasting contention a positive timeout below the largest
    [Duration] does run out: the run returns the sentinel. *)
Lemma loop_times_out m l path timeout t os :
  0 < timeout < maxDuration → t ≠ 0 → ready os l path →
  (∀ c, clock os ≤ c → rival_holds os path c = true) →
  timeout + t - clock os < Z.of_nat m →
  ∃ k os', LockWithTimeout_loop k l timeout t os = Some (inl ErrTimeout, os').
Proof.
  intros Hto Ht. revert os. induction m as [|m IH]; intros os Hready Hheld Hm;
    pose proof (tick_ge os) as Htick;
    pose proof (body_bounded l timeout t os Ht (proj1 Hto)) as Hbody;
    simpl in Hbody; destruct (Z.ltb_spec timeout (Sub (tick os) t)) as [Hlt|Hge].
  - exists 1%nat. eexists. simpl. apply bind_Some.
    eexists _, _. split; [exact Hbody | done].
  - unfold Sub, minDuration, maxDuration in *. lia.
  - exists 1%nat. eexists. simpl. apply bind_Some.
    eexists _, _. split; [exact Hbody | done].
  - set (os1 := returns (tick os) (CallSince t (Sub (tick os) t)) os) in *.
    assert (Hfr : frame os os1) by (apply frame_returns, tick_ge).
    destruct (attempt_contended l path t os1) as
      (os2 & Hatt & Hcalls & Hfr2 & Hfl2 & Hclk2).
    { by eapply ready_frame. }
    { rewrite (rival_frame os os1) by done. apply Hheld.
      pose proof (tick_ge os1). simpl in *. lia. }
    destruct (IH os2) as (k & os' & Hloop).
    { eapply ready_frame; [|exact Hfr2|done..]. by eapply ready_frame. }
    { intros c Hc. rewrite (rival_frame os1 os2), (rival_frame os os1) by done.
      apply Hheld. simpl in *. unfold Millisecond in *. lia. }
    { simpl in Hclk2. unfold Millisecond in *. lia. }
    exists (S k), os'. simpl. apply bind_Some. exists (inr t), os2.
    split; [by rewrite Hbody | done].
Qed.

Lemma run_log_last_since l timeout e cs t d :
  run_log l timeout (inl e) cs → last cs = Some (CallSince t d) →
  e = ErrTimeout.
Proof.
  intros Hlog. remember (inl e) as c eqn:Hc. revert e Hc.
  induction Hlog as [t1|t1 d1 ? ?|h Hpre|h m Hpre Hm|h c cs Hpre Hlog IH];
    intros e Hc Hlast; simplify_eq.
  - done.
  - by rewrite last_snoc in Hlast.
  - by rewrite last_snoc in Hlast.
  - apply IH; [done|].
    rewrite last_app_cons, !last_cons in Hlast.
    destruct (last cs) eqn:Hl; [done|].
    inversion Hlog; simplify_eq/=; try done.
    all: by destruct h0.
Qed.

(** *** Construction, and the two single calls *)

(** The descriptor open(2) hands out is not in use. *)
Lemma lowest_free_fresh (tbl : gmap Z string) : tbl !! lowest_free tbl = None.
Proof.
  unfold lowest_free.
  destruct (find _ _) as [fd|] eqn:Hfind; simpl.
  - apply find_some in Hfind as [_ Hfd]. by apply bool_decide_eq_true in Hfd.
  - (* every descriptor below the size of the table is taken: they are
       the whole table *)
    set (n := size tbl) in *.
    assert (Hsub : (list_to_set (seqZ 0 (Z.of_nat n)) : gset Z) ⊆ dom tbl).
    { intros fd Hfd%elem_of_list_to_set.
      apply elem_of_dom. destruct (tbl !! fd) eqn:Hl; [done|].
      apply list_elem_of_In in Hfd.
      apply (find_none _ _ Hfind) in Hfd.
      by rewrite bool_decide_eq_true_2 in Hfd. }
    assert (Hsize : (size (dom tbl) ≤
                     size (list_to_set (seqZ 0 (Z.of_nat n)) : gset Z))%nat).
    { rewrite size_dom, size_list_to_set by apply NoDup_seqZ.
      rewrite length_seqZ. unfold n. lia. }
    pose proof (set_subseteq_size_equiv _ _ Hsub Hsize) as Heq.
    destruct (tbl !! Z.of_nat n) eqn:Hl; [|done].
    assert (Hin : Z.of_nat n ∈ dom tbl) by (by apply elem_of_dom).
    apply Heq, elem_of_list_to_set, elem_of_seqZ in Hin. lia.
Qed.

(** [New] on a path that exists opens it, creating nothing: the result is
    a descriptor on the path that was not in use. *)
Lemma New_existing (filename : string) os :
  fault os (length (calls os)) = None →
  filename ∈ files os →
  ∃ l os', New filename os = Some ((l, nil), os') ∧
    fdtable os' = <[l := filename]> (fdtable os) ∧
    fdtable os !! l = None ∧
    files os' = files os ∧ flocks os' = flocks os.
Proof.
  intros Hfault Hin. unfold New, syscall_Open, mbind, Sys_bind.
  rewrite Hfault. rewrite bool_decide_eq_true_2 by done. simpl.
  eexists _, _. split; [reflexivity|]. simpl.
  split_and!; [done | apply lowest_free_fresh | | done].
  apply subseteq_union_1_L. by apply singleton_subseteq_l.
Qed.

(** [Unlock] and [Lock] are one call each on the descriptor and leave the
    descriptor table alone; a successful [Unlock] leaves the lock not held
    through the descriptor. *)
Lemma Unlock_frame l os e os' :
  Lock_Unlock l os = Some (e, os') →
  fdtable os' = fdtable os ∧ files os' = files os ∧
  calls os' = calls os ++ [CallFlock l LOCK_UN e] ∧
  ∀ path, e = nil → fdtable os !! l = Some path →
          flocks os' !! path ≠ Some l.
Proof.
  unfold Lock_Unlock. intros Hun.
  pose proof (flock_frame _ _ _ _ _ Hun) as (_ & _ & _ & Hfd & Hfiles & _).
  pose proof (flock_calls _ _ _ _ _ Hun) as Hcalls.
  split_and!; [done..|].
  intros path -> Hpath. unfold syscall_Flock in Hun. rewrite Hpath in Hun.
  destruct (fault os (length (calls os))); [done|]. simpl in Hun.
  injection Hun as <-. case_bool_decide as Hheld; simpl.
  - by rewrite lookup_delete_eq.
  - done.
Qed.

(** The errors of [New], [Lock] and [Unlock] are errnos. *)
Lemma New_result (filename : string) os l e os' :
  New filename os = Some ((l, e), os') → e = nil ∨ ∃ n, e = Some (Errno n).
Proof.
  unfold New, syscall_Open, mbind, Sys_bind.
  destruct (fault os (length (calls os))); simpl.
  - intros [= _ <- _]. eauto.
  - destruct (_ || _); simpl; intros [= _ <- _]; eauto.
Qed.

Lemma flock_result fd how os e os' :
  syscall_Flock fd how os = Some (e, os') → e = nil ∨ ∃ n, e = Some (Errno n).
Proof. by intros (_ & _ & _ & _ & ?)%flock_inv. Qed.

Lemma Lock_frame l os e os' :
  Lock_Lock l os = Some (e, os') →
  fdtable os' = fdtable os ∧ files os' = files os ∧
  calls os' = calls os ++ [CallFlock l LOCK_EX e].
Proof.
  unfold Lock_Lock. intros Hlock.
  pose proof (flock_frame _ _ _ _ _ Hlock) as (_ & _ & _ & Hfd & Hfiles & _).
  by pose proof (flock_calls _ _ _ _ _ Hlock) as Hcalls.
Qed.

End Facts.
End UnixFacts.

(** ** More facts about the flock backend *)

Module UnixMore.
Import Unix UnixFacts.

Section Facts.
Context `{Platform}.

Implicit Types (os : OS) (l fd : Z) (timeout : Duration) (t : Time).

#[local] Arguments syscall_Flock : simpl never.

(** The head of a turn reads the clock at most; it returns the sentinel or
    goes on. *)
Lemma check_inv timeout t os c os1 :
  LockWithTimeout_check timeout t os = Some (c, os1) →
  frame os os1 ∧ flocks os1 = flocks os ∧
  attempts os1 = attempts os ∧ sleeps os1 = sleeps os ∧
  (os1 = os ∨ ∃ r, os1 = returns (tick os) r os) ∧
  (c = inl ErrTimeout ∧ 0 < timeout ∨ ∃ t1, c = inr t1).
Proof.
  unfold LockWithTimeout_check, IsZero, time_Now, time_Since, mbind, Sys_bind,
    mret, Sys_ret.
  assert (Hcount : ∀ r, (∀ d, r ≠ CallSleep d) →
            (∀ a b e, r ≠ CallFlock a b e) →
            attempts (returns (tick os) r os) = attempts os ∧
            sleeps (returns (tick os) r os) = sleeps os).
  { intros r Hs Hf. unfold attempts, sleeps. simpl.
    rewrite !List.filter_app, !length_app. simpl.
    destruct r; try (split; simpl; lia).
    - by destruct (Hf fd how err).
    - by destruct (Hs d). }
  destruct (t =? 0).
  { intros [= <- <-]. destruct (Hcount (CallNow (tick os))) as [? ?]; [done..|].
    split_and!; [apply frame_returns, tick_ge | done | done | done | eauto | eauto]. }
  destruct (Z.ltb_spec 0 timeout).
  - destruct (Hcount (CallSince t (Sub (tick os) t))) as [? ?]; [done..|].
    destruct (timeout <? Sub (tick os) t); intros [= <- <-];
      (split_and!; [apply frame_returns, tick_ge | done | done | done
                   | eauto | eauto]).
  - intros [= <- <-].
    split_and!; [apply frame_refl | done | done | done | eauto | eauto].
Qed.

Lemma check_returns timeout t os :
  ∃ c os1, LockWithTimeout_check timeout t os = Some (c, os1).
Proof.
  unfold LockWithTimeout_check, time_Now, time_Since, mbind, Sys_bind,
    mret, Sys_ret.
  destruct (IsZero t); [eauto|]. destruct (0 <? timeout); [|eauto].
  destruct (timeout <? _); eauto.
Qed.

(** A turn is its head and then, unless the head returned, its attempt. *)
Lemma body_inv l timeout t os c os' :
  LockWithTimeout_body l timeout t os = Some (c, os') →
  ∃ c1 os1, LockWithTimeout_check timeout t os = Some (c1, os1) ∧
    (c1 = inl ErrTimeout ∧ 0 < timeout ∧ c = c1 ∧ os' = os1
     ∨ ∃ t1, c1 = inr t1 ∧ LockWithTimeout_attempt l t1 os1 = Some (c, os')).
Proof.
  unfold LockWithTimeout_body.
  intros (c1 & os1 & Hcheck & Hrest)%bind_Some. exists c1, os1.
  split; [done|].
  pose proof (check_inv _ _ _ _ _ Hcheck) as (_ & _ & _ & _ & _ & Hc).
  destruct Hc as [[-> ?]|[t1 ->]].
  - apply ret_Some in Hrest as [<- <-]. by left.
  - right. eauto.
Qed.

(** A granted exclusive request leaves the lock held through the
    descriptor, which was open. *)
Lemma flock_granted_held fd how os os' :
  Z.ldiff how LOCK_NB = LOCK_EX →
  syscall_Flock fd how os = Some (nil, os') →
  ∃ path, fdtable os !! fd = Some path ∧ flocks os' !! path = Some fd.
Proof.
  unfold syscall_Flock. intros -> Hf. simpl in Hf.
  destruct (fault os (length (calls os))); [done|].
  destruct (fdtable os !! fd) as [path|]; [|done].
  exists path. split; [done|].
  destruct (flocks os !! path) as [fd'|] eqn:Hheld.
  - destruct (Z.eqb_spec fd' fd) as [->|_].
    + by injection Hf as <-.
    + by destruct (negb _).
  - destruct (vacant os path (tick os)) as [t'|].
    + destruct (t' <=? tick os); [|destruct (negb _); [done|]];
        injection Hf as <-; simpl; apply lookup_insert_eq.
    + by destruct (negb _).
Qed.

Lemma count_returns r t' os :
  attempts (returns t' r os) =
    (attempts os + match r with CallFlock _ _ _ => 1 | _ => 0 end)%nat ∧
  sleeps (returns t' r os) =
    (sleeps os + match r with CallSleep _ => 1 | _ => 0 end)%nat.
Proof.
  unfold attempts, sleeps. simpl.
  rewrite !List.filter_app, !length_app. by destruct r.
Qed.

Lemma count_set_flocks fl os :
  attempts (set_flocks fl os) = attempts os ∧
  sleeps (set_flocks fl os) = sleeps os.
Proof. done. Qed.

(** The attempt, by the way it ends. *)
Lemma attempt_inv l t os c os' :
  LockWithTimeout_attempt l t os = Some (c, os') →
  frame os os' ∧ attempts os' = S (attempts os) ∧
  ( c = inl nil ∧ sleeps os' = sleeps os ∧
    (∃ path, fdtable os !! l = Some path ∧ flocks os' !! path = Some l)
  ∨ (∃ n, c = inl (Some (Errno n)) ∧ n ≠ EWOULDBLOCK) ∧
    sleeps os' = sleeps os ∧ flocks os' = flocks os
  ∨ c = inr t ∧ sleeps os' = S (sleeps os) ∧ flocks os' = flocks os ∧
    clock os + 50 * Millisecond ≤ clock os' ).
Proof.
  intros (e & os1 & Hflock & Hcases)%attempt_spec.
  pose proof (flock_frame _ _ _ _ _ Hflock) as Hfr.
  pose proof (flock_inv _ _ _ _ _ Hflock) as (t' & fl & Ht' & Hos1 & _).
  assert (Hcount : attempts os1 = S (attempts os) ∧ sleeps os1 = sleeps os).
  { rewrite Hos1.
    destruct (count_returns (CallFlock l EXNB e) t' (set_flocks fl os))
      as [-> ->].
    destruct (count_set_flocks fl os) as [-> ->]. split; lia. }
  destruct Hcount as [Ha Hs].
  destruct Hcases as [(-> & -> & ->)|[([n [-> Hn]] & -> & ->)|(-> & -> & ->)]].
  - split_and!; [done..|]. left. split_and!; [done..|].
    exact (flock_granted_held l EXNB os os1 eq_refl Hflock).
  - split_and!; [done..|]. right; left. split_and!; [eauto | done |].
    by rewrite (flock_error _ _ _ _ _ Hflock).
  - pose proof (flock_error _ _ _ _ _ Hflock) as Hos1' .
    specialize (Hos1' ltac:(done)).
    destruct (count_returns (CallSleep (50 * Millisecond))
                (tick os1 + 50 * Millisecond) os1) as [Ha' Hs'].
    pose proof (tick_ge os1) as Htick1.
    destruct Hfr as (Hv & Hfa & Hla & Hfd & Hfi & Hclk).
    split_and!.
    + unfold frame. simpl. split_and!; try done. unfold Millisecond. lia.
    + rewrite Ha'. lia.
    + right; right. split_and!; [done | rewrite Hs'; lia | | ].
      * simpl. by rewrite Hos1'.
      * simpl. unfold Millisecond. lia.
Qed.

(** One turn, by the way it ends, with what it does to the lock table, the
    counts and the clock. *)
Lemma body_effects l timeout t os c os' :
  LockWithTimeout_body l timeout t os = Some (c, os') →
  frame os os' ∧
  ( c = inl ErrTimeout ∧ 0 < timeout ∧ flocks os' = flocks os ∧
    attempts os' = attempts os ∧ sleeps os' = sleeps os
  ∨ c = inl nil ∧ attempts os' = S (attempts os) ∧ sleeps os' = sleeps os ∧
    (∃ path, fdtable os !! l = Some path ∧ flocks os' !! path = Some l)
  ∨ (∃ n, c = inl (Some (Errno n)) ∧ n ≠ EWOULDBLOCK) ∧
    attempts os' = S (attempts os) ∧ sleeps os' = sleeps os ∧
    flocks os' = flocks os
  ∨ (∃ t1, c = inr t1) ∧ attempts os' = S (attempts os) ∧
    sleeps os' = S (sleeps os) ∧ flocks os' = flocks os ∧
    clock os + 50 * Millisecond ≤ clock os' ).
Proof.
  intros (c1 & os1 & Hcheck & Hrest)%body_inv.
  apply check_inv in Hcheck as (Hfr1 & Hfl1 & Ha1 & Hs1 & _ & _).
  destruct Hrest as [(-> & Hpos & -> & ->)|(t1 & -> & Hatt)].
  { split; [done|]. left. by split_and!. }
  apply attempt_inv in Hatt as (Hfr2 & Ha2 & Hcases).
  split; [by eapply frame_trans|].
  destruct Hfr1 as (_ & _ & _ & Hfd1 & _ & Hclk1).
  destruct Hcases as [(-> & Hs & path & Hp & Hheld)
                     |[(Hn & Hs & Hfl)|(-> & Hs & Hfl & Hclk)]].
  - right; left. split_and!; [done | lia | lia |].
    exists path. by rewrite <- Hfd1.
  - right; right; left. split_and!; [done | lia | lia | congruence].
  - right; right; right. split_and!; [eauto | lia | lia | congruence | lia].
Qed.

(** A run, by the way it ends: a run that does not return [nil] leaves the
    lock table alone; one that does holds the lock; every refused attempt
    is followed by one sleep, which takes 50ms at least. *)
Lemma loop_effects k l timeout t os c os' :
  LockWithTimeout_loop k l timeout t os = Some (c, os') →
  (c ≠ inl nil → flocks os' = flocks os) ∧
  (c = inl nil →
   ∃ path, fdtable os !! l = Some path ∧ flocks os' !! path = Some l) ∧
  clock os + Z.of_nat (sleeps os' - sleeps os) * (50 * Millisecond)
    ≤ clock os' ∧
  (sleeps os ≤ sleeps os')%nat ∧ (attempts os ≤ attempts os')%nat ∧
  (attempts os' - attempts os)%nat =
    match c with
    | inl (Some (Errno _)) | inl None => S (sleeps os' - sleeps os)
    | _ => (sleeps os' - sleeps os)%nat
    end.
Proof.
  revert t os. induction k as [|k IH]; intros t os; simpl.
  - intros [<- <-]%ret_Some. rewrite !Nat.sub_diag.
    split_and!; [done | done | lia | lia | lia | done].
  - intros (c1 & os1 & Hb & Hrest)%bind_Some.
    apply body_effects in Hb as
      [Hfr [(-> & Hpos & Hfl & Ha & Hs)
           |[(-> & Ha & Hs & Hheld)
            |[([n [-> Hn]] & Ha & Hs & Hfl)
             |([t1 ->] & Ha & Hs & Hfl & Hclk)]]]].
    + apply ret_Some in Hrest as [<- <-]. rewrite Ha, Hs, !Nat.sub_diag.
      destruct Hfr as (_ & _ & _ & _ & _ & ?).
      split_and!; [done | done | lia | lia | lia | done].
    + apply ret_Some in Hrest as [<- <-]. rewrite Ha, Hs, Nat.sub_diag.
      destruct Hfr as (_ & _ & _ & _ & _ & ?).
      split_and!; [done | done | lia | lia | lia | unfold nil; simpl; lia].
    + apply ret_Some in Hrest as [<- <-]. rewrite Ha, Hs, Nat.sub_diag.
      destruct Hfr as (_ & _ & _ & _ & _ & ?).
      split_and!; [done | done | lia | lia | lia | simpl; lia].
    + apply IH in Hrest as (Hne & Hnil & Htime & Hle & Hale & Hcount).
      destruct Hfr as (_ & _ & _ & Hfd & _ & _).
      split_and!.
      * intros Hc. rewrite Hne by done. done.
      * intros Hc. destruct (Hnil Hc) as (path & Hp & Hh).
        exists path. by rewrite <- Hfd.
      * rewrite Hs in Htime.
        replace (Z.of_nat (sleeps os' - sleeps os))
          with (Z.of_nat (sleeps os' - S (sleeps os)) + 1) by lia.
        unfold Millisecond in *. lia.
      * lia.
      * lia.
      * rewrite Ha, Hs in Hcount.
        destruct c as [[[n|]|]|]; lia.
Qed.

(** *** Refused requests *)

Lemma flock_nb_refused_any l os :
  refused os l →
  syscall_Flock l EXNB os =
    Some (WouldBlock, returns (tick os) (CallFlock l EXNB WouldBlock) os).
Proof.
  intros (Hf & path & Hfd & Hheld). unfold Lock in *.
  destruct Hheld as [(l1 & Hl1 & Hne)|(Hnone & Hrival)].
  - unfold syscall_Flock. rewrite (faultless_now _ Hf), Hfd, Hl1. simpl.
    destruct (Z.eqb_spec l1 l); [done | done].
  - apply (flock_nb_refused l path); [by apply faultless_now | done | done |].
    apply Hrival, tick_ge.
Qed.

Lemma refused_frame os os' l cs :
  refused os l → frame os os' → flocks os' = flocks os →
  calls os' = calls os ++ cs → refused os' l.
Proof.
  intros (Hf & path & Hfd & Hheld) Hfr Hfl Hcs.
  unfold refused, Lock in *.
  pose proof Hfr as (Hv & Hfault & _ & Hfdt & _ & Hclk).
  split; [by eapply faultless_frame|].
  exists path. split; [by rewrite Hfdt|]. rewrite Hfl.
  destruct Hheld as [?|[Hnone Hrival]]; [by left | right].
  split; [done|]. intros c Hc. rewrite (rival_frame os os') by done.
  apply Hrival. lia.
Qed.

Lemma attempt_refused_any l t os :
  refused os l →
  ∃ os', LockWithTimeout_attempt l t os = Some (inr t, os') ∧
    refused os' l ∧ flocks os' = flocks os ∧
    clock os + 50 * Millisecond ≤ clock os'.
Proof.
  intros Href. pose proof (flock_nb_refused_any l os Href) as Hflock.
  eexists. split; [by apply attempt_refused|].
  pose proof (tick_ge os) as Ht.
  set (os2 := returns (tick os) (CallFlock l EXNB WouldBlock) os).
  pose proof (tick_ge os2) as Ht2. simpl in Ht2.
  split_and!; simpl; [| done | unfold Millisecond; lia].
  eapply (refused_frame os); [done | | done |].
  - unfold frame. simpl. split_and!; try done. unfold Millisecond. lia.
  - simpl. by rewrite <- app_assoc.
Qed.

Lemma check_refused timeout t os c os1 l :
  LockWithTimeout_check timeout t os = Some (c, os1) →
  refused os l → refused os1 l.
Proof.
  intros (Hfr & Hfl & _ & _ & Hos1 & _)%check_inv Href.
  destruct Hos1 as [->|[r ->]]; [done|].
  by eapply refused_frame.
Qed.

(** While every request is refused, a run with a timeout that is not
    positive never returns. *)
Lemma loop_stuck k l timeout t os :
  timeout ≤ 0 → refused os l →
  ∃ t' os', LockWithTimeout_loop k l timeout t os = Some (inr t', os').
Proof.
  intros Hto. revert t os. induction k as [|k IH]; intros t os Href.
  - by exists t, os.
  - destruct (check_returns timeout t os) as (c1 & os1 & Hcheck).
    pose proof (check_refused _ _ _ _ _ l Hcheck Href) as Href1.
    pose proof (check_inv _ _ _ _ _ Hcheck) as (_ & _ & _ & _ & _ & Hc).
    destruct Hc as [[_ ?]|[t1 ->]]; [lia|].
    destruct (attempt_refused_any l t1 os1 Href1) as (os2 & Hatt & Href2 & _).
    destruct (IH t1 os2 Href2) as (t' & os' & Hloop).
    exists t', os'. simpl. apply bind_Some. exists (inr t1), os2.
    split; [|done]. unfold LockWithTimeout_body. apply bind_Some. eauto.
Qed.

(** While every request is refused, a positive timeout below the largest
    [Duration] runs out, and the lock table is as it was. *)
Lemma loop_expires m l timeout t os :
  0 < timeout < maxDuration → t ≠ 0 → refused os l →
  timeout + t - clock os < Z.of_nat m →
  ∃ k os', LockWithTimeout_loop k l timeout t os = Some (inl ErrTimeout, os').
Proof.
  intros Hto Ht. revert os. induction m as [|m IH]; intros os Href Hm;
    pose proof (tick_ge os) as Htick;
    pose proof (body_bounded l timeout t os Ht (proj1 Hto)) as Hbody;
    simpl in Hbody; destruct (Z.ltb_spec timeout (Sub (tick os) t)) as [Hlt|Hge].
  - exists 1%nat. eexists. simpl. apply bind_Some.
    eexists _, _. split; [exact Hbody | done].
  - unfold Sub, minDuration, maxDuration in *. lia.
  - exists 1%nat. eexists. simpl. apply bind_Some.
    eexists _, _. split; [exact Hbody | done].
  - set (os1 := returns (tick os) (CallSince t (Sub (tick os) t)) os) in *.
    assert (Href1 : refused os1 l).
    { eapply (refused_frame os); [done | apply frame_returns, tick_ge | done..]. }
    destruct (attempt_refused_any l t os1 Href1) as (os2 & Hatt & Href2 & _ & Hclk).
    destruct (IH os2 Href2) as (k & os' & Hloop).
    { simpl in Hclk. unfold Millisecond in *. lia. }
    exists (S k), os'. simpl. apply bind_Some. exists (inr t), os2.
    split; [by rewrite Hbody | done].
Qed.

(** The first turn of a refused run. *)
Lemma first_turn_refused l timeout os :
  refused os l →
  ∃ os1, LockWithTimeout_body l timeout 0 os = Some (inr (tick os), os1) ∧
    refused os1 l ∧ tick os ≤ clock os1.
Proof.
  intros Href. rewrite body_first.
  set (os0 := returns (tick os) (CallNow (tick os)) os).
  assert (Href0 : refused os0 l).
  { eapply (refused_frame os); [done | apply frame_returns, tick_ge | done..]. }
  destruct (attempt_refused_any l (tick os) os0 Href0)
    as (os1 & Hatt & Href1 & _ & Hclk).
  exists os1. split_and!; [done | done |].
  simpl in Hclk. unfold Millisecond in Hclk. lia.
Qed.

(** *** The blocking request *)

(** On a descriptor ready to lock, [Lock] returns when the other process
    lets go, and not at all when it never does. *)
Lemma Lock_waits l path os :
  ready os l path →
  Lock_Lock l os =
    match vacant os path (tick os) with
    | Some T =>
        Some (nil, returns (Z.max (tick os) T) (CallFlock l LOCK_EX nil)
                     (set_flocks (<[path := l]> (flocks os)) os))
    | None => None
    end.
Proof.
  intros (Hfd & Hfl & Hf). unfold Lock in *.
  unfold Lock_Lock, syscall_Flock.
  rewrite (faultless_now _ Hf), Hfd, Hfl. simpl.
  destruct (vacant os path (tick os)) as [T|]; [|done].
  destruct (Z.leb_spec T (tick os)); do 3 f_equal; lia.
Qed.

(** A request through a descriptor that is not open fails with EBADF and
    changes nothing but the log and the clock. *)
Lemma flock_closed fd how os :
  fault os (length (calls os)) = None → fdtable os !! fd = None →
  syscall_Flock fd how os =
    Some (Some (Errno EBADF),
          returns (tick os) (CallFlock fd how (Some (Errno EBADF))) os).
Proof. unfold syscall_Flock. by intros -> ->. Qed.

(** *** Construction *)

(** [New], by the way it ends. *)
Lemma New_inv (filename : string) os l e os' :
  New filename os = Some ((l, e), os') →
  flocks os' = flocks os ∧
  ( e = nil ∧ fdtable os !! l = None ∧
    fdtable os' = <[l := filename]> (fdtable os) ∧
    files os' = {[filename]} ∪ files os
  ∨ (∃ n, e = Some (Errno n)) ∧ l = 0 ∧
    fdtable os' = fdtable os ∧ files os' = files os ).
Proof.
  unfold New, syscall_Open, mbind, Sys_bind.
  destruct (fault os (length (calls os))); simpl.
  - intros [= <- <- <-]. split; [done|]. right. eauto.
  - destruct (_ || _); simpl; intros [= <- <- <-]; (split; [done|]).
    + left. split_and!; [done | apply lowest_free_fresh | done | done].
    + right. eauto.
Qed.

(** With the create flag in force, [New] succeeds whether the file is there
    or not, unless the kernel fails the call. *)
Lemma New_creates (filename : string) os :
  O_CREAT ≠ 0 →
  fault os (length (calls os)) = None →
  ∃ l os', New filename os = Some ((l, nil), os').
Proof.
  intros Hflag Hfault. unfold New, syscall_Open, mbind, Sys_bind.
  rewrite Hfault.
  assert (Hbit : (Z.land (Z.lor O_CREAT O_RDONLY) O_CREAT =? 0) = false).
  { unfold O_RDONLY. rewrite Z.lor_0_r, Z.land_diag. by apply Z.eqb_neq. }
  rewrite Hbit, orb_true_r. simpl. eauto.
Qed.

(** [New] is one call; it leaves the environment alone and the clock does
    not run backwards. *)
Lemma New_env (filename : string) os l e os' :
  New filename os = Some ((l, e), os') →
  vacant os' = vacant os ∧ fault os' = fault os ∧ lag os' = lag os ∧
  clock os ≤ clock os' ∧ length (calls os') = S (length (calls os)).
Proof.
  unfold New, syscall_Open, mbind, Sys_bind. pose proof (tick_ge os).
  destruct (fault os (length (calls os))); simpl.
  - intros [= <- <- <-]. simpl. rewrite length_app. simpl.
    split_and!; try done. lia.
  - destruct (_ || _); simpl; intros [= <- <- <-]; simpl;
      rewrite length_app; simpl; (split_and!; try done; lia).
Qed.

Lemma New_faultless (filename : string) os l e os' :
  New filename os = Some ((l, e), os') → faultless os → faultless os'.
Proof.
  intros (_ & Hfault & _ & _ & Hlen)%New_env Hf n Hn.
  rewrite Hfault. apply Hf. lia.
Qed.

(** A call on a lock no one holds returns [nil] on its first turn. *)
Lemma LockWithTimeout_free fuel l path timeout os :
  ready os l path →
  (∀ c, clock os ≤ c → rival_holds os path c = false) →
  ∃ os', Lock_LockWithTimeout (S fuel) l timeout os = Some (nil, os') ∧
    flocks os' !! path = Some l.
Proof.
  intros Hready Hfree.
  set (os0 := returns (tick os) (CallNow (tick os)) os).
  destruct (attempt_free l path (tick os) os0)
    as (os' & Hatt & _ & Hheld & _).
  { by apply ready_now. }
  { rewrite (rival_frame os os0) by apply frame_returns, tick_ge.
    apply Hfree. pose proof (tick_ge os). pose proof (tick_ge os0) as Ht0.
    unfold os0 in Ht0 at 1. simpl in Ht0. lia. }
  exists os'. split; [|done].
  apply LockWithTimeout_loop_inl. simpl. apply bind_Some.
  exists (inl nil), os'. by rewrite body_first.
Qed.

(** When the other process lets go at instant [T], a run returns whatever
    its timeout: [nil], and not before [T], or the sentinel. *)
Lemma loop_settles m l path timeout T t os :
  ready os l path →
  (∀ c, vacant os path c = Some T) →
  T - clock os ≤ Z.of_nat m →
  ∃ k e os', LockWithTimeout_loop k l timeout t os = Some (inl e, os') ∧
    (e = nil ∧ T ≤ clock os' ∧ flocks os' !! path = Some l
     ∨ e = ErrTimeout ∧ 0 < timeout ∧ flocks os' = flocks os).
Proof.
  revert t os. induction m as [|m IH]; intros t os Hready HT Hm;
    destruct (check_returns timeout t os) as (c1 & os1 & Hcheck);
    pose proof (check_inv _ _ _ _ _ Hcheck)
      as (Hfr1 & Hfl1 & _ & _ & Hos1 & Hc);
    assert (Hready1 : ready os1 l path)
      by (destruct Hos1 as [->|[r ->]]; [done | by eapply ready_frame]);
    assert (HT1 : ∀ c, vacant os1 path c = Some T)
      by (intros c; destruct Hfr1 as (-> & _); apply HT);
    assert (Hclk1 : clock os ≤ tick os1)
      by (destruct Hfr1 as (_ & _ & _ & _ & _ & ?);
          pose proof (tick_ge os1); lia);
    (destruct Hc as [[-> Hpos]|[t1 ->]];
     [ exists 1%nat, ErrTimeout, os1; split;
       [ simpl; apply bind_Some; exists (inl ErrTimeout), os1; split; [|done];
         unfold LockWithTimeout_body; apply bind_Some; eauto
       | right; by split_and! ] | ]);
    destruct (rival_holds os1 path (tick os1)) eqn:Hr.
  - unfold rival_holds in Hr. rewrite HT1 in Hr. lia.
  - destruct (attempt_free l path t1 os1 Hready1 Hr)
      as (os' & Hatt & _ & Hheld & Hclk).
    exists 1%nat, nil, os'. split.
    + simpl. apply bind_Some. exists (inl nil), os'. split; [|done].
      unfold LockWithTimeout_body. apply bind_Some. eauto.
    + left. split_and!; [done | | done].
      unfold rival_holds in Hr. rewrite HT1 in Hr. lia.
  - destruct (attempt_contended l path t1 os1 Hready1 Hr) as
      (os2 & Hatt & Hcalls & Hfr2 & Hfl2 & Hclk2).
    destruct (IH t1 os2) as (k & e & os' & Hloop & Hdone).
    { by eapply ready_frame. }
    { intros c. destruct Hfr2 as (-> & _). apply HT1. }
    { destruct Hfr1 as (_ & _ & _ & _ & _ & ?). unfold Millisecond in *. lia. }
    exists (S k), e, os'. split.
    + simpl. apply bind_Some. exists (inr t1), os2. split; [|done].
      unfold LockWithTimeout_body. apply bind_Some. eauto.
    + destruct Hdone as [?|(-> & ? & Hfl)]; [by left | right].
      split_and!; [done | done | congruence].
  - destruct (attempt_free l path t1 os1 Hready1 Hr)
      as (os' & Hatt & _ & Hheld & Hclk).
    exists 1%nat, nil, os'. split.
    + simpl. apply bind_Some. exists (inl nil), os'. split; [|done].
      unfold LockWithTimeout_body. apply bind_Some. eauto.
    + left. split_and!; [done | | done].
      unfold rival_holds in Hr. rewrite HT1 in Hr. lia.
Qed.

(** [Unlock] on an open descriptor, with no outside failure: it succeeds,
    and takes the lock away only from the descriptor itself. *)
Lemma Unlock_open l path os :
  fault os (length (calls os)) = None → fdtable os !! l = Some path →
  ∃ os', Lock_Unlock l os = Some (nil, os') ∧
    flocks os' = (if bool_decide (flocks os !! path = Some l)
                  then delete path (flocks os) else flocks os) ∧
    frame os os' ∧ calls os' = calls os ++ [CallFlock l LOCK_UN nil].
Proof.
  intros Hfault Hfd. unfold Lock_Unlock, syscall_Flock.
  rewrite Hfault, Hfd. simpl. eexists. split; [reflexivity|].
  pose proof (tick_ge os).
  case_bool_decide; simpl; (split_and!; [done | | done]);
    unfold frame; simpl; split_and!; done.
Qed.

(** While the lock is held through another descriptor of the process, a
    bounded [LockWithTimeout] runs out and takes nothing. *)
Lemma held_elsewhere_times_out l1 l2 path timeout os :
  l1 ≠ l2 →
  fdtable os !! l2 = Some path → flocks os !! path = Some l1 →
  faultless os → 0 < clock os →
  0 < timeout < maxDuration →
  ∃ fuel os',
    Lock_LockWithTimeout fuel l2 timeout os = Some (ErrTimeout, os') ∧
    flocks os' = flocks os.
Proof.
  intros Hne Hfd Hheld Hf Hclock Hto. unfold Lock in *.
  assert (Href : refused os l2).
  { split; [done|]. exists path. split; [done|]. left. eauto. }
  destruct (first_turn_refused l2 timeout os Href) as (os1 & Hb & Href1 & Hclk).
  pose proof (tick_ge os) as Htick.
  destruct (loop_expires (Z.to_nat (timeout + tick os - clock os1 + 1))
              l2 timeout (tick os) os1) as (k & os' & Hloop);
    [done | lia | done | lia |].
  assert (Hrun : LockWithTimeout_loop (S k) l2 timeout 0 os =
                   Some (inl ErrTimeout, os')).
  { simpl. apply bind_Some. eauto. }
  exists (S k), os'. split; [by apply LockWithTimeout_loop_inl|].
  apply loop_effects in Hrun as (Hsame & _). by apply Hsame.
Qed.

End Facts.
End UnixMore.

(** ** Facts about the LockFileEx backend *)

Module WindowsFacts.
Import Windows.

Section Facts.
Context `{Platform}.

Implicit Types (os : OS) (l h : Z) (timeout : Duration).

Lemma Lock_Lock_eq l : Lock_Lock l = locked_wait l INFINITE.
Proof. reflexivity. Qed.

Lemma Lock_LockWithTimeout_eq l timeout :
  Lock_LockWithTimeout l timeout =
  locked_wait l (uint32 (Nanoseconds timeout `quot` 1000)).
Proof. reflexivity. Qed.

(** The handle the kernel hands out next is in use by nothing, and is not
    NULL. *)
Lemma fresh_handle_above (hs : gmap Z Object) h :
  is_Some (hs !! h) → h < fresh_handle hs.
Proof.
  intros Hin%elem_of_dom%elem_of_elements. unfold fresh_handle.
  induction (elements (dom hs)) as [|x xs IH]; [by apply elem_of_nil in Hin|].
  apply elem_of_cons in Hin as [->|Hin]; simpl; [lia|].
  specialize (IH Hin). lia.
Qed.

Lemma fresh_handle_fresh (hs : gmap Z Object) : hs !! fresh_handle hs = None.
Proof.
  destruct (hs !! fresh_handle hs) eqn:Hl; [|done].
  pose proof (fresh_handle_above hs (fresh_handle hs)) as Hlt.
  rewrite Hl in Hlt. specialize (Hlt (mk_is_Some _ _ eq_refl)). lia.
Qed.

Lemma fresh_handle_pos (hs : gmap Z Object) : 0 < fresh_handle hs.
Proof.
  unfold fresh_handle. induction (elements (dom hs)); simpl; lia.
Qed.

(** *** The run that reaches the wait *)

Lemma locked_wait_waits l ms os r1 e1 r0 e0 :
  let n := length (calls os) in
  let h := fresh_handle (handles os) in
  fault os n = None →
  h ≠ InvalidHandle →
  reply os (S n) = Some (r1, e1) → r1 ≠ 0 →
  reply os (S (S n)) = Some (r0, e0) →
  ∃ os',
    locked_wait l ms os =
      Some (raw_error (r0 `mod` 2 ^ 32 =? WAIT_FAILED) e0, os') ∧
    calls os' = calls os ++ waited_log l h ms r1 e1 r0 e0 ∧
    handles os' = handles os ∧ files os' = files os.
Proof.
  intros n h Hfault Hh Hlock Hr1 Hwait.
  unfold locked_wait, newOverlapped, createEvent, lockFileEx,
    syscall_WaitForSingleObject, syscall_CloseHandle, syscall_Syscall6,
    mbind, Sys_bind, mret, Sys_ret.
  subst n. simpl. rewrite Hfault. simpl. fold h.
  destruct (Z.eqb_spec h InvalidHandle) as [|_]; [done|]. simpl.
  rewrite ?length_app, ?Nat.add_1_r. simpl. rewrite Hlock. simpl.
  destruct (Z.eqb_spec r1 0) as [|_]; [done|]. simpl.
  rewrite ?length_app, ?Nat.add_1_r. simpl. rewrite Hwait. simpl.
  pose proof (fresh_handle_pos (handles os)) as Hpos. fold h in Hpos.
  destruct (Z.eqb_spec h 0) as [|_]; [lia|].
  rewrite lookup_insert_eq. simpl.
  eexists. split; [reflexivity|]. simpl.
  split_and!; [by rewrite <- !app_assoc | | done].
  apply delete_insert_id, fresh_handle_fresh.
Qed.

(** *** What no run touches *)

(** Creating the event logs one call; it adds at most the handle it
    answers, which was not in use. *)
Lemma newOverlapped_inv os ol err os1 :
  newOverlapped os = Some ((ol, err), os1) →
  ∃ r0 e1,
    calls os1 = calls os ++ [CallSyscall6 procCreateEventW 4 event_args r0 e1] ∧
    files os1 = files os ∧ reply os1 = reply os ∧
    (r0 = 0 ∧ handles os1 = handles os
     ∨ r0 = fresh_handle (handles os) ∧
       handles os1 = <[r0 := EventObject]> (handles os)) ∧
    (err = nil ∧ ol = Some (mkOverlapped 0 0 0 0 r0)
     ∨ (∃ n, err = Some (Errno n)) ∧ ol = None).
Proof.
  unfold newOverlapped, createEvent.
  intros ([event err1] & os2 & Hce & Hrest)%bind_Some.
  apply bind_Some in Hce as ([r0 e1] & os3 & Hsys & Hce).
  exists r0, e1.
  assert (Hsys' : calls os3 = calls os ++
             [CallSyscall6 procCreateEventW 4 event_args r0 e1] ∧
           files os3 = files os ∧ reply os3 = reply os ∧
           (r0 = 0 ∧ handles os3 = handles os
            ∨ r0 = fresh_handle (handles os) ∧
              handles os3 = <[r0 := EventObject]> (handles os))).
  { unfold syscall_Syscall6 in Hsys. simpl in Hsys.
    destruct (fault os (length (calls os))); simplify_eq/=; eauto 10. }
  destruct Hsys' as (Hc & Hf & Hr & Hh).
  assert (event = r0 ∧ os2 = os3 ∧
          (err1 = nil ∨ ∃ n, err1 = Some (Errno n))) as (-> & -> & Herr).
  { destruct (r0 =? InvalidHandle); [destruct (negb (e1 =? 0))|];
      apply ret_Some in Hce as [[= <- <-] <-];
      (split; [done|split; [done|]]); [right | right | left]; eauto. }
  unfold error_eqb in Hrest.
  destruct Herr as [->|[n ->]].
  - rewrite bool_decide_eq_true_2 in Hrest by done.
    apply ret_Some in Hrest as [[= <- <-] <-]. split_and!; try done. by left.
  - rewrite bool_decide_eq_false_2 in Hrest by done.
    apply ret_Some in Hrest as [[= <- <-] <-]. split_and!; try done.
    right. eauto.
Qed.

(** A lock or unlock request logs one call and changes nothing else. *)
Lemma lockFileEx_inv h flags reserved locklow lockhigh ol os err os' :
  lockFileEx h flags reserved locklow lockhigh ol os = Some (err, os') →
  ∃ r1 e1,
    reply os (length (calls os)) = Some (r1, e1) ∧
    err = raw_error (r1 =? 0) e1 ∧
    os' = returns (CallSyscall6 procLockFileEx 6
            [Word h; Word flags; Word reserved; Word locklow; Word lockhigh;
             uintptr ToOverlapped ol] r1 e1) os.
Proof.
  unfold lockFileEx.
  intros ([r1 e1] & os1 & Hsys & Hrest)%bind_Some. exists r1, e1.
  unfold syscall_Syscall6 in Hsys. simpl in Hsys.
  destruct (reply os (length (calls os))) as [[r1' e1']|]; simplify_eq/=.
  unfold raw_error.
  destruct (r1 =? 0); [destruct (negb (e1 =? 0))|];
    apply ret_Some in Hrest as [<- <-]; done.
Qed.

Lemma unlockFileEx_inv h reserved locklow lockhigh ol os err os' :
  unlockFileEx h reserved locklow lockhigh ol os = Some (err, os') →
  ∃ r1 e1,
    reply os (length (calls os)) = Some (r1, e1) ∧
    err = raw_error (r1 =? 0) e1 ∧
    os' = returns (CallSyscall6 procUnlockFileEx 5
            [Word h; Word reserved; Word locklow; Word lockhigh;
             uintptr ToOverlapped ol; Word 0] r1 e1) os.
Proof.
  unfold unlockFileEx.
  intros ([r1 e1] & os1 & Hsys & Hrest)%bind_Some. exists r1, e1.
  unfold syscall_Syscall6 in Hsys. simpl in Hsys.
  destruct (reply os (length (calls os))) as [[r1' e1']|]; simplify_eq/=.
  unfold raw_error.
  destruct (r1 =? 0); [destruct (negb (e1 =? 0))|];
    apply ret_Some in Hrest as [<- <-]; done.
Qed.

(** The wait logs one call and changes nothing else; its error is that of
    a failed wait and of nothing else. *)
Lemma WaitForSingleObject_inv h ms os event err os' :
  syscall_WaitForSingleObject h ms os = Some ((event, err), os') →
  ∃ r0 e1,
    reply os (length (calls os)) = Some (r0, e1) ∧
    event = r0 `mod` 2 ^ 32 ∧
    err = raw_error (event =? WAIT_FAILED) e1 ∧
    os' = returns (CallWaitForSingleObject h ms r0 e1) os.
Proof.
  unfold syscall_WaitForSingleObject.
  destruct (reply os (length (calls os))) as [[r0 e1]|]; [|done].
  intros [= <- <- <-]. by exists r0, e1.
Qed.

(** Closing logs one call and removes at most the handle closed. *)
Lemma CloseHandle_inv h os err os' :
  syscall_CloseHandle h os = Some (err, os') →
  calls os' = calls os ++ [CallCloseHandle h err] ∧
  files os' = files os ∧
  ∀ l, l ≠ h → handles os' !! l = handles os !! l.
Proof.
  unfold syscall_CloseHandle.
  destruct (if h =? 0 then None else handles os !! h);
    intros [= <- <-]; simpl; split_and!; try done.
  intros l Hl. by rewrite lookup_delete_ne.
Qed.

Lemma locked_wait_frame l path ms os e os' :
  valid os l path →
  locked_wait l ms os = Some (e, os') →
  handles os' !! l = handles os !! l ∧ files os' = files os ∧
  ∃ cs, calls os' = calls os ++ cs ∧ Forall (on_handle l) cs.
Proof.
  intros [Hnz Hl] Hrun. unfold Lock in *.
  pose proof (fresh_handle_fresh (handles os)) as Hfresh.
  assert (Hne : fresh_handle (handles os) ≠ l).
  { intros Heq. rewrite Heq, Hl in Hfresh. done. }
  unfold locked_wait in Hrun.
  apply bind_Some in Hrun as ([ol err] & os1 & Hnew & Hrun).
  apply newOverlapped_inv in Hnew as
    (r0 & e1 & Hc1 & Hf1 & _ & Hh1 & Herr).
  assert (Hr0 : r0 ≠ l) by (destruct Hh1 as [[-> _]|[-> _]]; done).
  assert (Hl1 : handles os1 !! l = handles os !! l).
  { destruct Hh1 as [[_ ->]|[_ ->]]; [done|]. by rewrite lookup_insert_ne. }
  unfold error_eqb in Hrun.
  destruct Herr as [[-> ->]|[[n' ->] ->]].
  2:{ rewrite bool_decide_eq_false_2 in Hrun by done.
      apply ret_Some in Hrun as [<- <-]. split_and!; [done..|].
      eexists. split; [done|].
      apply Forall_cons_2; [by left | apply Forall_nil_2]. }
  rewrite bool_decide_eq_true_2 in Hrun by done. simpl in Hrun.
  apply bind_Some in Hrun as (result & os2 & Hbody & Hrun).
  apply bind_Some in Hrun as (cerr & os3 & Hclose & [<- <-]%ret_Some).
  apply CloseHandle_inv in Hclose as (Hc3 & Hf3 & Hh3).
  apply bind_Some in Hbody as (lerr & os4 & Hlock & Hbody).
  apply lockFileEx_inv in Hlock as (r1 & e1' & _ & _ & ->).
  assert (Hon : on_handle l (CallSyscall6 procLockFileEx 6
     [Word l; Word lockfileExclusiveLock; Word 0; Word 1; Word 0;
      Ptr (ToOverlapped (mkOverlapped 0 0 0 0 r0))] r1 e1')).
  { right. split; [by left | done]. }
  destruct (negb (bool_decide (lerr = nil))).
  - apply ret_Some in Hbody as [<- <-].
    split_and!; [by rewrite Hh3 | by rewrite Hf3 |].
    eexists. split.
    + rewrite Hc3. simpl. rewrite Hc1, <- !app_assoc. reflexivity.
    + repeat first [apply Forall_nil_2 | apply Forall_cons_2];
        first [by left | exact Hon | done].
  - apply bind_Some in Hbody as ([event werr] & os5 & Hwait & [<- <-]%ret_Some).
    apply WaitForSingleObject_inv in Hwait as (w0 & w1 & _ & _ & _ & ->).
    split_and!; [by rewrite Hh3 | by rewrite Hf3 |].
    eexists. split.
    + rewrite Hc3. simpl. rewrite Hc1, <- !app_assoc. reflexivity.
    + repeat first [apply Forall_nil_2 | apply Forall_cons_2];
        first [by left | exact Hon | done].
Qed.

Lemma raw_error_shape (failed : bool) (e1 : Z) :
  raw_error failed e1 = nil ∨ ∃ n, raw_error failed e1 = Some (Errno n).
Proof.
  unfold raw_error. destruct failed; [destruct (negb _)|]; eauto.
Qed.

(** The errors of the operations are errnos. *)
Lemma locked_wait_result l ms os e os' :
  locked_wait l ms os = Some (e, os') → e = nil ∨ ∃ n, e = Some (Errno n).
Proof.
  unfold locked_wait.
  intros ([ol err] & os1 & Hnew & Hrun)%bind_Some.
  apply newOverlapped_inv in Hnew as (r0 & x1 & _ & _ & _ & _ & Herr).
  unfold error_eqb in Hrun.
  destruct Herr as [[-> ->]|[[n ->] ->]].
  2:{ rewrite bool_decide_eq_false_2 in Hrun by done.
      apply ret_Some in Hrun as [<- _]. eauto. }
  rewrite bool_decide_eq_true_2 in Hrun by done. simpl in Hrun.
  apply bind_Some in Hrun as (result & os2 & Hbody & Hrun).
  apply bind_Some in Hrun as (cerr & os3 & _ & [<- _]%ret_Some).
  apply bind_Some in Hbody as (lerr & os4 & Hlock & Hbody).
  apply lockFileEx_inv in Hlock as (r1 & e1 & _ & -> & _).
  destruct (negb (bool_decide (raw_error (r1 =? 0) e1 = nil))).
  - apply ret_Some in Hbody as [<- _]. apply raw_error_shape.
  - apply bind_Some in Hbody as ([event werr] & os5 & Hwait & [<- _]%ret_Some).
    apply WaitForSingleObject_inv in Hwait as (w0 & e0 & _ & _ & -> & _).
    apply raw_error_shape.
Qed.

Lemma CreateFile_result name access mode sa createmode attrs templatefile
    os h e os' :
  syscall_CreateFile name access mode sa createmode attrs templatefile os =
    Some ((h, e), os') →
  e = nil ∨ ∃ n, e = Some (Errno n).
Proof.
  unfold syscall_CreateFile. intros Hcf.
  repeat (match type of Hcf with
          | context [match ?x with _ => _ end] => destruct x
          end; simpl in Hcf);
    injection Hcf as _ <- _; eauto.
Qed.

Lemma New_error_is_errno (filename : string) os l e os' :
  New filename os = Some ((l, e), os') → e = nil ∨ ∃ n, e = Some (Errno n).
Proof.
  unfold New, syscall_UTF16PtrFromString.
  destruct (existsb _ _); simpl.
  { intros [[= _ <-] _]%ret_Some. eauto. }
  intros ([h err] & os1 & Hcf%CreateFile_result & Hrest)%bind_Some.
  destruct (negb (error_eqb err nil));
    apply ret_Some in Hrest as [[= _ <-] _]; eauto.
Qed.

(** [Unlock] is one unlock request on [l], on the byte the lock request
    names, and nothing else. *)
Lemma Unlock_one_request l os e os' :
  Lock_Unlock l os = Some (e, os') →
  handles os' = handles os ∧ files os' = files os ∧
  ∃ r1 e1,
    calls os' = calls os ++
      [CallSyscall6 procUnlockFileEx 5
         [Word l; Word 0; Word 1; Word 0; Word 0; Word 0] r1 e1] ∧
    e = raw_error (r1 =? 0) e1.
Proof.
  unfold Lock_Unlock. intros (r1 & e1 & _ & -> & ->)%unlockFileEx_inv.
  split_and!; [done..|]. by exists r1, e1.
Qed.

(** *** Construction *)

Lemma UTF16PtrFromString_plain (s : string) :
  existsb (Ascii.eqb Ascii.zero) (String.list_ascii_of_string s) = false →
  syscall_UTF16PtrFromString s = (Some s, nil).
Proof. unfold syscall_UTF16PtrFromString. by intros ->. Qed.

(** [New] on a path that exists fails with [ERROR_FILE_EXISTS], and opens
    nothing. *)
Lemma New_refuses_existing (filename : string) os :
  existsb (Ascii.eqb Ascii.zero) (String.list_ascii_of_string filename) = false →
  fault os (length (calls os)) = None →
  filename ∈ files os →
  New filename os =
    Some ((0, Some (Errno ERROR_FILE_EXISTS)),
          returns (CallCreateFile filename
                     (Z.lor GENERIC_READ GENERIC_WRITE)
                     (Z.lor FILE_SHARE_READ FILE_SHARE_WRITE)
                     CREATE_NEW FILE_FLAG_OVERLAPPED
                     InvalidHandle (Some (Errno ERROR_FILE_EXISTS))) os).
Proof.
  intros Hnul Hfault Hin. unfold New.
  rewrite (UTF16PtrFromString_plain _ Hnul). simpl.
  unfold syscall_CreateFile, mbind, Sys_bind. simpl.
  rewrite Hfault. rewrite bool_decide_eq_true_2 by done. done.
Qed.

(** [New] on a path that does not exist creates the file and returns a
    valid handle on it. *)
Lemma New_absent (filename : string) os :
  existsb (Ascii.eqb Ascii.zero) (String.list_ascii_of_string filename) = false →
  fault os (length (calls os)) = None →
  filename ∉ files os →
  ∃ l os', New filename os = Some ((l, nil), os') ∧
    valid os' l filename ∧ filename ∈ files os' ∧
    handles os !! l = None.
Proof.
  intros Hnul Hfault Hin. unfold New.
  rewrite (UTF16PtrFromString_plain _ Hnul). simpl.
  unfold syscall_CreateFile, mbind, Sys_bind. simpl.
  rewrite Hfault. rewrite bool_decide_eq_false_2 by done. simpl.
  eexists _, _. split; [reflexivity|]. simpl.
  pose proof (fresh_handle_pos (handles os)).
  split_and!; [split; [lia | simpl; by rewrite lookup_insert_eq]
              | set_solver |].
  apply fresh_handle_fresh.
Qed.

End Facts.
End WindowsFacts.

(** ** More facts about the LockFileEx backend *)

Module WindowsMore.
Import Windows WindowsFacts.

Section Facts.
Context `{Platform}.

Implicit Types (os : OS) (l h : Z) (timeout : Duration).

(** The creation of the event, by the way it ends: the kernel fails it and
    answers NULL, or it answers a handle that was not in use. *)
Lemma CreateEventW_inv nargs args os r0 e1 os1 :
  syscall_Syscall6 (Addr procCreateEventW) nargs args os = Some ((r0, e1), os1) →
  os1 = returns (CallSyscall6 procCreateEventW nargs args r0 e1)
          (set_objects (files os)
             (if decide (r0 = 0) then handles os
              else <[r0 := EventObject]> (handles os)) os) ∧
  ( fault os (length (calls os)) = Some e1 ∧ r0 = 0
  ∨ fault os (length (calls os)) = None ∧ r0 = fresh_handle (handles os) ∧
    e1 = 0 ).
Proof.
  unfold syscall_Syscall6. simpl.
  pose proof (fresh_handle_pos (handles os)).
  destruct (fault os (length (calls os))) as [e|]; intros [= <- <- <-]; simpl.
  - split; [|by left]. by destruct os.
  - split; [|by right]. rewrite decide_False by lia. done.
Qed.

(** [newOverlapped] reports an error exactly when the answer is
    [InvalidHandle]. *)
Lemma newOverlapped_cases os ol err os1 :
  newOverlapped os = Some ((ol, err), os1) →
  ∃ r0 e1,
    syscall_Syscall6 (Addr procCreateEventW) 4 event_args os =
      Some ((r0, e1), os1) ∧
    ( r0 ≠ InvalidHandle ∧ err = nil ∧ ol = Some (mkOverlapped 0 0 0 0 r0)
    ∨ r0 = InvalidHandle ∧ err = raw_error true e1 ∧ ol = None ).
Proof.
  unfold newOverlapped, createEvent.
  intros ([event err1] & os2 & Hce & Hrest)%bind_Some.
  apply bind_Some in Hce as ([r0 e1] & os3 & Hsys & Hce).
  exists r0, e1. unfold raw_error, error_eqb in *.
  destruct (Z.eqb_spec r0 InvalidHandle) as [Heq|Hne].
  - destruct (negb (e1 =? 0));
      apply ret_Some in Hce as [[= <- <-] <-];
      rewrite bool_decide_eq_false_2 in Hrest by done;
      apply ret_Some in Hrest as [[= <- <-] <-]; (split; [done|by right]).
  - apply ret_Some in Hce as [[= <- <-] <-].
    rewrite bool_decide_eq_true_2 in Hrest by done.
    apply ret_Some in Hrest as [[= <- <-] <-]. split; [done|by left].
Qed.

(** Closing removes the handle closed, if it was one. *)
Lemma CloseHandle_table h os err os' :
  syscall_CloseHandle h os = Some (err, os') →
  handles os' = (if decide (h = 0) then handles os else delete h (handles os)) ∧
  files os' = files os ∧
  calls os' = calls os ++ [CallCloseHandle h err].
Proof.
  unfold syscall_CloseHandle.
  destruct (Z.eqb_spec h 0) as [->|Hnz].
  - intros [= <- <-]. done.
  - rewrite decide_False by done.
    destruct (handles os !! h) eqn:Hl; intros [= <- <-]; simpl;
      (split_and!; [|done..]); [done|].
    symmetry. by apply delete_id.
Qed.

(** [Lock] and [LockWithTimeout] leak no handle: unless the handle handed
    out is the very value [InvalidHandle], the handle table and the files
    are after the call what they were before it, however the call ends. *)
Lemma locked_wait_no_leak l ms os e os' :
  fresh_handle (handles os) ≠ InvalidHandle →
  locked_wait l ms os = Some (e, os') →
  handles os' = handles os ∧ files os' = files os.
Proof.
  intros Hfresh Hrun. unfold locked_wait in Hrun.
  apply bind_Some in Hrun as ([ol err] & os1 & Hnew & Hrun).
  apply newOverlapped_cases in Hnew as (r0 & e1 & Hsys & Hcases).
  apply CreateEventW_inv in Hsys as (Hos1 & Hr0).
  unfold error_eqb in Hrun.
  destruct Hcases as [(Hne & -> & ->)|(Heq & -> & ->)].
  2:{ assert (Hne : raw_error true e1 ≠ nil)
        by (unfold raw_error, nil; simpl; destruct (negb (e1 =? 0)); done).
      rewrite bool_decide_eq_false_2 in Hrun by done. simpl in Hrun.
      apply ret_Some in Hrun as [_ <-].
      destruct Hr0 as [[_ ->]|[_ [-> _]]]; [|done].
      rewrite Hos1. done. }
  rewrite bool_decide_eq_true_2 in Hrun by done. simpl in Hrun.
  apply bind_Some in Hrun as (result & os2 & Hbody & Hrun).
  apply bind_Some in Hrun as (cerr & os3 & Hclose & [_ <-]%ret_Some).
  apply CloseHandle_table in Hclose as (Hh3 & Hf3 & _).
  assert (Hos2 : handles os2 = handles os1 ∧ files os2 = files os1).
  { apply bind_Some in Hbody as (lerr & os4 & Hlock & Hbody).
    apply lockFileEx_inv in Hlock as (r1 & e1' & _ & _ & ->).
    destruct (negb (bool_decide (lerr = nil))).
    - by apply ret_Some in Hbody as [_ <-].
    - apply bind_Some in Hbody as ([event werr] & os5 & Hwait & [_ <-]%ret_Some).
      by apply WaitForSingleObject_inv in Hwait as (w0 & w1 & _ & _ & _ & ->). }
  destruct Hos2 as [Hh2 Hf2].
  rewrite Hh3, Hf3, Hh2, Hf2, Hos1. simpl. split; [|done].
  destruct (decide (r0 = 0)) as [->|Hnz]; [done|].
  apply delete_insert_id.
  destruct Hr0 as [[_ ?]|[_ [-> _]]]; [done|]. apply fresh_handle_fresh.
Qed.

(** The run whose lock request answers failure: no wait is made, the
    error is that of the request, and the event is closed all the same. *)
Lemma locked_wait_refused l ms os e1 :
  let n := length (calls os) in
  let h := fresh_handle (handles os) in
  fault os n = None →
  h ≠ InvalidHandle →
  reply os (S n) = Some (0, e1) →
  ∃ os',
    locked_wait l ms os = Some (raw_error true e1, os') ∧
    calls os' = calls os ++ refused_log l h e1 ∧
    handles os' = handles os.
Proof.
  intros n h Hfault Hh Hlock.
  unfold locked_wait, newOverlapped, createEvent, lockFileEx,
    syscall_CloseHandle, syscall_Syscall6, mbind, Sys_bind, mret, Sys_ret.
  subst n. simpl. rewrite Hfault. simpl. fold h.
  destruct (Z.eqb_spec h InvalidHandle) as [|_]; [done|]. simpl.
  rewrite ?length_app, ?Nat.add_1_r. simpl. rewrite Hlock. simpl.
  pose proof (fresh_handle_pos (handles os)) as Hpos. fold h in Hpos.
  unfold raw_error.
  destruct (negb (e1 =? 0)); simpl;
    (destruct (Z.eqb_spec h 0) as [|_]; [lia|]);
    rewrite lookup_insert_eq; simpl;
    (eexists; split; [reflexivity|]); simpl;
    (split; [by rewrite <- !app_assoc
            | apply delete_insert_id, fresh_handle_fresh]).
Qed.

(** The run whose event the kernel fails to create: the failure goes
    unnoticed, NULL not being [InvalidHandle], and the request and the
    wait are made with the NULL event. *)
Lemma locked_wait_eventless l ms os e r1 e1 r0 e0 :
  let n := length (calls os) in
  InvalidHandle ≠ 0 →
  fault os n = Some e →
  reply os (S n) = Some (r1, e1) → r1 ≠ 0 →
  reply os (S (S n)) = Some (r0, e0) →
  ∃ os',
    locked_wait l ms os =
      Some (raw_error (r0 `mod` 2 ^ 32 =? WAIT_FAILED) e0, os') ∧
    calls os' = calls os ++ eventless_log l e ms r1 e1 r0 e0 ∧
    handles os' = handles os.
Proof.
  intros n Hinv Hfault Hlock Hr1 Hwait.
  unfold locked_wait, newOverlapped, createEvent, lockFileEx,
    syscall_WaitForSingleObject, syscall_CloseHandle, syscall_Syscall6,
    mbind, Sys_bind, mret, Sys_ret.
  subst n. remember InvalidHandle as invalid eqn:Hinvalid.
  destruct invalid as [|p|p]; [done|..]; simpl; rewrite Hfault; simpl;
    rewrite ?length_app, ?Nat.add_1_r; simpl; rewrite Hlock; simpl;
    (destruct (Z.eqb_spec r1 0) as [|_]; [done|]); simpl;
    rewrite ?length_app, ?Nat.add_1_r; simpl; rewrite Hwait; simpl;
    (eexists; split; [reflexivity|]); simpl;
    (split; [by rewrite <- !app_assoc | done]).
Qed.

(** [New], by the way it ends. *)
Lemma New_cases (filename : string) os l e os' :
  New filename os = Some ((l, e), os') →
  e = nil ∧ l = fresh_handle (handles os) ∧ (filename ∉ files os) ∧
    (existsb (Ascii.eqb Ascii.zero) (String.list_ascii_of_string filename)
      = false) ∧
    handles os' = <[l := FileObject filename]> (handles os) ∧
    files os' = {[filename]} ∪ files os ∧
    reply os' = reply os ∧ fault os' = fault os ∧
    length (calls os') = S (length (calls os))
  ∨ (∃ n, e = Some (Errno n)) ∧ l = 0 ∧
    handles os' = handles os ∧ files os' = files os.
Proof.
  unfold New, syscall_UTF16PtrFromString.
  destruct (existsb _ _); simpl.
  { intros [[= <- <-] <-]%ret_Some. right. eauto. }
  unfold syscall_CreateFile, mbind, Sys_bind. simpl.
  destruct (fault os (length (calls os))); simpl.
  { intros [= <- <- <-]. right. eauto. }
  case_bool_decide as Hin; simpl; intros [= <- <- <-]; simpl.
  - right. eauto.
  - left. rewrite length_app, Nat.add_1_r. done.
Qed.

(** [New] always returns. *)
Lemma New_total (filename : string) os :
  ∃ l e os', New filename os = Some ((l, e), os').
Proof.
  unfold New, syscall_UTF16PtrFromString.
  destruct (existsb _ _); simpl; [by eexists _, _, _|].
  unfold syscall_CreateFile, mbind, Sys_bind. simpl.
  destruct (fault os (length (calls os))); simpl; [by eexists _, _, _|].
  case_bool_decide; simpl; by eexists _, _, _.
Qed.

(** [New] makes no call but its one [CreateFile], if it makes a call. *)
Lemma New_log (filename : string) os l e os' :
  New filename os = Some ((l, e), os') →
  ∃ cs, calls os' = calls os ++ cs ∧
    ∀ c, c ∈ cs → ∃ path access mode createmode attrs h err,
      c = CallCreateFile path access mode createmode attrs h err.
Proof.
  unfold New, syscall_UTF16PtrFromString.
  destruct (existsb _ _); simpl.
  { intros [_ <-]%ret_Some. exists []. rewrite app_nil_r.
    split; [done|]. by intros c ?%elem_of_nil. }
  intros ([h err] & os1 & Hcf & Hrest)%bind_Some.
  assert (os' = os1) as ->.
  { destruct (negb (error_eqb err nil));
      by apply ret_Some in Hrest as [_ <-]. }
  exists [CallCreateFile filename (Z.lor GENERIC_READ GENERIC_WRITE)
            (Z.lor FILE_SHARE_READ FILE_SHARE_WRITE) CREATE_NEW
            FILE_FLAG_OVERLAPPED h err].
  split.
  - unfold syscall_CreateFile in Hcf. simpl in Hcf.
    repeat (match type of Hcf with
            | context [match ?x with _ => _ end] => destruct x
            end; simpl in Hcf);
      injection Hcf as <- <- <-; reflexivity.
  - intros c ->%list_elem_of_singleton. by eexists _, _, _, _, _, _, _.
Qed.

(** A name with a NUL in it is refused before any call is made. *)
Lemma New_NUL (filename : string) os :
  existsb (Ascii.eqb Ascii.zero) (String.list_ascii_of_string filename) = true →
  New filename os = Some ((0, Some (Errno EINVAL)), os).
Proof. unfold New, syscall_UTF16PtrFromString. by intros ->. Qed.




End Facts.
End WindowsMore.

(** ** The package's contract *)

Module Contract.

Section Flock.
Import Unix UnixFacts.
Context `{Platform}.

(** C5. On the flock backend, [LockWithTimeout] makes one non-blocking lock
    attempt before any elapsed-time check, for every timeout, zero and
    negative included: whatever the environment does, the calls of a run of
    one turn or more start with the reading of the clock that records the
    start, followed at once by the request.  Consequently a call on a lock
    no one holds returns [nil] whatever the timeout, after those two calls
    and holding the lock. *)
Theorem attempt_precedes_every_check
    (l : Lock) (timeout : Duration) (os : OS) (fuel : nat) :
  (∃ c os' e cs,
      LockWithTimeout_loop (S fuel) l timeout 0 os = Some (c, os') ∧
      calls os' = calls os ++ CallNow (tick os) :: CallFlock l EXNB e :: cs) ∧
  (∀ path,
      ready os l path →
      (∀ c, clock os ≤ c → rival_holds os path c = false) →
      ∃ os',
        Lock_LockWithTimeout (S fuel) l timeout os = Some (nil, os') ∧
        calls os' = calls os ++ [CallNow (tick os); CallFlock l EXNB nil] ∧
        flocks os' !! path = Some l).
Proof.
  set (os0 := returns (tick os) (CallNow (tick os)) os).
  split.
  - destruct (attempt_returns l (tick os) os0) as (c1 & os1 & Hatt).
    pose proof (attempt_spec _ _ _ _ _ Hatt) as (e & os2 & Hflock & Hcases).
    pose proof (flock_calls _ _ _ _ _ Hflock) as Hc2.
    assert (Hc1 : ∃ cs1, calls os1 = calls os ++
                   CallNow (tick os) :: CallFlock l EXNB e :: cs1).
    { destruct Hcases as [(_ & _ & ->)|[(_ & _ & ->)|(_ & _ & ->)]]; simpl;
        rewrite Hc2; simpl; rewrite <- !app_assoc; eauto. }
    destruct Hc1 as (cs1 & Hc1).
    destruct c1 as [e1|t1].
    + exists (inl e1), os1, e, cs1. split; [|done].
      simpl. apply bind_Some. exists (inl e1), os1. by rewrite body_first.
    + destruct (loop_returns fuel l timeout t1 os1) as (c & os' & Hloop).
      pose proof (loop_log _ _ _ _ _ _ _ Hloop) as (_ & cs & Hcs & _).
      exists c, os', e, (cs1 ++ cs). split.
      * simpl. apply bind_Some. exists (inr t1), os1. by rewrite body_first.
      * rewrite Hcs, Hc1, <- app_assoc. done.
  - intros path Hready Hfree.
    destruct (attempt_free l path (tick os) os0) as (os' & Hatt & Hcalls & Hheld & _).
    { by apply ready_now. }
    { rewrite (rival_frame os os0) by apply frame_returns, tick_ge.
      apply Hfree. pose proof (tick_ge os). pose proof (tick_ge os0) as Ht0.
      unfold os0 in Ht0 at 1. simpl in Ht0. lia. }
    exists os'. split_and!; [|by rewrite Hcalls; simpl; rewrite <- app_assoc|done].
    apply LockWithTimeout_loop_inl. simpl. apply bind_Some.
    exists (inl nil), os'. by rewrite body_first.
Qed.

(** C8. On the flock backend, [LockWithTimeout] returns the sentinel only
    when the timeout is strictly positive and the time elapsed since the
    start it recorded just before its first attempt strictly exceeds the
    timeout: the run ends on an elapsed-time check that read more than the
    timeout, and on return the clock is more than the timeout past that
    start, hence past the instant of the call. *)
Theorem sentinel_only_past_the_deadline
    (fuel : nat) (l : Lock) (timeout : Duration) (os os' : OS) :
  Lock_LockWithTimeout fuel l timeout os = Some (ErrTimeout, os') →
  0 < timeout ∧
  timeout < clock os' - tick os ∧
  timeout < clock os' - clock os ∧
  ∃ e cs t d,
    calls os' = calls os ++ CallNow (tick os) :: CallFlock l EXNB e :: cs ∧
    last cs = Some (CallSince t d) ∧ timeout < d.
Proof.
  intros Hrun%LockWithTimeout_loop_inl.
  destruct fuel as [|k]; [by apply ret_Some in Hrun as [? _]|].
  simpl in Hrun. apply bind_Some in Hrun as (c1 & os1 & Hb & Hrest).
  rewrite body_first in Hb.
  set (os0 := returns (tick os) (CallNow (tick os)) os) in *.
  apply attempt_spec in Hb as (e & os2 & Hflock & Hcases).
  pose proof (flock_frame _ _ _ _ _ Hflock) as (_ & _ & _ & _ & _ & Hclk2).
  pose proof (flock_calls _ _ _ _ _ Hflock) as Hc2.
  destruct Hcases as [(_ & -> & _)|[([n [-> _]] & -> & _)|(-> & -> & ->)]].
  { by apply ret_Some in Hrest as [? _]. }
  { by apply ret_Some in Hrest as [? _]. }
  pose proof (loop_timeout _ _ _ _ _ _ Hrest) as [Hpos Hlate].
  pose proof (loop_log _ _ _ _ _ _ _ Hrest) as (_ & cs & Hcs & Hlog).
  apply run_log_timeout in Hlog as (t & d & Hlast & Hd).
  assert (Hstart : timeout < clock os' - tick os).
  { apply Hlate; [|by right]. simpl. pose proof (tick_ge os2).
    simpl in Hclk2. unfold Millisecond. lia. }
  pose proof (tick_ge os).
  split_and!; [done | done | lia |].
  exists WouldBlock, (CallSleep (50 * Millisecond) :: cs), t, d.
  split_and!; [| |done].
  - rewrite Hcs. simpl. rewrite Hc2. simpl. rewrite <- !app_assoc. done.
  - rewrite last_cons, Hlast. done.
Qed.

(** C10. On the flock backend, for every timeout less than or equal to
    zero [LockWithTimeout] never returns the sentinel: a run that returns
    gives [nil] or an errno other than [EWOULDBLOCK].  While another process
    holds the lock the run does not return: after any number of turns it is
    still looping, having logged one refused request and one sleep of 50ms
    per turn, so that a timeout that is not positive blocks for ever. *)
Theorem unbounded_when_timeout_not_positive
    (l : Lock) (timeout : Duration) (os : OS) :
  timeout ≤ 0 →
  (∀ fuel e os',
      Lock_LockWithTimeout fuel l timeout os = Some (e, os') →
      e ≠ ErrTimeout ∧
      (e = nil ∨ ∃ n, e = Some (Errno n) ∧ n ≠ EWOULDBLOCK)) ∧
  (∀ path,
      ready os l path → 0 < clock os →
      (∀ c, clock os ≤ c → rival_holds os path c = true) →
      ∀ fuel,
        Lock_LockWithTimeout fuel l timeout os = None ∧
        ∃ os',
          LockWithTimeout_loop (S fuel) l timeout 0 os =
            Some (inr (tick os), os') ∧
          calls os' = calls os ++ CallNow (tick os) ::
            mjoin (replicate (S fuel) [CallFlock l EXNB WouldBlock;
                                      CallSleep (50 * Millisecond)]) ∧
          clock os + Z.of_nat (S fuel) * (50 * Millisecond) ≤ clock os').
Proof.
  intros Hto. split.
  - intros fuel e os' Hrun%LockWithTimeout_loop_inl.
    apply loop_log in Hrun as (_ & cs & _ & Hlog).
    apply run_log_result in Hlog as [[_ ?]|[->|(n & -> & Hn)]]; [lia | |].
    + split; [done | by left].
    + split; [done | right; eauto].
  - intros path Hready Hclock Hheld.
    set (os0 := returns (tick os) (CallNow (tick os)) os).
    pose proof (tick_ge os) as Htick.
    assert (Hturns : ∀ fuel, ∃ os',
      LockWithTimeout_loop (S fuel) l timeout 0 os = Some (inr (tick os), os') ∧
      calls os' = calls os ++ CallNow (tick os) ::
        mjoin (replicate (S fuel) [CallFlock l EXNB WouldBlock;
                                  CallSleep (50 * Millisecond)]) ∧
      clock os + Z.of_nat (S fuel) * (50 * Millisecond) ≤ clock os').
    { intros fuel.
      destruct (attempt_contended l path (tick os) os0) as
        (os1 & Hatt & Hc1 & Hfr1 & Hfl1 & Hclk1).
      { by apply ready_now. }
      { rewrite (rival_frame os os0) by apply frame_returns, tick_ge.
        apply Hheld. pose proof (tick_ge os0) as Ht0.
        unfold os0 in Ht0 at 1. simpl in Ht0. lia. }
      assert (Hfr0 : frame os os0) by apply frame_returns, tick_ge.
      destruct (loop_contended fuel l path timeout (tick os) os1) as
        (os' & Hloop & Hcs & Hclk); [lia | done | | |].
      { eapply ready_frame; [by apply ready_now | done..]. }
      { intros c Hc. rewrite (rival_frame os0 os1), (rival_frame os os0) by done.
        apply Hheld. simpl in Hclk1. unfold Millisecond in *. lia. }
      exists os'. split_and!.
      - simpl. apply bind_Some. exists (inr (tick os)), os1.
        by rewrite body_first.
      - rewrite Hcs, Hc1. simpl. rewrite <- !app_assoc. done.
      - simpl in Hclk1. unfold Millisecond in *. lia. }
    intros fuel. split; [|apply Hturns].
    unfold Lock_LockWithTimeout. destruct fuel as [|k]; [done|].
    by destruct (Hturns k) as (os' & -> & _).
Qed.

(** C1, as the code has it.  With a timeout of zero on a handle whose lock
    another process holds, [LockWithTimeout] does not fail after one
    attempt: it sleeps 50ms after each attempt that would block and tries
    again.  When the holder lets go at instant [T], the call returns [nil],
    not before [T], and no run of it returns anything else; when the holder
    never lets go, the call never returns. *)
Theorem zero_timeout_polls_until_granted
    (l : Lock) (path : string) (release : option Time) (os : OS) :
  ready os l path →
  (∀ c, vacant os path c = release) →
  rival_holds os path (clock os) = true →
  match release with
  | Some T =>
      (∃ fuel os',
          Lock_LockWithTimeout fuel l 0 os = Some (nil, os') ∧
          T ≤ clock os' ∧ flocks os' !! path = Some l) ∧
      (∀ fuel e os',
          Lock_LockWithTimeout fuel l 0 os = Some (e, os') →
          e = nil ∧ clock os < clock os')
  | None => ∀ fuel, Lock_LockWithTimeout fuel l 0 os = None
  end.
Proof.
  intros Hready Hv Hheld. destruct release as [T|].
  - assert (HT : clock os < T).
    { unfold rival_holds in Hheld. rewrite Hv in Hheld. lia. }
    destruct (loop_released (Z.to_nat (T - clock os)) l path 0 T 0 os)
      as (k & os1 & Hloop & Hclk & Hfl); [lia | done | done | lia |].
    apply LockWithTimeout_loop_inl in Hloop.
    split; [by exists k, os1|].
    intros fuel e os' Hrun.
    apply (LockWithTimeout_more_fuel _ k) in Hrun.
    apply (LockWithTimeout_more_fuel _ fuel) in Hloop.
    rewrite Nat.add_comm, Hloop in Hrun. injection Hrun as <- <-.
    split; [done | lia].
  - intros fuel. unfold Lock_LockWithTimeout.
    destruct (loop_never_returns fuel l path 0 0 os) as (t' & os' & ->);
      [lia | done | | done].
    intros c _. unfold rival_holds. by rewrite Hv.
Qed.

(** C7. On the flock backend, an attempt inside [LockWithTimeout] that
    reports an error other than [EWOULDBLOCK] ends the call at once with
    that error: in the log of any run such a request is the last call (no
    further attempt, no sleep) and its errno is the result; and a run that
    is still looping when the next request gets such a reply returns it in
    the very state the request left.  [Unlock], like [Lock], is the one
    flock call and nothing else, so that its error, if any, is the
    result. *)
Theorem lock_errors_surface_at_once
    (l : Lock) (timeout : Duration) (os : OS) :
  (∀ fuel c os' i fd how n,
      LockWithTimeout_loop fuel l timeout 0 os = Some (c, os') →
      calls os' !! (length (calls os) + i)%nat =
        Some (CallFlock fd how (Some (Errno n))) →
      n ≠ EWOULDBLOCK →
      c = inl (Some (Errno n)) ∧
      length (calls os') = S (length (calls os) + i)) ∧
  (∀ k extra t os1 t' os2 n os3,
      LockWithTimeout_loop k l timeout 0 os = Some (inr t, os1) →
      LockWithTimeout_check timeout t os1 = Some (inr t', os2) →
      syscall_Flock l EXNB os2 = Some (Some (Errno n), os3) →
      n ≠ EWOULDBLOCK →
      Lock_LockWithTimeout (k + S extra) l timeout os =
        Some (Some (Errno n), os3) ∧
      calls os3 = calls os2 ++ [CallFlock l EXNB (Some (Errno n))]) ∧
  Lock_Unlock l os = syscall_Flock l LOCK_UN os ∧
  Lock_Lock l os = syscall_Flock l LOCK_EX os ∧
  (∀ e os',
      Lock_Unlock l os = Some (e, os') →
      calls os' = calls os ++ [CallFlock l LOCK_UN e]) ∧
  (∀ n,
      fault os (length (calls os)) = Some n →
      ∃ os', Lock_Unlock l os = Some (Some (Errno n), os')).
Proof.
  split_and!.
  - intros fuel c os' i fd how n Hloop Hi Hn.
    apply loop_log in Hloop as (_ & cs & Hcs & Hlog).
    rewrite Hcs, lookup_app_r in Hi by lia.
    replace (length (calls os) + i - length (calls os))%nat with i in Hi by lia.
    destruct (run_log_failed _ _ _ _ _ _ _ _ Hlog Hi Hn) as [-> Hlen].
    split; [done|]. rewrite Hcs, length_app. lia.
  - intros k extra t os1 t' os2 n os3 Hloop Hcheck Hflock Hn.
    split; [|by eapply flock_calls].
    apply LockWithTimeout_loop_inl.
    rewrite (loop_app _ _ _ _ _ _ _ _ Hloop). simpl.
    apply bind_Some. exists (inl (Some (Errno n))), os3. split; [|done].
    unfold LockWithTimeout_body. apply bind_Some.
    exists (inr t'), os2. split; [done|]. by apply attempt_failed.
  - done.
  - done.
  - intros e os' Hun. by apply flock_calls in Hun.
  - intros n Hfault. eexists. by apply flock_faulted.
Qed.

End Flock.

Section LockFileEx.
Import Windows WindowsFacts.
Context `{Platform}.

(** C2, at the place where the code departs from it.  On the LockFileEx
    backend, when the lock request is accepted and the wait on the event
    reports that it timed out, [LockWithTimeout] returns [nil]: the wait
    result is dropped, and WAIT_TIMEOUT is not a failed wait. *)
Theorem timed_out_wait_returns_nil
    (l : Lock) (timeout : Duration) (os : OS) (r1 e1 e0 : Z) :
  let n := length (calls os) in
  let h := fresh_handle (handles os) in
  fault os n = None →
  h ≠ InvalidHandle →
  reply os (S n) = Some (r1, e1) → r1 ≠ 0 →
  reply os (S (S n)) = Some (WAIT_TIMEOUT, e0) →
  ∃ os',
    Lock_LockWithTimeout l timeout os = Some (nil, os') ∧
    calls os' = calls os ++
      waited_log l h (uint32 (Nanoseconds timeout `quot` 1000))
                 r1 e1 WAIT_TIMEOUT e0.
Proof.
  intros n h Hfault Hh Hlock Hr1 Hwait.
  destruct (locked_wait_waits l (uint32 (Nanoseconds timeout `quot` 1000))
              os r1 e1 WAIT_TIMEOUT e0 Hfault Hh Hlock Hr1 Hwait)
    as (os' & Hrun & Hcalls & _).
  exists os'. by rewrite Lock_LockWithTimeout_eq.
Qed.

(** C3, at the place where the code departs from it.  On the LockFileEx
    backend, a call with a timeout of [m] milliseconds that reaches the
    wait passes [1000 * m] to [WaitForSingleObject], whose unit is the
    millisecond: the wait spans a thousand times the timeout. *)
Theorem wait_spans_thousand_timeouts
    (l : Lock) (m : Z) (os : OS) (r1 e1 r0 e0 : Z) :
  let n := length (calls os) in
  let h := fresh_handle (handles os) in
  0 ≤ m → 1000 * m < 2 ^ 32 →
  fault os n = None →
  h ≠ InvalidHandle →
  reply os (S n) = Some (r1, e1) → r1 ≠ 0 →
  reply os (S (S n)) = Some (r0, e0) →
  ∃ e os',
    Lock_LockWithTimeout l (m * Millisecond) os = Some (e, os') ∧
    calls os' = calls os ++ waited_log l h (1000 * m) r1 e1 r0 e0.
Proof.
  intros n h Hm Hsmall Hfault Hh Hlock Hr1 Hwait.
  destruct (locked_wait_waits l (uint32 (Nanoseconds (m * Millisecond) `quot` 1000))
              os r1 e1 r0 e0 Hfault Hh Hlock Hr1 Hwait)
    as (os' & Hrun & Hcalls & _).
  eexists _, os'. rewrite Lock_LockWithTimeout_eq. split; [exact Hrun|].
  rewrite Hcalls. do 2 f_equal.
  unfold uint32, Nanoseconds, Millisecond.
  replace (m * 1000000) with (1000 * m * 1000) by lia.
  rewrite Z.quot_mul by lia. apply Z.mod_small. lia.
Qed.

End LockFileEx.

Section BothBackends.
Context {unix : Unix.Platform} {windows : Windows.Platform}.

(** C9. [Unlock] releases the lock through the handle's descriptor and
    closes nothing, and every acquire and release goes through the
    descriptor the handle was made of.  On the flock backend [Unlock] and
    [Lock] are one flock call on the descriptor, each turn of
    [LockWithTimeout] requests the lock on it, no call opens a path, and
    the descriptor table is what it was; after a successful [Unlock] the
    lock is not held through the descriptor.  On the LockFileEx backend
    [Unlock] is one unlock request on the handle, [Lock] and
    [LockWithTimeout] lock through the handle, no call creates a file, the
    only handle closed is the event of the attempt, and the handle remains
    in the handle table, on its file. *)
Theorem descriptor_reused_never_closed :
  (∀ (l : Unix.Lock) (os : Unix.OS),
    (∀ e os',
        Unix.Lock_Unlock l os = Some (e, os') →
        Unix.fdtable os' = Unix.fdtable os ∧
        Unix.calls os' = Unix.calls os ++ [Unix.CallFlock l Unix.LOCK_UN e] ∧
        ∀ path, e = nil → Unix.fdtable os !! l = Some path →
                Unix.flocks os' !! path ≠ Some l) ∧
    (∀ e os',
        Unix.Lock_Lock l os = Some (e, os') →
        Unix.fdtable os' = Unix.fdtable os ∧
        Unix.calls os' = Unix.calls os ++ [Unix.CallFlock l Unix.LOCK_EX e]) ∧
    (∀ fuel timeout c os',
        Unix.LockWithTimeout_loop fuel l timeout 0 os = Some (c, os') →
        Unix.fdtable os' = Unix.fdtable os ∧
        ∃ cs, Unix.calls os' = Unix.calls os ++ cs ∧
              Forall (Unix.on_descriptor l) cs)) ∧
  (∀ (l : Windows.Lock) (path : string) (os : Windows.OS),
    Windows.valid os l path →
    (∀ e os',
        Windows.Lock_Unlock l os = Some (e, os') →
        Windows.valid os' l path ∧
        ∃ r1 e1,
          Windows.calls os' = Windows.calls os ++
            [Windows.CallSyscall6 Windows.procUnlockFileEx 5
               [Windows.Word l; Windows.Word 0; Windows.Word 1;
                Windows.Word 0; Windows.Word 0; Windows.Word 0] r1 e1]) ∧
    (∀ e os',
        Windows.Lock_Lock l os = Some (e, os') →
        Windows.valid os' l path ∧
        ∃ cs, Windows.calls os' = Windows.calls os ++ cs ∧
              Forall (Windows.on_handle l) cs) ∧
    (∀ timeout e os',
        Windows.Lock_LockWithTimeout l timeout os = Some (e, os') →
        Windows.valid os' l path ∧
        ∃ cs, Windows.calls os' = Windows.calls os ++ cs ∧
              Forall (Windows.on_handle l) cs)).
Proof.
  split.
  - intros l os. split_and!.
    + intros e os' (Hfd & _ & Hcalls & Hrel)%UnixFacts.Unlock_frame. done.
    + intros e os' (Hfd & _ & Hcalls)%UnixFacts.Lock_frame. done.
    + intros fuel timeout c os' Hloop.
      apply UnixFacts.loop_log in Hloop as ((_ & _ & _ & Hfd & _) & cs & Hcs & Hlog).
      split; [done|]. exists cs. split; [done|].
      by eapply UnixFacts.run_log_on_descriptor.
  - intros l path os Hvalid. unfold Windows.valid, Windows.Lock in *.
    split_and!.
    + intros e os' (Hh & _ & r1 & e1 & Hcalls & _)%WindowsFacts.Unlock_one_request.
      split; [|by exists r1, e1].
      destruct Hvalid as [? Hl]. split; [done|]. by rewrite Hh.
    + intros e os' Hrun. rewrite WindowsFacts.Lock_Lock_eq in Hrun.
      apply (WindowsFacts.locked_wait_frame _ _ _ _ _ _ Hvalid) in Hrun
        as (Hh & _ & Hcs).
      split; [|done]. destruct Hvalid as [? Hl]. split; [done|]. by rewrite Hh.
    + intros timeout e os' Hrun.
      rewrite WindowsFacts.Lock_LockWithTimeout_eq in Hrun.
      apply (WindowsFacts.locked_wait_frame _ _ _ _ _ _ Hvalid) in Hrun
        as (Hh & _ & Hcs).
      split; [|done]. destruct Hvalid as [? Hl]. split; [done|]. by rewrite Hh.
Qed.

(** C6. The sentinel [ErrTimeout] answers [true] to [Timeout()], and
    errors compare with [==]: the comparison holds exactly of equal values.
    No errno and no [nil] equals the sentinel, and the results of [New],
    [Lock] and [Unlock], and of the [LockWithTimeout] that waits on an
    event, are errnos or [nil].  On the flock backend a result of
    [LockWithTimeout] is the sentinel, [nil] or an errno, and it is the
    sentinel exactly when the run ended on its elapsed-time check; and a
    call with a positive timeout (below the largest [Duration]) on a lock
    that another process keeps does time out: it returns a value equal to
    the sentinel. *)
Theorem sentinel_is_a_comparable_timeout :
  Timeout ErrTimeout = Some true ∧
  (∀ a b : error, error_eqb a b = true ↔ a = b) ∧
  (∀ n, error_eqb (Some (Errno n)) ErrTimeout = false) ∧
  error_eqb nil ErrTimeout = false ∧
  (∀ fuel l timeout os e os',
      Unix.Lock_LockWithTimeout fuel l timeout os = Some (e, os') →
      (e = ErrTimeout ∨ e = nil ∨ ∃ n, e = Some (Errno n)) ∧
      (error_eqb e ErrTimeout = true ↔
       ∃ t d, last (Unix.calls os') = Some (Unix.CallSince t d) ∧
              length (Unix.calls os) < length (Unix.calls os'))%nat) ∧
  (∀ l path timeout os,
      0 < timeout < maxDuration → 0 < Unix.clock os →
      Unix.ready os l path →
      (∀ c, Unix.clock os ≤ c → Unix.rival_holds os path c = true) →
      ∃ fuel os',
        Unix.Lock_LockWithTimeout fuel l timeout os = Some (ErrTimeout, os') ∧
        error_eqb ErrTimeout ErrTimeout = true) ∧
  (∀ filename l os e os',
      Unix.New filename os = Some ((l, e), os') ∨
      Unix.Lock_Lock l os = Some (e, os') ∨
      Unix.Lock_Unlock l os = Some (e, os') →
      error_eqb e ErrTimeout = false) ∧
  (∀ filename l timeout os e os',
      Windows.New filename os = Some ((l, e), os') ∨
      Windows.Lock_Lock l os = Some (e, os') ∨
      Windows.Lock_Unlock l os = Some (e, os') ∨
      Windows.Lock_LockWithTimeout l timeout os = Some (e, os') →
      error_eqb e ErrTimeout = false).
Proof.
  assert (Heqb : ∀ a b : error, error_eqb a b = true ↔ a = b).
  { intros a b. unfold error_eqb. apply bool_decide_eq_true. }
  assert (Herrno : ∀ e : error,
            e = nil ∨ (∃ n, e = Some (Errno n)) → error_eqb e ErrTimeout = false).
  { by intros e [->|[n ->]]. }
  split_and!; [done | done | done | done | | | |].
  - intros fuel l timeout os e os' Hrun%UnixFacts.LockWithTimeout_loop_inl.
    apply UnixFacts.loop_log in Hrun as (_ & cs & Hcs & Hlog).
    split.
    + apply UnixFacts.run_log_result in Hlog as [[-> _]|[->|(n & -> & _)]]; eauto.
    + rewrite Heqb. split.
      * intros ->. apply UnixFacts.run_log_timeout in Hlog as (t & d & Hlast & _).
        exists t, d. destruct cs as [|c cs]; [done|].
        rewrite Hcs, length_app. simpl. split; [|lia].
        rewrite last_app. by rewrite Hlast.
      * intros (t & d & Hlast & Hlen).
        rewrite Hcs in Hlast, Hlen. rewrite length_app in Hlen.
        rewrite last_app in Hlast.
        destruct (last cs) as [c|] eqn:Hl.
        -- injection Hlast as ->. by eapply UnixFacts.run_log_last_since.
        -- apply last_None in Hl as ->. simpl in Hlen. lia.
  - intros l path timeout os Hto Hclock Hready Hheld.
    set (os0 := Unix.returns (Unix.tick os) (Unix.CallNow (Unix.tick os)) os).
    pose proof (UnixFacts.tick_ge os) as Htick.
    assert (Hfr0 : Unix.frame os os0)
      by apply UnixFacts.frame_returns, UnixFacts.tick_ge.
    destruct (UnixFacts.attempt_contended l path (Unix.tick os) os0) as
      (os1 & Hatt & Hc1 & Hfr1 & Hfl1 & Hclk1).
    { by apply UnixFacts.ready_now. }
    { rewrite (UnixFacts.rival_frame os os0) by done.
      apply Hheld. pose proof (UnixFacts.tick_ge os0) as Ht0.
      unfold os0 in Ht0 at 1. simpl in Ht0. lia. }
    destruct (UnixFacts.loop_times_out
                (Z.to_nat (timeout + Unix.tick os - Unix.clock os1 + 1))
                l path timeout (Unix.tick os) os1) as (k & os' & Hloop);
      [done | lia | | | lia |].
    { eapply UnixFacts.ready_frame; [by apply UnixFacts.ready_now | done..]. }
    { intros c Hc.
      rewrite (UnixFacts.rival_frame os0 os1), (UnixFacts.rival_frame os os0)
        by done.
      apply Hheld. simpl in Hclk1. unfold Millisecond in *. lia. }
    exists (S k), os'. split; [|by apply Heqb].
    apply UnixFacts.LockWithTimeout_loop_inl. simpl. apply bind_Some.
    exists (inr (Unix.tick os)), os1. by rewrite UnixFacts.body_first.
  - intros filename l os e os' [Hnew|[Hlock|Hunlock]]; apply Herrno.
    + by eapply UnixFacts.New_result.
    + by eapply UnixFacts.flock_result.
    + by eapply UnixFacts.flock_result.
  - intros filename l timeout os e os' [Hnew|[Hlock|[Hunlock|Htimed]]];
      apply Herrno.
    + by eapply WindowsFacts.New_error_is_errno.
    + rewrite WindowsFacts.Lock_Lock_eq in Hlock.
      by eapply WindowsFacts.locked_wait_result.
    + apply WindowsFacts.Unlock_one_request in Hunlock
        as (_ & _ & r1 & e1 & _ & ->).
      apply WindowsFacts.raw_error_shape.
    + rewrite WindowsFacts.Lock_LockWithTimeout_eq in Htimed.
      by eapply WindowsFacts.locked_wait_result.
Qed.

(** C4, at the place where the code departs from it.  For a path at
    which the lock file exists, [New] of the flock backend opens the file
    on a descriptor that was not in use, while [New] of the LockFileEx
    backend, which asks for CREATE_NEW, fails with ERROR_FILE_EXISTS and
    opens nothing. *)
Theorem New_on_existing_lock_file (filename : string) :
  existsb (Ascii.eqb Ascii.zero) (String.list_ascii_of_string filename) = false →
  (∀ os : Unix.OS,
      Unix.fault os (length (Unix.calls os)) = None →
      filename ∈ Unix.files os →
      ∃ l os',
        Unix.New filename os = Some ((l, nil), os') ∧
        Unix.fdtable os' !! l = Some filename ∧
        Unix.fdtable os !! l = None) ∧
  (∀ os : Windows.OS,
      Windows.fault os (length (Windows.calls os)) = None →
      filename ∈ Windows.files os →
      ∃ os',
        Windows.New filename os =
          Some ((0, Some (Errno Windows.ERROR_FILE_EXISTS)), os') ∧
        Windows.handles os' = Windows.handles os).
Proof.
  intros Hnul. split.
  - intros os Hfault Hin.
    destruct (UnixFacts.New_existing filename os Hfault Hin)
      as (l & os' & Hnew & Hfd & Hfresh & _).
    exists l, os'. split_and!; [done | | done].
    rewrite Hfd. apply lookup_insert_eq.
  - intros os Hfault Hin. eexists. split.
    + by apply WindowsFacts.New_refuses_existing.
    + done.
Qed.

End BothBackends.
End Contract.

(** ** What else the code does *)

Module Behaviour.

Section Flock.
Import Unix UnixFacts UnixMore.
Context `{Platform}.


(** On the flock backend an acquire that returns [nil] holds the lock
    through its descriptor, which was open; an acquire that returns
    anything else (an errno, the sentinel) leaves the lock table exactly as
    it was. *)
Theorem acquire_holds_or_leaves_alone (l : Lock) (os : OS) :
  (∀ fuel timeout e os',
      Lock_LockWithTimeout fuel l timeout os = Some (e, os') →
      (e = nil →
       ∃ path, fdtable os !! l = Some path ∧ flocks os' !! path = Some l) ∧
      (e ≠ nil → flocks os' = flocks os)) ∧
  (∀ e os',
      Lock_Lock l os = Some (e, os') →
      (e = nil →
       ∃ path, fdtable os !! l = Some path ∧ flocks os' !! path = Some l) ∧
      (e ≠ nil → flocks os' = flocks os)).
Proof.
  split.
  - intros fuel timeout e os' Hrun%LockWithTimeout_loop_inl.
    apply loop_effects in Hrun as (Hne & Hnil & _).
    split.
    + intros ->. by apply Hnil.
    + intros He. apply Hne. congruence.
  - intros e os' Hlock. split.
    + intros ->. exact (flock_granted_held l LOCK_EX os os' eq_refl Hlock).
    + intros He. by rewrite (flock_error _ _ _ _ _ Hlock He).
Qed.

(** On the flock backend [LockWithTimeout] paces its polls: a run that
    returns has made one attempt at least, has slept once after every
    attempt that was refused (once per attempt when it returns the
    sentinel, once less otherwise), and has lasted 50ms per sleep at
    least. *)
Theorem polls_are_paced
    (fuel : nat) (l : Lock) (timeout : Duration) (e : error) (os os' : OS) :
  Lock_LockWithTimeout fuel l timeout os = Some (e, os') →
  let tries := (attempts os' - attempts os)%nat in
  let naps := (sleeps os' - sleeps os)%nat in
  (1 ≤ tries)%nat ∧
  naps = (if error_eqb e ErrTimeout then tries else tries - 1)%nat ∧
  clock os + Z.of_nat naps * (50 * Millisecond) ≤ clock os'.
Proof.
  intros Hrun%LockWithTimeout_loop_inl tries naps.
  pose proof (loop_effects _ _ _ _ _ _ _ Hrun)
    as (_ & _ & Htime & Hs & Ha & Hcount).
  assert (Hfirst : (S (attempts os) ≤ attempts os')%nat).
  { destruct fuel as [|k]; [by apply ret_Some in Hrun as [? _]|].
    simpl in Hrun. apply bind_Some in Hrun as (c1 & os1 & Hb & Hrest).
    rewrite body_first in Hb.
    apply attempt_inv in Hb as (_ & Ha1 & _).
    destruct c1 as [e1|t1].
    - apply ret_Some in Hrest as [_ <-].
      destruct (count_returns (CallNow (tick os)) (tick os) os) as [Hn _].
      rewrite Ha1, Hn. lia.
    - apply loop_effects in Hrest as (_ & _ & _ & _ & Ha2 & _).
      destruct (count_returns (CallNow (tick os)) (tick os) os) as [Hn _].
      rewrite Hn in Ha1. lia. }
  subst tries naps. split_and!; [lia | | done].
  unfold error_eqb.
  destruct e as [[n|s]|]; simpl in Hcount.
  - rewrite bool_decide_eq_false_2 by done. lia.
  - pose proof (loop_log _ _ _ _ _ _ _ Hrun) as (_ & cs & _ & Hlog).
    apply run_log_result in Hlog as [[-> _]|[?|(n & ? & _)]]; [|done..].
    rewrite bool_decide_eq_true_2 by done. lia.
  - rewrite bool_decide_eq_false_2 by done. lia.
Qed.

(** On a descriptor ready to lock, [Lock] of the flock backend is the one
    blocking request: when it returns it returns [nil], holding the lock,
    at the instant the other process lets go (at once when no one holds
    the lock); it does not return at all exactly when the other process
    never lets go. *)
Theorem Lock_returns_at_release (l : Lock) (path : string) (os : OS) :
  ready os l path →
  (∀ e os',
      Lock_Lock l os = Some (e, os') →
      e = nil ∧ flocks os' !! path = Some l ∧
      calls os' = calls os ++ [CallFlock l LOCK_EX nil] ∧
      ∃ T, vacant os path (tick os) = Some T ∧
           clock os' = Z.max (tick os) T) ∧
  (Lock_Lock l os = None ↔ vacant os path (tick os) = None).
Proof.
  intros Hready. rewrite (Lock_waits l path os Hready).
  destruct (vacant os path (tick os)) as [T|]; split; try done.
  intros e os' [= <- <-]. simpl.
  split_and!; [done | apply lookup_insert_eq | done | eauto].
Qed.

(** On the flock backend release undoes acquire: with no other process on
    the lock, [Lock] then [Unlock] both return [nil] and leave the lock
    table and the descriptor table as they were, so that the handle can
    [Lock] again. *)
Theorem Unlock_undoes_Lock (l : Lock) (path : string) (os : OS) :
  ready os l path →
  (∀ c, clock os ≤ c → rival_holds os path c = false) →
  ∃ os1 os2 os3,
    Lock_Lock l os = Some (nil, os1) ∧ flocks os1 !! path = Some l ∧
    Lock_Unlock l os1 = Some (nil, os2) ∧
    flocks os2 = flocks os ∧ fdtable os2 = fdtable os ∧
    Lock_Lock l os2 = Some (nil, os3) ∧ flocks os3 !! path = Some l.
Proof.
  intros Hready Hfree.
  assert (Hgrant : ∀ o, ready o l path → frame os o →
            ∃ T, vacant o path (tick o) = Some T).
  { intros o _ Hfr. pose proof (Hfree (tick o)) as Hr.
    rewrite <- (rival_frame os o) in Hr by done.
    unfold rival_holds in Hr.
    destruct (vacant o path (tick o)) as [T|]; [eauto|].
    destruct Hfr as (_ & _ & _ & _ & _ & ?). pose proof (tick_ge o).
    specialize (Hr ltac:(lia)). done. }
  destruct (Hgrant os Hready (frame_refl os)) as (T & HT).
  pose proof (Lock_waits l path os Hready) as Hlock. rewrite HT in Hlock.
  set (os1 := returns (Z.max (tick os) T) (CallFlock l LOCK_EX nil)
                (set_flocks (<[path := l]> (flocks os)) os)) in *.
  pose proof Hready as (Hfd & Hfl & Hf). unfold Lock in *.
  assert (Hfr1 : frame os os1).
  { pose proof (tick_ge os). unfold frame. simpl. split_and!; try done. lia. }
  destruct (Unlock_open l path os1) as (os2 & Hunlock & Hfl2 & Hfr2 & Hc2).
  { apply (faultless_frame os os1 [CallFlock l LOCK_EX nil]); done. }
  { done. }
  assert (Hheld1 : flocks os1 !! path = Some l) by apply lookup_insert_eq.
  rewrite bool_decide_eq_true_2 in Hfl2 by done.
  assert (Hback : flocks os2 = flocks os).
  { rewrite Hfl2. simpl. by apply delete_insert_id. }
  assert (Hready2 : ready os2 l path).
  { split_and!.
    - destruct Hfr2 as (_ & _ & _ & -> & _). done.
    - by rewrite Hback.
    - eapply (faultless_frame os1); [|by destruct Hfr2 as (_ & -> & _)|done].
      apply (faultless_frame os os1 [CallFlock l LOCK_EX nil]); done. }
  destruct (Hgrant os2 Hready2 (frame_trans _ _ _ Hfr1 Hfr2)) as (T2 & HT2).
  pose proof (Lock_waits l path os2 Hready2) as Hlock2. rewrite HT2 in Hlock2.
  eexists os1, os2, _. split_and!; [done | done | done | done | | done |].
  - destruct Hfr2 as (_ & _ & _ & -> & _). done.
  - simpl. apply lookup_insert_eq.
Qed.

(** Two handles of one process exclude each other on the flock backend.
    While the lock is held through another descriptor of the process, a
    [LockWithTimeout] with a positive timeout (below the largest
    [Duration]) returns the sentinel and takes nothing; with a timeout that
    is not positive it never returns; and [Lock] never returns. *)
Theorem second_handle_is_excluded
    (l1 l2 : Lock) (path : string) (timeout : Duration) (os : OS) :
  l1 ≠ l2 →
  fdtable os !! l2 = Some path → flocks os !! path = Some l1 →
  faultless os → 0 < clock os →
  (0 < timeout < maxDuration →
   ∃ fuel os',
     Lock_LockWithTimeout fuel l2 timeout os = Some (ErrTimeout, os') ∧
     flocks os' = flocks os) ∧
  (timeout ≤ 0 → ∀ fuel, Lock_LockWithTimeout fuel l2 timeout os = None) ∧
  Lock_Lock l2 os = None.
Proof.
  intros Hne Hfd Hheld Hf Hclock. unfold Lock in *.
  assert (Href : refused os l2).
  { split; [done|]. exists path. split; [done|]. left. eauto. }
  split_and!.
  - intros Hto. by apply (held_elsewhere_times_out l1 l2 path).
  - intros Hto fuel. unfold Lock_LockWithTimeout.
    by destruct (loop_stuck fuel l2 timeout 0 os Hto Href) as (t' & os' & ->).
  - unfold Lock_Lock, syscall_Flock.
    rewrite (faultless_now _ Hf), Hfd, Hheld. simpl.
    by destruct (Z.eqb_spec l1 l2).
Qed.

(** On the flock backend a call whose holder lets go does return, whatever
    the timeout: when the other process lets go at instant [T], some run of
    [LockWithTimeout] returns, either [nil] with the lock held and not
    before [T], or, if the timeout is positive, the sentinel with the lock
    table as it was. *)
Theorem LockWithTimeout_settles
    (l : Lock) (path : string) (timeout : Duration) (T : Time) (os : OS) :
  ready os l path →
  (∀ c, vacant os path c = Some T) →
  ∃ fuel e os',
    Lock_LockWithTimeout fuel l timeout os = Some (e, os') ∧
    (e = nil ∧ T ≤ clock os' ∧ flocks os' !! path = Some l
     ∨ e = ErrTimeout ∧ 0 < timeout ∧ flocks os' = flocks os).
Proof.
  intros Hready HT.
  destruct (loop_settles (Z.to_nat (T - clock os)) l path timeout T 0 os)
    as (k & e & os' & Hloop & Hdone); [done | done | lia |].
  exists k, e, os'. split; [by apply LockWithTimeout_loop_inl | done].
Qed.

(** On the flock backend every operation on a descriptor that is not open
    fails with EBADF and takes no lock; [LockWithTimeout] returns it after
    its one attempt, without sleeping, whatever the timeout. *)
Theorem closed_descriptor_is_EBADF
    (l : Lock) (timeout : Duration) (fuel : nat) (os : OS) :
  fdtable os !! l = None → faultless os → EBADF ≠ EWOULDBLOCK →
  (∃ os', Lock_LockWithTimeout (S fuel) l timeout os =
            Some (Some (Errno EBADF), os') ∧
          attempts os' = S (attempts os) ∧ sleeps os' = sleeps os ∧
          flocks os' = flocks os) ∧
  (∃ os', Lock_Lock l os = Some (Some (Errno EBADF), os') ∧
          flocks os' = flocks os) ∧
  (∃ os', Lock_Unlock l os = Some (Some (Errno EBADF), os') ∧
          flocks os' = flocks os).
Proof.
  intros Hfd Hf Hbadf. unfold Lock in *. split_and!.
  - set (os0 := returns (tick os) (CallNow (tick os)) os).
    assert (Hflock : syscall_Flock l EXNB os0 =
              Some (Some (Errno EBADF),
                    returns (tick os0) (CallFlock l EXNB (Some (Errno EBADF))) os0)).
    { apply flock_closed; [|done]. apply Hf. simpl. rewrite length_app. lia. }
    exists (returns (tick os0) (CallFlock l EXNB (Some (Errno EBADF))) os0).
    split.
    + apply LockWithTimeout_loop_inl. simpl. apply bind_Some.
      exists (inl (Some (Errno EBADF))), 
        (returns (tick os0) (CallFlock l EXNB (Some (Errno EBADF))) os0).
      split; [|done].
      rewrite body_first. by apply attempt_failed.
    + unfold attempts, sleeps. simpl.
      rewrite !List.filter_app, !length_app. simpl. split_and!; [lia | lia | done].
  - eexists. split; [apply flock_closed; [by apply faultless_now | done]|done].
  - eexists. split; [apply flock_closed; [by apply faultless_now | done]|done].
Qed.

(** [Unlock] of the flock backend on an open descriptor returns [nil]
    whether or not the lock is held through it: it releases the lock the
    descriptor holds, and through a descriptor that holds none it changes
    nothing, so that it never releases what another handle holds and a
    second [Unlock] is a silent success. *)
Theorem Unlock_releases_own_lock_only (l : Lock) (path : string) (os : OS) :
  fdtable os !! l = Some path → fault os (length (calls os)) = None →
  ∃ os',
    Lock_Unlock l os = Some (nil, os') ∧
    flocks os' !! path ≠ Some l ∧
    (flocks os !! path ≠ Some l → flocks os' = flocks os) ∧
    (∀ other, other ≠ path → flocks os' !! other = flocks os !! other).
Proof.
  intros Hfd Hfault. unfold Lock in *.
  destruct (Unlock_open l path os Hfault Hfd) as (os' & Hun & Hfl & _).
  exists os'. split; [done|]. rewrite Hfl.
  case_bool_decide as Hheld; split_and!; try done.
  - by rewrite lookup_delete_eq.
  - intros other Hother. by rewrite lookup_delete_ne.
Qed.

(** The test [TestLockWithTimeoutUnlocked] passes on the flock backend:
    in any directory, with the create flag in force, no outside failure and
    no one on the lock file, both assertions hold. *)
Theorem TestLockWithTimeoutUnlocked_passes
    (fuel : nat) (dir : string) (os : OS) :
  let path := filepath_Join dir "testing" in
  O_CREAT ≠ 0 → faultless os →
  flocks os !! path = None →
  (∀ c, clock os ≤ c → rival_holds os path c = false) →
  ∃ os', TestLockWithTimeoutUnlocked (S fuel) dir os = Some (Passed, os').
Proof.
  intros path Hflag Hf Hnone Hfree. unfold TestLockWithTimeoutUnlocked.
  destruct (New_creates path os Hflag (faultless_now _ Hf)) as (l & os1 & Hnew).
  pose proof (New_inv _ _ _ _ _ Hnew) as (Hfl1 & [(_ & _ & Hfd1 & _)|([n ?] & _)]);
    [|done].
  pose proof (New_env _ _ _ _ _ Hnew) as (Hv & _ & _ & Hclk & _).
  assert (Hready : ready os1 l path).
  { split_and!; [rewrite Hfd1; apply lookup_insert_eq | by rewrite Hfl1
                | by eapply New_faultless]. }
  destruct (LockWithTimeout_free fuel l path shortWait os1 Hready)
    as (os2 & Hrun & _).
  { intros c Hc. unfold rival_holds. rewrite Hv. apply Hfree. lia. }
  exists os2. apply bind_Some. exists (l, nil), os1. split; [done|]. simpl.
  apply bind_Some. exists nil, os2. by split.
Qed.

(** The test [TestLockWithTimeoutLocked] passes on the flock backend: the
    two [New] give two descriptors on the file, [Lock] through the first
    succeeds, and [LockWithTimeout] through the second returns a value
    equal to [ErrTimeout]. *)
Theorem TestLockWithTimeoutLocked_passes (dir : string) (os : OS) :
  let path := filepath_Join dir "testing" in
  O_CREAT ≠ 0 → faultless os → 0 < clock os →
  flocks os !! path = None →
  (∀ c, clock os ≤ c → rival_holds os path c = false) →
  ∃ fuel os', TestLockWithTimeoutLocked fuel dir os = Some (Passed, os').
Proof.
  intros path Hflag Hf Hclock Hnone Hfree.
  (* the two handles *)
  destruct (New_creates path os Hflag (faultless_now _ Hf)) as (l1 & os1 & Hnew1).
  pose proof (New_inv _ _ _ _ _ Hnew1)
    as (Hfl1 & [(_ & _ & Hfd1 & _)|([n ?] & _)]); [|done].
  pose proof (New_env _ _ _ _ _ Hnew1) as (Hv1 & _ & _ & Hclk1 & _).
  pose proof (New_faultless _ _ _ _ _ Hnew1 Hf) as Hf1.
  destruct (New_creates path os1 Hflag (faultless_now _ Hf1)) as (l2 & os2 & Hnew2).
  pose proof (New_inv _ _ _ _ _ Hnew2)
    as (Hfl2 & [(_ & Hfresh2 & Hfd2 & _)|([n ?] & _)]); [|done].
  pose proof (New_env _ _ _ _ _ Hnew2) as (Hv2 & _ & _ & Hclk2 & _).
  pose proof (New_faultless _ _ _ _ _ Hnew2 Hf1) as Hf2.
  unfold Lock in *.
  assert (Hne : l1 ≠ l2).
  { intros ->. rewrite Hfd1, lookup_insert_eq in Hfresh2. done. }
  (* the first handle locks *)
  assert (Hready : ready os2 l1 path).
  { split_and!; [|congruence|done].
    unfold Lock. rewrite Hfd2, lookup_insert_ne, Hfd1 by done.
    apply lookup_insert_eq. }
  pose proof (Lock_waits l1 path os2 Hready) as Hlock.
  assert (HT : ∃ T, vacant os2 path (tick os2) = Some T).
  { pose proof (Hfree (tick os2)) as Hr. pose proof (tick_ge os2).
    unfold rival_holds in Hr. rewrite Hv2, Hv1.
    destruct (vacant os path (tick os2)) as [T|]; [eauto|].
    specialize (Hr ltac:(lia)). done. }
  destruct HT as (T & HT). rewrite HT in Hlock.
  set (os3 := returns (Z.max (tick os2) T) (CallFlock l1 LOCK_EX nil)
                (set_flocks (<[path := l1]> (flocks os2)) os2)) in *.
  (* the second handle is refused until its timeout runs out *)
  destruct (held_elsewhere_times_out l1 l2 path shortWait os3 Hne)
    as (fuel & os4 & Hrun & _).
  { simpl. rewrite Hfd2. apply lookup_insert_eq. }
  { simpl. apply lookup_insert_eq. }
  { apply (faultless_frame os2 os3 [CallFlock l1 LOCK_EX nil]); done. }
  { simpl. pose proof (tick_ge os2). lia. }
  { unfold shortWait, Millisecond, maxDuration. lia. }
  exists fuel, os4. unfold TestLockWithTimeoutLocked.
  apply bind_Some. exists (l1, nil), os1. split; [done|]. simpl.
  apply bind_Some. exists (l2, nil), os2. split; [done|]. simpl.
  apply bind_Some. exists nil, os3. split; [done|]. simpl.
  apply bind_Some. exists ErrTimeout, os4. by split.
Qed.

End Flock.

Section LockFileEx.
Import Windows WindowsFacts WindowsMore.
Context `{Platform}.

(** No operation of the LockFileEx backend on a [Lock] opens or closes
    anything for good: unless the handle handed out for the event is the
    very value [InvalidHandle], the handle table and the files are after
    [Lock], [LockWithTimeout] and [Unlock] what they were before, however
    the call ends.  The event is closed on every path; the file handle
    never is. *)
Theorem handles_are_not_leaked (l : Lock) (os : OS) :
  fresh_handle (handles os) ≠ InvalidHandle →
  (∀ e os', Lock_Lock l os = Some (e, os') →
            handles os' = handles os ∧ files os' = files os) ∧
  (∀ timeout e os',
      Lock_LockWithTimeout l timeout os = Some (e, os') →
      handles os' = handles os ∧ files os' = files os) ∧
  (∀ e os', Lock_Unlock l os = Some (e, os') →
            handles os' = handles os ∧ files os' = files os).
Proof.
  intros Hfresh. split_and!.
  - intros e os'. rewrite Lock_Lock_eq. by apply locked_wait_no_leak.
  - intros timeout e os'. rewrite Lock_LockWithTimeout_eq.
    by apply locked_wait_no_leak.
  - intros e os' (? & ? & _)%Unlock_one_request. done.
Qed.

(** On the LockFileEx backend a lock request that answers failure ends the
    call at once: [Lock] and [LockWithTimeout] return the error of the
    request ([EINVAL] when its error number is zero), which is never
    [nil], make no wait, and close the event all the same. *)
Theorem refused_request_skips_the_wait
    (l : Lock) (timeout : Duration) (e1 : Z) (os : OS) :
  let n := length (calls os) in
  let h := fresh_handle (handles os) in
  fault os n = None →
  h ≠ InvalidHandle →
  reply os (S n) = Some (0, e1) →
  raw_error true e1 ≠ nil ∧
  (∃ os', Lock_Lock l os = Some (raw_error true e1, os') ∧
          calls os' = calls os ++ refused_log l h e1 ∧
          handles os' = handles os) ∧
  (∃ os', Lock_LockWithTimeout l timeout os = Some (raw_error true e1, os') ∧
          calls os' = calls os ++ refused_log l h e1 ∧
          handles os' = handles os).
Proof.
  intros n h Hfault Hh Hlock. split_and!.
  - unfold raw_error, nil. by destruct (negb (e1 =? 0)).
  - rewrite Lock_Lock_eq. by apply locked_wait_refused.
  - rewrite Lock_LockWithTimeout_eq. by apply locked_wait_refused.
Qed.

(** [createEvent] tests the handle against [InvalidHandle] alone.  When
    the procedure answers NULL with an error number, no error is reported:
    [Lock] and [LockWithTimeout] go on, make the lock request and the wait
    with the NULL event, and return what the wait gives; the error number
    of the creation is lost. *)
Theorem failed_event_creation_goes_unnoticed
    (l : Lock) (timeout : Duration) (e r1 e1 r0 e0 : Z) (os : OS) :
  let n := length (calls os) in
  let result := raw_error (r0 `mod` 2 ^ 32 =? WAIT_FAILED) e0 in
  InvalidHandle ≠ 0 →
  fault os n = Some e →
  reply os (S n) = Some (r1, e1) → r1 ≠ 0 →
  reply os (S (S n)) = Some (r0, e0) →
  (∃ os', Lock_Lock l os = Some (result, os') ∧
          calls os' = calls os ++ eventless_log l e INFINITE r1 e1 r0 e0) ∧
  (∃ os', Lock_LockWithTimeout l timeout os = Some (result, os') ∧
          calls os' = calls os ++
            eventless_log l e (uint32 (Nanoseconds timeout `quot` 1000))
              r1 e1 r0 e0).
Proof.
  intros n result Hinv Hfault Hlock Hr1 Hwait. split.
  - rewrite Lock_Lock_eq.
    destruct (locked_wait_eventless l INFINITE os e r1 e1 r0 e0)
      as (os' & ? & ? & _); eauto.
  - rewrite Lock_LockWithTimeout_eq.
    destruct (locked_wait_eventless l
                (uint32 (Nanoseconds timeout `quot` 1000)) os e r1 e1 r0 e0)
      as (os' & ? & ? & _); eauto.
Qed.


(** [New] of the LockFileEx backend always returns, in one of two ways:
    with [nil] and a handle that was not in use, never zero, on a file
    that did not exist and now does; or with an error number and the zero
    [Lock], having opened and created nothing.  A name with a NUL in it
    gets [EINVAL] without any call being made. *)
Theorem New_claims_the_file_or_changes_nothing (filename : string) (os : OS) :
  (∃ l e os',
     New filename os = Some ((l, e), os') ∧
     ( e = nil ∧ l ≠ 0 ∧ handles os !! l = None ∧ (filename ∉ files os) ∧
       handles os' = <[l := FileObject filename]> (handles os) ∧
       files os' = {[filename]} ∪ files os
     ∨ (∃ n, e = Some (Errno n)) ∧ l = 0 ∧
       handles os' = handles os ∧ files os' = files os )) ∧
  (existsb (Ascii.eqb Ascii.zero) (String.list_ascii_of_string filename) = true →
   New filename os = Some ((0, Some (Errno EINVAL)), os)).
Proof.
  split; [|apply New_NUL].
  destruct (New_total filename os) as (l & e & os' & Hnew).
  exists l, e, os'. split; [done|].
  apply New_cases in Hnew
    as [(-> & -> & Hin & _ & Hh & Hf & _)|(He & -> & Hh & Hf)].
  - left. pose proof (fresh_handle_pos (handles os)).
    split_and!; [done | lia | apply fresh_handle_fresh | done..].
  - right. done.
Qed.

(** The test [TestLockWithTimeoutLocked] cannot pass on the LockFileEx
    backend.  It always returns, at its first or its second assertion: the
    second [New] on the file the first one created is refused, so the test
    never gets to lock anything. *)
Theorem TestLockWithTimeoutLocked_stops_at_New (dir : string) (os : OS) :
  ∃ v os',
    TestLockWithTimeoutLocked dir os = Some (v, os') ∧
    (v = Failed 96 ∨ v = Failed 98) ∧
    (∀ c, c ∈ drop (length (calls os)) (calls os') →
          ∃ path access mode createmode attrs h e,
            c = CallCreateFile path access mode createmode attrs h e).
Proof.
  set (path := filepath_Join dir "testing").
  destruct (New_total path os) as (l1 & e1 & os1 & Hnew1).
  destruct (New_total path os1) as (l2 & e2 & os2 & Hnew2).
  destruct (New_log _ _ _ _ _ Hnew1) as (cs1 & Hcs1 & Hall1).
  destruct (New_log _ _ _ _ _ Hnew2) as (cs2 & Hcs2 & Hall2).
  unfold TestLockWithTimeoutLocked. fold path.
  apply New_cases in Hnew1 as Hcase1.
  destruct Hcase1 as [(-> & _ & _ & _ & _ & Hf1 & _)|([n1 ->] & _)].
  - apply New_cases in Hnew2 as Hcase2.
    destruct Hcase2 as [(_ & _ & Hin & _)|([n2 ->] & _)].
    { exfalso. apply Hin. rewrite Hf1. apply elem_of_union. left.
      by apply elem_of_singleton. }
    exists (Failed 98), os2. split_and!; [|by right|].
    + apply bind_Some. exists (l1, nil), os1. split; [done|]. simpl.
      apply bind_Some. exists (l2, Some (Errno n2)), os2. by split.
    + intros c. rewrite Hcs2, Hcs1, <- app_assoc, drop_app_length.
      intros [?|?]%elem_of_app; eauto.
  - exists (Failed 96), os1. split_and!; [|by left|].
    + apply bind_Some. exists (l1, Some (Errno n1)), os1. by split.
    + intros c. rewrite Hcs1, drop_app_length. eauto.
Qed.

(** The test [TestLockWithTimeoutUnlocked] passes on the LockFileEx backend
    in a directory without the lock file, whenever the lock request is
    accepted and the wait does not fail, whatever the wait reports. *)
Theorem TestLockWithTimeoutUnlocked_on_LockFileEx
    (dir : string) (r1 e1 r0 e0 : Z) (os : OS) :
  let path := filepath_Join dir "testing" in
  let n := length (calls os) in
  let h1 := fresh_handle (handles os) in
  let h2 := fresh_handle (<[h1 := FileObject path]> (handles os)) in
  existsb (Ascii.eqb Ascii.zero) (String.list_ascii_of_string path) = false →
  path ∉ files os →
  fault os n = None → fault os (S n) = None →
  h2 ≠ InvalidHandle →
  reply os (S (S n)) = Some (r1, e1) → r1 ≠ 0 →
  reply os (S (S (S n))) = Some (r0, e0) → r0 `mod` 2 ^ 32 ≠ WAIT_FAILED →
  ∃ os', TestLockWithTimeoutUnlocked dir os = Some (Passed, os') ∧
         handles os' = <[h1 := FileObject path]> (handles os).
Proof.
  intros path n h1 h2 Hnul Hin Hf0 Hf1 Hh2 Hlock Hr1 Hwait Hok.
  destruct (New_absent path os Hnul Hf0 Hin) as (l & os1 & Hnew & _).
  pose proof (New_cases _ _ _ _ _ Hnew)
    as [(_ & -> & _ & _ & Hh & _ & Hrep & Hfault & Hlen)|([m ?] & _)]; [|done].
  fold h1 in Hnew, Hh.
  destruct (locked_wait_waits h1
              (uint32 (Nanoseconds shortWait `quot` 1000)) os1 r1 e1 r0 e0)
    as (os2 & Hrun & _ & Hh2' & _).
  { by rewrite Hfault, Hlen. }
  { by rewrite Hh. }
  { by rewrite Hrep, Hlen. }
  { done. }
  { by rewrite Hrep, Hlen. }
  rewrite <- Lock_LockWithTimeout_eq in Hrun.
  apply Z.eqb_neq in Hok. rewrite Hok in Hrun. simpl in Hrun.
  exists os2. split; [|by rewrite Hh2', Hh].
  unfold TestLockWithTimeoutUnlocked. fold path.
  apply bind_Some. exists (h1, nil), os1. split; [done|]. simpl.
  apply bind_Some. exists nil, os2. by split.
Qed.

End LockFileEx.
End Behaviour.

(** ** The contract at work, in the setting of the package's tests *)

Module Tests.

(** C5 at work: nobody holds the lock; with a timeout of zero the first
    turn returns [nil] after the clock reading and the request. *)
Lemma attempt_precedes_every_check_uncontended :
  let os := Unix.testing (λ _, Some 0) in
  (∃ c os' e cs,
      @Unix.LockWithTimeout_loop Unix.linux 1 3 0 0 os = Some (c, os') ∧
      Unix.calls os' = Unix.calls os ++
        Unix.CallNow (Unix.tick os) :: Unix.CallFlock 3 6 e :: cs) ∧
  (∃ os',
      @Unix.Lock_LockWithTimeout Unix.linux 1 3 0 os = Some (nil, os') ∧
      Unix.calls os' = Unix.calls os ++
        [Unix.CallNow (Unix.tick os); Unix.CallFlock 3 6 nil] ∧
      Unix.flocks os' !! "testing" = Some 3).
Proof.
  intros os.
  destruct (@Contract.attempt_precedes_every_check Unix.linux 3 0 os 0)
    as [Hfirst Hfree].
  split; [exact Hfirst|].
  apply (Hfree "testing").
  - split_and!; [reflexivity | reflexivity | intros n _; reflexivity].
  - intros c Hc. unfold Unix.rival_holds. simpl in *.
    unfold Second, Millisecond in Hc. lia.
Defined.

(** C8 at work, the test [TestLockWithTimeoutLocked]: another process
    holds the lock for 120ms and the timeout is 70ms. *)
Lemma sentinel_only_past_the_deadline_locked :
  let os := Unix.testing (λ _, Some (Second + 120 * Millisecond)) in
  let os' := final (@Unix.Lock_LockWithTimeout Unix.linux 10 3
                           (70 * Millisecond)) os in
  0 < 70 * Millisecond ∧
  70 * Millisecond < Unix.clock os' - Unix.tick os ∧
  70 * Millisecond < Unix.clock os' - Unix.clock os ∧
  ∃ e cs t d,
    Unix.calls os' = Unix.calls os ++
      Unix.CallNow (Unix.tick os) :: Unix.CallFlock 3 6 e :: cs ∧
    last cs = Some (Unix.CallSince t d) ∧ 70 * Millisecond < d.
Proof.
  intros os os'.
  apply (@Contract.sentinel_only_past_the_deadline Unix.linux 10 3
           (70 * Millisecond) os os').
  vm_compute. reflexivity.
Defined.

(** C10 at work: another process holds the lock for good and the timeout
    is zero. *)
Lemma unbounded_when_timeout_not_positive_locked :
  let os := Unix.testing (λ _, None) in
  (∀ fuel e os',
      @Unix.Lock_LockWithTimeout Unix.linux fuel 3 0 os = Some (e, os') →
      e ≠ ErrTimeout ∧ (e = nil ∨ ∃ n, e = Some (Errno n) ∧ n ≠ 11)) ∧
  (∀ fuel,
      @Unix.Lock_LockWithTimeout Unix.linux fuel 3 0 os = None ∧
      ∃ os',
        @Unix.LockWithTimeout_loop Unix.linux (S fuel) 3 0 0 os =
          Some (inr (Unix.tick os), os') ∧
        Unix.calls os' = Unix.calls os ++ Unix.CallNow (Unix.tick os) ::
          mjoin (replicate (S fuel)
                   [Unix.CallFlock 3 6 (Some (Errno 11));
                    Unix.CallSleep (50 * Millisecond)]) ∧
        Unix.clock os + Z.of_nat (S fuel) * (50 * Millisecond) ≤ Unix.clock os').
Proof.
  intros os.
  destruct (@Contract.unbounded_when_timeout_not_positive Unix.linux 3 0 os)
    as [Hresult Hloops]; [lia|].
  split; [exact Hresult|].
  apply (Hloops "testing").
  - split_and!; [reflexivity | reflexivity | intros n _; reflexivity].
  - reflexivity.
  - intros c _. reflexivity.
Defined.

(** C1 at work: another process holds the lock for 120ms and the timeout
    is zero. *)
Lemma zero_timeout_polls_until_granted_locked :
  let os := Unix.testing (λ _, Some (Second + 120 * Millisecond)) in
  (∃ fuel os',
      @Unix.Lock_LockWithTimeout Unix.linux fuel 3 0 os = Some (nil, os') ∧
      Second + 120 * Millisecond ≤ Unix.clock os' ∧
      Unix.flocks os' !! "testing" = Some 3) ∧
  (∀ fuel e os',
      @Unix.Lock_LockWithTimeout Unix.linux fuel 3 0 os = Some (e, os') →
      e = nil ∧ Unix.clock os < Unix.clock os').
Proof.
  intros os.
  apply (@Contract.zero_timeout_polls_until_granted Unix.linux 3 "testing"
           (Some (Second + 120 * Millisecond)) os).
  - split_and!; [reflexivity | reflexivity | intros n _; reflexivity].
  - intros c. reflexivity.
  - reflexivity.
Defined.

(** C1 as stated does not hold there: a zero timeout is not "try once,
    fail immediately".  One turn makes the single attempt and the
    call has not returned; the call returns on its fourth attempt, 150ms
    later, and what it returns is success; no run of it returns a
    failure. *)
Lemma zero_timeout_is_not_try_once :
  let os := Unix.testing (λ _, Some (Second + 120 * Millisecond)) in
  Unix.rival_holds os "testing" (Unix.clock os) = true ∧
  @Unix.Lock_LockWithTimeout Unix.linux 1 3 0 os = None ∧
  (∃ os',
      @Unix.Lock_LockWithTimeout Unix.linux 4 3 0 os = Some (nil, os') ∧
      Unix.attempts os' = 4%nat ∧
      Unix.clock os' = Second + 150 * Millisecond) ∧
  ¬ (∃ fuel e os',
      @Unix.Lock_LockWithTimeout Unix.linux fuel 3 0 os = Some (e, os') ∧
      e ≠ nil).
Proof.
  intros os.
  assert (Hfour : ∃ os',
      @Unix.Lock_LockWithTimeout Unix.linux 4 3 0 os = Some (nil, os') ∧
      Unix.attempts os' = 4%nat ∧
      Unix.clock os' = Second + 150 * Millisecond).
  { vm_compute. eexists. split_and!; reflexivity. }
  split_and!; [reflexivity | reflexivity | exact Hfour |].
  intros (fuel & e & os' & Hrun & Hne).
  destruct Hfour as (os4 & Hfour & _).
  apply (@UnixFacts.LockWithTimeout_more_fuel Unix.linux _ 4) in Hrun.
  apply (@UnixFacts.LockWithTimeout_more_fuel Unix.linux _ fuel) in Hfour.
  rewrite Nat.add_comm, Hfour in Hrun. by injection Hrun as <- _.
Qed.

(** C6 at work: the run of [TestLockWithTimeoutLocked] returns a value
    that compares equal to the sentinel, having ended on its elapsed-time
    check; and a lock held for good times a 70ms timeout out. *)
Lemma sentinel_is_a_comparable_timeout_locked :
  let os := Unix.testing (λ _, None) in
  let os' := final (@Unix.Lock_LockWithTimeout Unix.linux 10 3
                           (70 * Millisecond)) os in
  ((ErrTimeout = ErrTimeout ∨ ErrTimeout = nil ∨ ∃ n, ErrTimeout = Some (Errno n)) ∧
   (error_eqb ErrTimeout ErrTimeout = true ↔
    ∃ t d, last (Unix.calls os') = Some (Unix.CallSince t d) ∧
           length (Unix.calls os) < length (Unix.calls os'))%nat) ∧
  (∃ fuel os'',
      @Unix.Lock_LockWithTimeout Unix.linux fuel 3 (70 * Millisecond) os =
        Some (ErrTimeout, os'') ∧
      error_eqb ErrTimeout ErrTimeout = true).
Proof.
  intros os os'.
  destruct (@Contract.sentinel_is_a_comparable_timeout Unix.linux Windows.amd64)
    as (_ & _ & _ & _ & Hresult & Htimes & _).
  split.
  - apply (Hresult 10%nat 3 (70 * Millisecond) os ErrTimeout os').
    vm_compute. reflexivity.
  - apply (Htimes 3 "testing" (70 * Millisecond) os).
    + unfold Millisecond, maxDuration. lia.
    + reflexivity.
    + split_and!; [reflexivity | reflexivity | intros n _; reflexivity].
    + intros c _. reflexivity.
Defined.

(** C7 at work: a request on descriptor 7, which is not open, reports
    EBADF, and the call returns it after that one request; an [Unlock] that
    the kernel interrupts returns EINTR. *)
Lemma lock_errors_surface_at_once_bad_descriptor :
  let os := Unix.failing 0 4 (Unix.testing (λ _, Some 0)) in
  let timeout := 50 * Millisecond in
  let os2 := final (Unix.LockWithTimeout_check timeout 0) os in
  let os3 := final (@Unix.syscall_Flock Unix.linux 7 6) os2 in
  (inl (Some (Errno 9)) = (inl (Some (Errno 9)) : error + Time) ∧
   length (Unix.calls os3) = S (length (Unix.calls os) + 1)) ∧
  (@Unix.Lock_LockWithTimeout Unix.linux (0 + 1) 7 timeout os =
     Some (Some (Errno 9), os3) ∧
   Unix.calls os3 = Unix.calls os2 ++ [Unix.CallFlock 7 6 (Some (Errno 9))]) ∧
  Unix.calls (final (@Unix.Lock_Unlock Unix.linux 7) os) =
    Unix.calls os ++ [Unix.CallFlock 7 8 (Some (Errno 4))] ∧
  (∃ os', @Unix.Lock_Unlock Unix.linux 7 os = Some (Some (Errno 4), os')).
Proof.
  intros os timeout os2 os3.
  destruct (@Contract.lock_errors_surface_at_once Unix.linux 7 timeout os)
    as (Hlast & Hnext & _ & _ & Hunlock & Hfault).
  split; [|split; [|split]].
  - apply (Hlast 1%nat (inl (Some (Errno 9))) os3 1%nat 7 6 9);
      [vm_compute; reflexivity | vm_compute; reflexivity | done].
  - apply (Hnext 0%nat 0%nat 0 os (Unix.tick os) os2 9 os3);
      [vm_compute; reflexivity | vm_compute; reflexivity
      | vm_compute; reflexivity | done].
  - apply (Hunlock (Some (Errno 4))). vm_compute. reflexivity.
  - apply (Hfault 4). reflexivity.
Defined.

(** C9 at work, on both backends: a handle on "testing" locks, unlocks and
    locks with a timeout, and is still the same open handle. *)
Lemma descriptor_reused_never_closed_testing :
  let u := Unix.testing (λ _, Some 0) in
  let w := Windows.testing [(1, 0); (1, 0); (0, 0)] in
  let wl := final (@Windows.Lock_Lock Windows.amd64 4) w in
  let wt := final
              (@Windows.Lock_LockWithTimeout Windows.amd64 4 (50 * Millisecond)) w in
  (Unix.fdtable (final (@Unix.Lock_Unlock Unix.linux 3) u) = Unix.fdtable u ∧
   Unix.fdtable (final (@Unix.Lock_Lock Unix.linux 3) u) = Unix.fdtable u ∧
   Unix.fdtable (final (@Unix.LockWithTimeout_loop Unix.linux 1 3 0 0) u)
     = Unix.fdtable u) ∧
  (Windows.valid (final (@Windows.Lock_Unlock Windows.amd64 4) w)
                 4 "testing" ∧
   (Windows.valid wl 4 "testing" ∧
    ∃ cs, Windows.calls wl = Windows.calls w ++ cs ∧
          Forall (Windows.on_handle 4) cs) ∧
   (Windows.valid wt 4 "testing" ∧
    ∃ cs, Windows.calls wt = Windows.calls w ++ cs ∧
          Forall (Windows.on_handle 4) cs)).
Proof.
  intros u w wl wt.
  destruct (@Contract.descriptor_reused_never_closed Unix.linux Windows.amd64)
    as [Hunix Hwindows].
  destruct (Hunix 3 u) as (Hunlock & Hlock & Hloop).
  destruct (Hwindows 4 "testing" w) as (Hwunlock & Hwlock & Hwtimed);
    [split; [lia | reflexivity]|].
  split; [split; [|split] | split; [|split]].
  - eapply Hunlock. vm_compute. reflexivity.
  - eapply Hlock. vm_compute. reflexivity.
  - eapply (Hloop 1%nat 0). vm_compute. reflexivity.
  - eapply Hwunlock. vm_compute. reflexivity.
  - eapply Hwlock. vm_compute. reflexivity.
  - eapply (Hwtimed (50 * Millisecond)). vm_compute. reflexivity.
Defined.

(** C2 at work: the lock request is accepted, the wait reports
    WAIT_TIMEOUT (258), and the call returns [nil]. *)
Lemma timed_out_wait_returns_nil_testing :
  let os := Windows.testing [(0, 0); (1, 0); (258, 0)] in
  ∃ os',
    @Windows.Lock_LockWithTimeout Windows.amd64 4 (50 * Millisecond) os =
      Some (nil, os') ∧
    Windows.calls os' = Windows.calls os ++
      Windows.waited_log 4 5 50000 1 0 258 0.
Proof.
  intros os.
  apply (@Contract.timed_out_wait_returns_nil Windows.amd64 4
           (50 * Millisecond) os 1 0 0); try reflexivity.
  - vm_compute. discriminate.
  - lia.
Defined.

(** C3 at work: a timeout of 50ms makes a wait of 50000ms. *)
Lemma wait_spans_thousand_timeouts_testing :
  let os := Windows.testing [(0, 0); (1, 0); (0, 0)] in
  ∃ e os',
    @Windows.Lock_LockWithTimeout Windows.amd64 4 (50 * Millisecond) os =
      Some (e, os') ∧
    Windows.calls os' = Windows.calls os ++
      Windows.waited_log 4 5 (1000 * 50) 1 0 0 0.
Proof.
  intros os.
  apply (@Contract.wait_spans_thousand_timeouts Windows.amd64 4 50 os 1 0 0 0);
    try reflexivity; try lia.
  vm_compute. discriminate.
Defined.

(** C4 at work, as the tests [TestLockBlocks], [TestLockWithTimeoutLocked]
    and [TestStress] have it: [New] is called on "testing" a second time,
    once the first [New] has created the file.  The flock backend opens it
    again, on descriptor 4; the LockFileEx backend fails. *)
Lemma New_on_existing_lock_file_testing :
  let u := final (@Unix.New Unix.linux "testing") Unix.empty_dir in
  let w := final (@Windows.New Windows.amd64 "testing") Windows.empty_dir in
  (∃ l os',
      @Unix.New Unix.linux "testing" u = Some ((l, nil), os') ∧
      Unix.fdtable os' !! l = Some "testing" ∧
      Unix.fdtable u !! l = None) ∧
  (∃ os',
      @Windows.New Windows.amd64 "testing" w =
        Some ((0, Some (Errno Windows.ERROR_FILE_EXISTS)), os') ∧
      Windows.handles os' = Windows.handles w).
Proof.
  intros u w.
  destruct (@Contract.New_on_existing_lock_file Unix.linux Windows.amd64
              "testing" eq_refl) as [Hunix Hwindows].
  split.
  - apply Hunix; [reflexivity | vm_compute; reflexivity].
  - apply Hwindows; [reflexivity | vm_compute; reflexivity].
Defined.

End Tests.

(** ** The behaviour at work, in the setting of the package's tests *)

Module Runs.


(** With no one on the lock, a [LockWithTimeout] and a [Lock] through
    descriptor 3 return [nil] and hold the lock. *)
Lemma acquire_holds_or_leaves_alone_free :
  let os := Unix.testing (λ _, Some 0) in
  let os1 := final (@Unix.Lock_LockWithTimeout Unix.linux 1 3 0) os in
  let os2 := final (@Unix.Lock_Lock Unix.linux 3) os in
  (∃ path, Unix.fdtable os !! 3 = Some path ∧
           Unix.flocks os1 !! path = Some 3) ∧
  (∃ path, Unix.fdtable os !! 3 = Some path ∧
           Unix.flocks os2 !! path = Some 3).
Proof.
  intros os os1 os2.
  destruct (@Behaviour.acquire_holds_or_leaves_alone Unix.linux 3 os)
    as [Htimed Hlock].
  split.
  - destruct (Htimed 1%nat 0 nil os1) as [Hnil _];
      [vm_compute; reflexivity|].
    apply Hnil. reflexivity.
  - destruct (Hlock nil os2) as [Hnil _]; [vm_compute; reflexivity|].
    apply Hnil. reflexivity.
Defined.

(** Another process holds the lock for 120ms and the timeout is 70ms: the
    run returns the sentinel after as many sleeps as attempts. *)
Lemma polls_are_paced_locked :
  let os := Unix.testing (λ _, Some (Second + 120 * Millisecond)) in
  let os' := final (@Unix.Lock_LockWithTimeout Unix.linux 10 3
                      (70 * Millisecond)) os in
  let tries := (Unix.attempts os' - Unix.attempts os)%nat in
  let naps := (Unix.sleeps os' - Unix.sleeps os)%nat in
  (1 ≤ tries)%nat ∧
  naps = (if error_eqb ErrTimeout ErrTimeout then tries else tries - 1)%nat ∧
  Unix.clock os + Z.of_nat naps * (50 * Millisecond) ≤ Unix.clock os'.
Proof.
  intros os os'.
  apply (@Behaviour.polls_are_paced Unix.linux 10 3 (70 * Millisecond)
           ErrTimeout os os').
  vm_compute. reflexivity.
Defined.

(** Another process holds the lock for 120ms: [Lock] returns when it lets
    go. *)
Lemma Lock_returns_at_release_locked :
  let os := Unix.testing (λ _, Some (Second + 120 * Millisecond)) in
  (∀ e os',
      @Unix.Lock_Lock Unix.linux 3 os = Some (e, os') →
      e = nil ∧ Unix.flocks os' !! "testing" = Some 3 ∧
      Unix.calls os' = Unix.calls os ++ [Unix.CallFlock 3 Unix.LOCK_EX nil] ∧
      ∃ T, Unix.vacant os "testing" (Unix.tick os) = Some T ∧
           Unix.clock os' = Z.max (Unix.tick os) T) ∧
  (@Unix.Lock_Lock Unix.linux 3 os = None ↔
   Unix.vacant os "testing" (Unix.tick os) = None).
Proof.
  intros os.
  apply (@Behaviour.Lock_returns_at_release Unix.linux 3 "testing" os).
  split_and!; [reflexivity | reflexivity | intros n _; reflexivity].
Defined.

(** With no one on the lock, [Lock], [Unlock] and [Lock] again through
    descriptor 3 all return [nil]. *)
Lemma Unlock_undoes_Lock_free :
  let os := Unix.testing (λ _, Some 0) in
  ∃ os1 os2 os3,
    @Unix.Lock_Lock Unix.linux 3 os = Some (nil, os1) ∧
    Unix.flocks os1 !! "testing" = Some 3 ∧
    @Unix.Lock_Unlock Unix.linux 3 os1 = Some (nil, os2) ∧
    Unix.flocks os2 = Unix.flocks os ∧ Unix.fdtable os2 = Unix.fdtable os ∧
    @Unix.Lock_Lock Unix.linux 3 os2 = Some (nil, os3) ∧
    Unix.flocks os3 !! "testing" = Some 3.
Proof.
  intros os.
  apply (@Behaviour.Unlock_undoes_Lock Unix.linux 3 "testing" os).
  - split_and!; [reflexivity | reflexivity | intros n _; reflexivity].
  - intros c Hc. unfold Unix.rival_holds. simpl in *.
    unfold Second, Millisecond in Hc. lia.
Defined.

(** The lock file is locked through descriptor 3: through descriptor 4 a
    wait of 50ms times out, and a wait without bound never returns. *)
Lemma second_handle_is_excluded_testing :
  let os := Unix.opened_twice in
  (∃ fuel os',
     @Unix.Lock_LockWithTimeout Unix.linux fuel 4 (50 * Millisecond) os =
       Some (ErrTimeout, os') ∧
     Unix.flocks os' = Unix.flocks os) ∧
  (∀ fuel, @Unix.Lock_LockWithTimeout Unix.linux fuel 4 0 os = None) ∧
  @Unix.Lock_Lock Unix.linux 4 os = None.
Proof.
  intros os.
  destruct (@Behaviour.second_handle_is_excluded Unix.linux 3 4 "testing"
              (50 * Millisecond) os) as (Htimed & _ & Hlock);
    [lia | reflexivity | reflexivity | intros n _; reflexivity
    | reflexivity |].
  destruct (@Behaviour.second_handle_is_excluded Unix.linux 3 4 "testing"
              0 os) as (_ & Hnever & _);
    [lia | reflexivity | reflexivity | intros n _; reflexivity
    | reflexivity |].
  split; [|split].
  - apply Htimed. unfold Millisecond, maxDuration. lia.
  - apply Hnever. lia.
  - exact Hlock.
Defined.

(** Another process holds the lock for 120ms: a call without bound
    returns once it lets go. *)
Lemma LockWithTimeout_settles_locked :
  let os := Unix.testing (λ _, Some (Second + 120 * Millisecond)) in
  let T := Second + 120 * Millisecond in
  ∃ fuel e os',
    @Unix.Lock_LockWithTimeout Unix.linux fuel 3 0 os = Some (e, os') ∧
    (e = nil ∧ T ≤ Unix.clock os' ∧ Unix.flocks os' !! "testing" = Some 3
     ∨ e = ErrTimeout ∧ 0 < 0 ∧ Unix.flocks os' = Unix.flocks os).
Proof.
  intros os T.
  apply (@Behaviour.LockWithTimeout_settles Unix.linux 3 "testing" 0 T os).
  - split_and!; [reflexivity | reflexivity | intros n _; reflexivity].
  - intros c. reflexivity.
Defined.

(** Descriptor 7 is not open in the empty test directory. *)
Lemma closed_descriptor_is_EBADF_seven :
  let os := Unix.empty_dir in
  (∃ os', @Unix.Lock_LockWithTimeout Unix.linux 1 7 Second os =
            Some (Some (Errno Unix.EBADF), os') ∧
          Unix.attempts os' = S (Unix.attempts os) ∧
          Unix.sleeps os' = Unix.sleeps os ∧
          Unix.flocks os' = Unix.flocks os) ∧
  (∃ os', @Unix.Lock_Lock Unix.linux 7 os =
            Some (Some (Errno Unix.EBADF), os') ∧
          Unix.flocks os' = Unix.flocks os) ∧
  (∃ os', @Unix.Lock_Unlock Unix.linux 7 os =
            Some (Some (Errno Unix.EBADF), os') ∧
          Unix.flocks os' = Unix.flocks os).
Proof.
  intros os.
  apply (@Behaviour.closed_descriptor_is_EBADF Unix.linux 7 Second 0 os).
  - reflexivity.
  - intros n _. reflexivity.
  - vm_compute. discriminate.
Defined.

(** The lock is held through descriptor 3: [Unlock] through 3 releases it,
    [Unlock] through 4 returns [nil] and releases nothing. *)
Lemma Unlock_releases_own_lock_only_testing :
  let os := Unix.opened_twice in
  (∃ os',
     @Unix.Lock_Unlock Unix.linux 3 os = Some (nil, os') ∧
     Unix.flocks os' !! "testing" ≠ Some 3) ∧
  (∃ os',
     @Unix.Lock_Unlock Unix.linux 4 os = Some (nil, os') ∧
     Unix.flocks os' = Unix.flocks os).
Proof.
  intros os. split.
  - destruct (@Behaviour.Unlock_releases_own_lock_only Unix.linux 3
                "testing" os) as (os' & Hrun & Hgone & _);
      [reflexivity | reflexivity |].
    exists os'. split; [exact Hrun | exact Hgone].
  - destruct (@Behaviour.Unlock_releases_own_lock_only Unix.linux 4
                "testing" os) as (os' & Hrun & _ & Hsame & _);
      [reflexivity | reflexivity |].
    exists os'. split; [exact Hrun|]. apply Hsame.
    vm_compute. intros Heq. discriminate Heq.
Defined.

(** [TestLockWithTimeoutUnlocked] in an empty directory. *)
Lemma TestLockWithTimeoutUnlocked_passes_empty_dir :
  ∃ os', @Unix.TestLockWithTimeoutUnlocked Unix.linux 1 "/tmp/check-1"
           Unix.empty_dir = Some (Passed, os').
Proof.
  apply (@Behaviour.TestLockWithTimeoutUnlocked_passes Unix.linux 0
           "/tmp/check-1" Unix.empty_dir).
  - simpl. lia.
  - intros n _. reflexivity.
  - reflexivity.
  - intros c Hc. unfold Unix.rival_holds. simpl in *.
    unfold Second, Millisecond in Hc. lia.
Defined.

(** [TestLockWithTimeoutLocked] in an empty directory. *)
Lemma TestLockWithTimeoutLocked_passes_empty_dir :
  ∃ fuel os', @Unix.TestLockWithTimeoutLocked Unix.linux fuel "/tmp/check-2"
                Unix.empty_dir = Some (Passed, os').
Proof.
  apply (@Behaviour.TestLockWithTimeoutLocked_passes Unix.linux
           "/tmp/check-2" Unix.empty_dir).
  - simpl. lia.
  - intros n _. reflexivity.
  - reflexivity.
  - reflexivity.
  - intros c Hc. unfold Unix.rival_holds. simpl in *.
    unfold Second, Millisecond in Hc. lia.
Defined.

(** The lock request is accepted and the wait reports WAIT_TIMEOUT: the
    handle table is after the call what it was before. *)
Lemma handles_are_not_leaked_testing :
  let os := Windows.testing [(0, 0); (1, 0); (258, 0)] in
  let os1 := final (@Windows.Lock_Lock Windows.amd64 4) os in
  let os2 := final (@Windows.Lock_LockWithTimeout Windows.amd64 4
                      (50 * Millisecond)) os in
  let os3 := final (@Windows.Lock_Unlock Windows.amd64 4) os in
  (Windows.handles os1 = Windows.handles os ∧
   Windows.files os1 = Windows.files os) ∧
  (Windows.handles os2 = Windows.handles os ∧
   Windows.files os2 = Windows.files os) ∧
  (Windows.handles os3 = Windows.handles os ∧
   Windows.files os3 = Windows.files os).
Proof.
  intros os os1 os2 os3.
  destruct (@Behaviour.handles_are_not_leaked Windows.amd64 4 os)
    as (Hlock & Htimed & Hunlock); [vm_compute; discriminate|].
  split; [|split].
  - apply (Hlock nil os1). vm_compute. reflexivity.
  - apply (Htimed (50 * Millisecond) nil os2). vm_compute. reflexivity.
  - apply (Hunlock (Some (Errno (@Windows.EINVAL Windows.amd64))) os3). vm_compute. reflexivity.
Defined.

(** The lock request answers failure with ERROR_IO_PENDING (997), as it
    does when the lock is held elsewhere. *)
Lemma refused_request_skips_the_wait_pending :
  let os := Windows.testing [(0, 0); (0, 997)] in
  (∃ os', @Windows.Lock_Lock Windows.amd64 4 os =
            Some (Some (Errno 997), os') ∧
          Windows.calls os' = Windows.calls os ++ Windows.refused_log 4 5 997 ∧
          Windows.handles os' = Windows.handles os) ∧
  (∃ os', @Windows.Lock_LockWithTimeout Windows.amd64 4 (50 * Millisecond) os =
            Some (Some (Errno 997), os') ∧
          Windows.calls os' = Windows.calls os ++ Windows.refused_log 4 5 997 ∧
          Windows.handles os' = Windows.handles os).
Proof.
  intros os.
  destruct (@Behaviour.refused_request_skips_the_wait Windows.amd64 4
              (50 * Millisecond) 997 os) as (_ & Hlock & Htimed);
    [reflexivity | vm_compute; discriminate | reflexivity |].
  split; [exact Hlock | exact Htimed].
Defined.

(** The kernel fails the creation of the event with error 8; the lock
    request is accepted and the wait reports WAIT_OBJECT_0. *)
Lemma failed_event_creation_goes_unnoticed_testing :
  let os := Windows.failing 0 8 (Windows.testing [(0, 0); (1, 0); (0, 0)]) in
  (∃ os', @Windows.Lock_Lock Windows.amd64 4 os = Some (nil, os') ∧
          Windows.calls os' = Windows.calls os ++
            Windows.eventless_log 4 8 Windows.INFINITE 1 0 0 0) ∧
  (∃ os', @Windows.Lock_LockWithTimeout Windows.amd64 4 (50 * Millisecond) os =
            Some (nil, os') ∧
          Windows.calls os' = Windows.calls os ++
            Windows.eventless_log 4 8 50000 1 0 0 0).
Proof.
  intros os.
  apply (@Behaviour.failed_event_creation_goes_unnoticed Windows.amd64 4
           (50 * Millisecond) 8 1 0 0 0 os).
  - vm_compute. discriminate.
  - reflexivity.
  - reflexivity.
  - lia.
  - reflexivity.
Defined.


(** A name with a NUL in it. *)
Lemma New_claims_the_file_or_changes_nothing_NUL :
  let name := String Ascii.zero "testing" in
  @Windows.New Windows.amd64 name Windows.empty_dir =
    Some ((0, Some (Errno (@Windows.EINVAL Windows.amd64))), Windows.empty_dir).
Proof.
  intros name.
  destruct (@Behaviour.New_claims_the_file_or_changes_nothing Windows.amd64
              name Windows.empty_dir) as [_ Hnul].
  apply Hnul. reflexivity.
Defined.

(** [TestLockWithTimeoutLocked] in an empty directory. *)
Lemma TestLockWithTimeoutLocked_stops_at_New_empty_dir :
  ∃ v os',
    @Windows.TestLockWithTimeoutLocked Windows.amd64 "/tmp/check-2"
      Windows.empty_dir = Some (v, os') ∧
    (v = Failed 96 ∨ v = Failed 98).
Proof.
  destruct (@Behaviour.TestLockWithTimeoutLocked_stops_at_New Windows.amd64
              "/tmp/check-2" Windows.empty_dir) as (v & os' & Hrun & Hv & _).
  exists v, os'. split; [exact Hrun | exact Hv].
Defined.

(** [TestLockWithTimeoutUnlocked] in an empty directory, the wait reporting
    WAIT_TIMEOUT. *)
Lemma TestLockWithTimeoutUnlocked_on_LockFileEx_timed_out :
  let os := Windows.answering [(0, 0); (0, 0); (1, 0); (258, 0)]
              Windows.empty_dir in
  ∃ os',
    @Windows.TestLockWithTimeoutUnlocked Windows.amd64 "/tmp/check-1" os =
      Some (Passed, os') ∧
    Windows.handles os' =
      <[1 := Windows.FileObject "/tmp/check-1/testing"]> (Windows.handles os).
Proof.
  intros os.
  apply (@Behaviour.TestLockWithTimeoutUnlocked_on_LockFileEx Windows.amd64
           "/tmp/check-1" 1 0 258 0 os).
  - reflexivity.
  - vm_compute. intros Hin. discriminate Hin.
  - reflexivity.
  - reflexivity.
  - vm_compute. discriminate.
  - reflexivity.
  - lia.
  - reflexivity.
  - vm_compute. discriminate.
Defined.

End Runs.
